(** * Substrate: event routing, action execution and schedulers

    A shallow embedding of the event pipeline of the substrate repository
    (src/substrate/domains/events/{logic,router,actions,tools,tasks}.py) and
    of its scheduler layer (src/substrate/core/worker/schedulers.py,
    src/substrate/integrations/{resend,obsidian}/scheduler.py), with the
    properties the specification states about them.

    Python values are modelled by [pyval]; a Python exception is the [Raise]
    branch of the result type [res]; the database is an explicit [World]
    threaded through every function. *)

From Stdlib Require Import List Bool Arith ZArith Lia String Ascii DecimalString
  DecimalNat.
From Stdlib Require Import Sorting.Sorted Sorting.Permutation.
Import ListNotations.
Open Scope string_scope.
Open Scope nat_scope.
Open Scope list_scope.

Set Implicit Arguments.
Set Warnings "-register-all".

(** ** Python values *)

(** Lookup in a dict, kept as an association list in insertion order. *)
Fixpoint assoc_get {V : Type} (d : list (string * V)) (k : string) : option V :=
  match d with
  | [] => None
  | (k', v) :: d' => if String.eqb k' k then Some v else assoc_get d' k
  end.

(** [d[k] = v] for a dict: replaces in place, appends a new key. *)
Fixpoint assoc_set {V : Type} (d : list (string * V)) (k : string) (v : V)
  : list (string * V) :=
  match d with
  | [] => [(k, v)]
  | (k', v') :: d' =>
      if String.eqb k' k then (k, v) :: d' else (k', v') :: assoc_set d' k v
  end.

(** The values a row, a JSON column or a handler result can hold.  UUIDs and
    timestamps are the two non-JSON types the rows carry. *)
Inductive pyval : Type :=
| PNone
| PBool (b : bool)
| PInt (z : Z)
| PStr (s : string)
| PList (l : list pyval)
| PDict (d : list (string * pyval))
| PUuid (n : nat)
| PDatetime (t : nat).

Definition pydict := list (string * pyval).

(** Truth value of an object ([bool(x)], [not x], [x or y]). *)
Definition truthy (v : pyval) : bool :=
  match v with
  | PNone => false
  | PBool b => b
  | PInt z => negb (z =? 0)%Z
  | PStr s => negb (String.eqb s "")
  | PList l => match l with [] => false | _ => true end
  | PDict d => match d with [] => false | _ => true end
  | PUuid _ => true
  | PDatetime _ => true
  end.

Definition Z_of_bool (b : bool) : Z := if b then 1%Z else 0%Z.

(** Python's [==]: by value, with [True == 1]; lists pointwise, dicts
    key by key whatever the order. *)
Fixpoint py_eq (a b : pyval) {struct a} : bool :=
  match a, b with
  | PNone, PNone => true
  | PBool x, PBool y => Bool.eqb x y
  | PBool x, PInt y => (Z_of_bool x =? y)%Z
  | PInt x, PBool y => (x =? Z_of_bool y)%Z
  | PInt x, PInt y => (x =? y)%Z
  | PStr x, PStr y => String.eqb x y
  | PList xs, PList ys =>
      (fix go (xs ys : list pyval) {struct xs} : bool :=
         match xs, ys with
         | [], [] => true
         | x :: xs', y :: ys' => py_eq x y && go xs' ys'
         | _, _ => false
         end) xs ys
  | PDict d, PDict e =>
      Nat.eqb (List.length d) (List.length e) &&
      (fix go (d : list (string * pyval)) {struct d} : bool :=
         match d with
         | [] => true
         | (k, v) :: d' =>
             match assoc_get e k with
             | Some w => py_eq v w
             | None => false
             end && go d'
         end) d
  | PUuid x, PUuid y => Nat.eqb x y
  | PDatetime x, PDatetime y => Nat.eqb x y
  | _, _ => false
  end.

(** ** Exceptions *)

Inductive exn : Type :=
| AttributeError (msg : string)
| TypeError (msg : string)
| OverflowError (msg : string)
| Exception (msg : string).

(** [str(e)] *)
Definition exn_str (e : exn) : string :=
  match e with
  | AttributeError m | TypeError m | OverflowError m | Exception m => m
  end.

Inductive res (A : Type) : Type :=
| Ret (a : A)
| Raise (e : exn).
Arguments Ret {A} a.
Arguments Raise {A} e.

Definition bind {A B : Type} (m : res A) (k : A -> res B) : res B :=
  match m with
  | Ret a => k a
  | Raise e => Raise e
  end.

Notation "x <- m ;; k" := (bind m (fun x => k))
  (at level 61, m at next level, right associativity).

Definition returns {A : Type} (m : res A) : Prop := exists a, m = Ret a.

(** [d.get(k, default)]: an attribute of dicts only. *)
Definition py_get (d : pyval) (k : string) (default : pyval) : res pyval :=
  match d with
  | PDict l => Ret (match assoc_get l k with Some v => v | None => default end)
  | _ => Raise (AttributeError "object has no attribute 'get'")
  end.

(** [event.get(k, default)] on an event, which is always a dict. *)
Definition dict_get (d : pydict) (k : string) (default : pyval) : pyval :=
  match assoc_get d k with
  | Some v => v
  | None => default
  end.

(** ** Strings *)

(** [str.lower] on the ASCII letters. *)
Definition lower_ascii (c : ascii) : ascii :=
  let n := nat_of_ascii c in
  if (65 <=? n) && (n <=? 90) then ascii_of_nat (n + 32) else c.

Definition upper_ascii (c : ascii) : ascii :=
  let n := nat_of_ascii c in
  if (97 <=? n) && (n <=? 122) then ascii_of_nat (n - 32) else c.

Fixpoint lower (s : string) : string :=
  match s with
  | EmptyString => EmptyString
  | String c s' => String (lower_ascii c) (lower s')
  end.

Fixpoint upper (s : string) : string :=
  match s with
  | EmptyString => EmptyString
  | String c s' => String (upper_ascii c) (upper s')
  end.

(** [sub in s] on strings. *)
Fixpoint is_substring (sub s : string) : bool :=
  String.prefix sub s ||
  match s with
  | EmptyString => false
  | String _ s' => is_substring sub s'
  end.

(** [v.lower()]: an attribute of strings only. *)
Definition py_lower (v : pyval) : res string :=
  match v with
  | PStr s => Ret (lower s)
  | _ => Raise (AttributeError "object has no attribute 'lower'")
  end.

(** ** The regular-expression engine

    [re.search(pattern, text, re.IGNORECASE)] belongs to the Python library:
    the embedding takes it as an interface.  The call compiles the pattern
    first, and that has three outcomes: a compiled pattern, [re.error] for
    an invalid one, or another exception (OverflowError for a repetition
    count beyond the engine's limit, RecursionError for a pattern nested too
    deep), which [except re.error] does not catch. *)
Inductive compiled (R : Type) : Type :=
| Compiled (r : R)
| ReError
| CompileRaise (e : exn).
Arguments Compiled {R} r.
Arguments ReError {R}.
Arguments CompileRaise {R} e.

Class ReEngine : Type := {
  regex : Type;
  re_compile : string -> compiled regex;
  re_search : regex -> string -> bool
}.

(** ** Matcher (domains/events/logic.py) *)

Section Matcher.
Context {RE : ReEngine}.

Definition _contains (text substring : pyval) : res bool :=
  if negb (truthy text) || negb (truthy substring) then Ret false
  else
    sub <- py_lower substring ;;
    txt <- py_lower text ;;
    Ret (is_substring sub txt).

Definition _equals (text value : pyval) : res bool :=
  if negb (truthy text) || negb (truthy value) then Ret (py_eq text value)
  else
    txt <- py_lower text ;;
    val <- py_lower value ;;
    Ret (String.eqb txt val).

Definition _regex_match (text pattern : pyval) : res bool :=
  if negb (truthy text) || negb (truthy pattern) then Ret false
  else
    match pattern with
    | PStr p =>
        match re_compile p with
        | ReError => Ret false
        | CompileRaise e => Raise e
        | Compiled r =>
            match text with
            | PStr t => Ret (re_search r t)
            | _ => Raise (TypeError "expected string or bytes-like object")
            end
        end
    | _ => Raise (TypeError "first argument must be string or compiled pattern")
    end.

Definition _check_condition (event : pydict) (condition_type : string)
    (value : pyval) : res bool :=
  if String.eqb condition_type "from_contains" then
    _contains (dict_get event "email_from" (PStr "")) value
  else if String.eqb condition_type "from_equals" then
    _equals (dict_get event "email_from" (PStr "")) value
  else if String.eqb condition_type "to_contains" then
    _contains (dict_get event "email_to" (PStr "")) value
  else if String.eqb condition_type "to_equals" then
    _equals (dict_get event "email_to" (PStr "")) value
  else if String.eqb condition_type "subject_contains" then
    _contains (dict_get event "email_subject" (PStr "")) value
  else if String.eqb condition_type "subject_equals" then
    _equals (dict_get event "email_subject" (PStr "")) value
  else if String.eqb condition_type "subject_matches" then
    _regex_match (dict_get event "email_subject" (PStr "")) value
  else if String.eqb condition_type "body_contains" then
    _contains (dict_get event "email_body" (PStr "")) value
  else if String.eqb condition_type "has_attachment" then
    att <- py_get (dict_get event "payload" (PDict [])) "attachments" PNone ;;
    Ret (py_eq (PBool (truthy att)) value)
  else if String.eqb condition_type "event_type_equals" then
    Ret (py_eq (dict_get event "event_type" PNone) value)
  else if String.eqb condition_type "source_equals" then
    Ret (py_eq (dict_get event "source" PNone) value)
  else Ret false.

(** The loop over [conditions.items()], in the dict's order. *)
Fixpoint matches_conditions (event : pydict) (conditions : pydict) : res bool :=
  match conditions with
  | [] => Ret true
  | (condition_type, condition_value) :: rest =>
      ok <- _check_condition event condition_type condition_value ;;
      if negb ok then Ret false else matches_conditions event rest
  end.

End Matcher.

(** ** The database

    Rows of [events.events], [events.rules] and [events.actions], and the
    two [auth] tables the owner lookup joins.  Identifiers are UUIDs,
    modelled by [nat]; timestamps are readings of the world's clock. *)

Definition uuid := nat.
Definition timestamp := nat.

Record Event : Type := {
  ev_id : uuid;
  ev_source : string;
  ev_source_id : option string;
  ev_event_type : string;
  ev_payload : pyval;
  ev_email_from : option string;
  ev_email_to : option string;
  ev_email_subject : option string;
  ev_email_body : option string;
  ev_email_date : option timestamp;
  ev_status : string;
  ev_matched_rule_id : option uuid;
  ev_route_result : option pyval;
  ev_routed_at : option timestamp;
  ev_owner_id : option uuid;
  ev_created_at : timestamp;
  ev_updated_at : timestamp
}.

Record Rule : Type := {
  rule_id : uuid;
  rule_name : string;
  rule_enabled : bool;
  rule_priority : Z;
  rule_conditions : pyval;
  rule_action : string;
  rule_action_config : pyval;
  rule_match_count : Z;
  rule_last_matched_at : option timestamp;
  rule_created_at : timestamp
}.

Record ActionLog : Type := {
  act_id : uuid;
  act_event_id : uuid;
  act_rule_id : uuid;
  act_action : string;
  act_action_input : pyval;
  act_action_output : option pyval;
  act_status : string;
  act_error : option string;
  act_started_at : timestamp;
  act_completed_at : option timestamp
}.

Record World : Type := {
  events : list Event;
  rules : list Rule;
  actions : list ActionLog;
  inboxes : list (uuid * string);
  inbox_members : list (uuid * uuid);
  clock : timestamp
}.

Definition set_events (w : World) (es : list Event) : World :=
  {| events := es; rules := rules w; actions := actions w;
     inboxes := inboxes w; inbox_members := inbox_members w;
     clock := clock w |}.

Definition set_rules (w : World) (rs : list Rule) : World :=
  {| events := events w; rules := rs; actions := actions w;
     inboxes := inboxes w; inbox_members := inbox_members w;
     clock := clock w |}.

Definition set_actions (w : World) (acts : list ActionLog) : World :=
  {| events := events w; rules := rules w; actions := acts;
     inboxes := inboxes w; inbox_members := inbox_members w;
     clock := clock w |}.

(** [datetime.utcnow()] and SQL [now()]: read the clock, which then moves on. *)
Definition utcnow (w : World) : timestamp * World :=
  (clock w,
   {| events := events w; rules := rules w; actions := actions w;
      inboxes := inboxes w; inbox_members := inbox_members w;
      clock := S (clock w) |}).

(** A primary key no row of the table holds yet. *)
Definition fresh_id (ids : list uuid) : uuid := S (list_max ids).

(** [str(id)] of a UUID. *)
Definition uuid_str (n : uuid) : string :=
  NilEmpty.string_of_uint (Nat.to_uint n).

Definition opt_str (o : option string) : pyval :=
  match o with Some s => PStr s | None => PNone end.

Definition opt_uuid (o : option uuid) : pyval :=
  match o with Some n => PUuid n | None => PNone end.

Definition opt_time (o : option timestamp) : pyval :=
  match o with Some t => PDatetime t | None => PNone end.

Definition opt_json (o : option pyval) : pyval :=
  match o with Some v => v | None => PNone end.

(** [dict(row)] for a row of [SELECT * FROM events.events]. *)
Definition event_dict (e : Event) : pydict :=
  [ ("id", PUuid (ev_id e));
    ("source", PStr (ev_source e));
    ("source_id", opt_str (ev_source_id e));
    ("event_type", PStr (ev_event_type e));
    ("payload", ev_payload e);
    ("email_from", opt_str (ev_email_from e));
    ("email_to", opt_str (ev_email_to e));
    ("email_subject", opt_str (ev_email_subject e));
    ("email_body", opt_str (ev_email_body e));
    ("email_date", opt_time (ev_email_date e));
    ("status", PStr (ev_status e));
    ("matched_rule_id", opt_uuid (ev_matched_rule_id e));
    ("route_result", opt_json (ev_route_result e));
    ("routed_at", opt_time (ev_routed_at e));
    ("owner_id", opt_uuid (ev_owner_id e));
    ("created_at", PDatetime (ev_created_at e));
    ("updated_at", PDatetime (ev_updated_at e)) ].

(** ** Router (domains/events/router.py) *)

(** [ORDER BY priority DESC, created_at ASC] *)
Definition rule_leb (a b : Rule) : bool :=
  (rule_priority b <? rule_priority a)%Z ||
  ((rule_priority a =? rule_priority b)%Z &&
   (rule_created_at a <=? rule_created_at b)).

Fixpoint insert_rule (r : Rule) (l : list Rule) : list Rule :=
  match l with
  | [] => [r]
  | r' :: l' => if rule_leb r r' then r :: r' :: l' else r' :: insert_rule r l'
  end.

Fixpoint order_rules (l : list Rule) : list Rule :=
  match l with
  | [] => []
  | r :: l' => insert_rule r (order_rules l')
  end.

Definition get_enabled_rules (w : World) : list Rule :=
  order_rules (filter rule_enabled (rules w)).

(** The dict [route_event] returns for a match. *)
Record RouteResult : Type := {
  rr_rule_id : uuid;
  rr_rule_name : string;
  rr_action : string;
  rr_action_config : pyval
}.

Definition route_of (r : Rule) : RouteResult :=
  {| rr_rule_id := rule_id r;
     rr_rule_name := rule_name r;
     rr_action := rule_action r;
     rr_action_config :=
       if truthy (rule_action_config r) then rule_action_config r else PDict [] |}.

(** [Json(route_result)] *)
Definition route_result_json (rr : RouteResult) : pyval :=
  PDict [ ("rule_id", PStr (uuid_str (rr_rule_id rr)));
          ("rule_name", PStr (rr_rule_name rr));
          ("action", PStr (rr_action rr));
          ("action_config", rr_action_config rr) ].

Section Router.
Context {RE : ReEngine}.

(** [matches_conditions(event, rule.get("conditions", {}))]: the column is
    always in the row, so the default never applies; [.items()] is an
    attribute of dicts only. *)
Definition rule_matches (event : pydict) (r : Rule) : res bool :=
  match rule_conditions r with
  | PDict conditions => matches_conditions event conditions
  | _ => Raise (AttributeError "object has no attribute 'items'")
  end.

Fixpoint first_match (event : pydict) (rs : list Rule) : res (option RouteResult) :=
  match rs with
  | [] => Ret None
  | r :: rs' =>
      ok <- rule_matches event r ;;
      if ok then Ret (Some (route_of r)) else first_match event rs'
  end.

Definition route_event (w : World) (event : pydict) : res (option RouteResult) :=
  first_match event (get_enabled_rules w).

End Router.

(** ** Action executor (domains/events/actions.py) *)

(** What the handlers call outside this repository's event tables: the Notes
    collaborator, the task queue, and the Python library functions they
    format with.  Each may raise. *)
Class Externals : Type := {
  (** [str(x)] *)
  py_str : pyval -> string;
  (** [title_template.format(subject=.., from_=.., date=..)] *)
  title_format : pyval -> pyval -> pyval -> pyval -> res pyval;
  (** [_format_event_as_note(event)] *)
  format_event_as_note : pydict -> res string;
  (** [create_note(title, content, tags, folder, frontmatter)] *)
  create_note : pyval -> string -> pyval -> pyval -> pydict -> res pyval;
  (** [json.loads(json.dumps(event, default=serialize))] *)
  json_roundtrip : pydict -> res pyval;
  (** [Absurd(..).spawn(task_name, params, queue=..)] *)
  absurd_spawn : pyval -> pyval -> string -> res pyval
}.

(** [d[k] = v] on an arbitrary object. *)
Definition py_setitem (d : pyval) (k : string) (v : pyval) : res pyval :=
  match d with
  | PDict l => Ret (PDict (assoc_set l k v))
  | _ => Raise (TypeError "object does not support item assignment")
  end.

(** The [jsonb || jsonb] operator: objects are merged, the right one
    winning; anything else is concatenated as arrays. *)
Definition jsonb_concat (a b : pyval) : pyval :=
  match a, b with
  | PDict x, PDict y => PDict (fold_left (fun acc kv => assoc_set acc (fst kv) (snd kv)) y x)
  | PList x, PList y => PList (x ++ y)
  | PList x, _ => PList (x ++ [b])
  | _, PList y => PList (a :: y)
  | _, _ => PList [a; b]
  end.

Definition update_event (event_id : uuid) (f : Event -> Event) (w : World) : World :=
  set_events w (map (fun e => if ev_id e =? event_id then f e else e) (events w)).

Definition update_rule (id : uuid) (f : Rule -> Rule) (w : World) : World :=
  set_rules w (map (fun r => if rule_id r =? id then f r else r) (rules w)).

Definition update_action (id : uuid) (f : ActionLog -> ActionLog) (w : World) : World :=
  set_actions w (map (fun a => if act_id a =? id then f a else a) (actions w)).

Definition with_route_result (v : option pyval) (e : Event) : Event :=
  {| ev_id := ev_id e; ev_source := ev_source e; ev_source_id := ev_source_id e;
     ev_event_type := ev_event_type e; ev_payload := ev_payload e;
     ev_email_from := ev_email_from e; ev_email_to := ev_email_to e;
     ev_email_subject := ev_email_subject e; ev_email_body := ev_email_body e;
     ev_email_date := ev_email_date e; ev_status := ev_status e;
     ev_matched_rule_id := ev_matched_rule_id e;
     ev_route_result := v;
     ev_routed_at := ev_routed_at e; ev_owner_id := ev_owner_id e;
     ev_created_at := ev_created_at e; ev_updated_at := ev_updated_at e |}.

Section Actions.
Context {EXT : Externals}.

(** Modelled from the spec: the declaration of [events.actions] (the SQL
    migrations), whose defaults fill the columns the INSERT leaves out: a
    fresh [id], [started_at] at insertion, the rest NULL. *)
Definition _log_action_start (w : World) (event_id rule_id : uuid)
    (action : string) (action_input : pyval) : World * uuid :=
  let id := fresh_id (map act_id (actions w)) in
  let (t, w1) := utcnow w in
  (set_actions w1
     (actions w1 ++
      [ {| act_id := id; act_event_id := event_id; act_rule_id := rule_id;
           act_action := action; act_action_input := action_input;
           act_action_output := None; act_status := "running";
           act_error := None; act_started_at := t;
           act_completed_at := None |} ]),
   id).

Definition _log_action_complete (w : World) (action_id : uuid)
    (result : pydict) (error : option string) : World :=
  let status :=
    if truthy (dict_get result "success" PNone) then "completed" else "failed" in
  let (t, w1) := utcnow w in
  update_action action_id
    (fun a =>
       {| act_id := act_id a; act_event_id := act_event_id a;
          act_rule_id := act_rule_id a; act_action := act_action a;
          act_action_input := act_action_input a;
          act_action_output := Some (PDict result);
          act_status := status; act_error := error;
          act_started_at := act_started_at a;
          act_completed_at := Some t |}) w1.

Definition _action_create_note (event : pydict) (config : pyval) : res pydict :=
  folder <- py_get config "folder" (PStr "Inbox") ;;
  tags <- py_get config "tags" (PList []) ;;
  title_template <- py_get config "title_template" PNone ;;
  title <-
    (if truthy title_template then
       title_format title_template
         (dict_get event "email_subject" (PStr ""))
         (dict_get event "email_from" (PStr ""))
         (dict_get event "email_date" (PStr ""))
     else
       let subject := dict_get event "email_subject" PNone in
       Ret (if truthy subject then subject else PStr "Untitled Event")) ;;
  content <- format_event_as_note event ;;
  note <- create_note title content tags folder
            [ ("source", PStr "event");
              ("event_id", PStr (py_str (dict_get event "id" PNone))) ] ;;
  note_id <- py_get note "id" PNone ;;
  note_path <- py_get note "file_path" PNone ;;
  Ret [ ("success", PBool true); ("note_id", note_id); ("note_path", note_path) ].

Definition _action_tag (w : World) (event_id : uuid) (config : pyval)
  : World * res pydict :=
  match py_get config "tags" (PList []) with
  | Raise e => (w, Raise e)
  | Ret tags =>
      if negb (truthy tags) then
        (w, Ret [ ("success", PBool true); ("message", PStr "No tags specified") ])
      else
        (update_event event_id
           (fun e =>
              with_route_result
                (Some (jsonb_concat
                         (match ev_route_result e with
                          | Some v => v
                          | None => PDict []
                          end)
                         (PDict [ ("tags", tags) ]))) e) w,
         Ret [ ("success", PBool true); ("tags_added", tags) ])
  end.

Definition _action_ignore (event_id : uuid) : pydict :=
  [ ("success", PBool true); ("message", PStr "Event ignored") ].

Definition _action_spawn_task (event : pydict) (config : pyval) : res pydict :=
  task_name <- py_get config "task_name" PNone ;;
  if negb (truthy task_name) then
    Ret [ ("success", PBool false); ("error", PStr "No task_name specified") ]
  else
    event_json <- json_roundtrip event ;;
    task_params <- py_get config "task_params" (PDict []) ;;
    task_params <- py_setitem task_params "event_id"
                     (PStr (py_str (dict_get event "id" PNone))) ;;
    task_params <- py_setitem task_params "event" event_json ;;
    match (result <- absurd_spawn task_name task_params "default" ;;
           task_id <- py_get result "task_id" PNone ;;
           Ret [ ("success", PBool true); ("task_id", PStr (py_str task_id)) ])
    with
    | Ret r => Ret r
    | Raise e =>
        Ret [ ("success", PBool false);
              ("error", PStr ("Failed to spawn task: " ++ exn_str e)%string) ]
    end.

(** The [if]/[elif] chain inside the [try]. *)
Definition dispatch_action (w : World) (event_id : uuid) (action : string)
    (action_config : pyval) (event : pydict) : World * res pydict :=
  if String.eqb action "create_note" then
    (w, _action_create_note event action_config)
  else if String.eqb action "tag" then
    _action_tag w event_id action_config
  else if String.eqb action "ignore" then
    (w, Ret (_action_ignore event_id))
  else if String.eqb action "spawn_task" then
    (w, _action_spawn_task event action_config)
  else
    (w, Ret [ ("success", PBool false);
              ("error", PStr ("Unknown action: " ++ action)%string) ]).

Definition execute_action (w : World) (event_id rule_id : uuid)
    (action : string) (action_config : pyval) (event : pydict)
  : World * pydict :=
  let (w1, action_id) :=
    _log_action_start w event_id rule_id action action_config in
  match dispatch_action w1 event_id action action_config event with
  | (w2, Ret result) =>
      (_log_action_complete w2 action_id result None, result)
  | (w2, Raise e) =>
      let error_result :=
        [ ("success", PBool false); ("error", PStr (exn_str e)) ] in
      (_log_action_complete w2 action_id error_result (Some (exn_str e)),
       error_result)
  end.

End Actions.

(** ** Processing and ingestion (domains/events/router.py) *)

Definition with_unmatched (routed_at updated_at : timestamp) (e : Event) : Event :=
  {| ev_id := ev_id e; ev_source := ev_source e; ev_source_id := ev_source_id e;
     ev_event_type := ev_event_type e; ev_payload := ev_payload e;
     ev_email_from := ev_email_from e; ev_email_to := ev_email_to e;
     ev_email_subject := ev_email_subject e; ev_email_body := ev_email_body e;
     ev_email_date := ev_email_date e;
     ev_status := "unmatched";
     ev_matched_rule_id := ev_matched_rule_id e;
     ev_route_result := ev_route_result e;
     ev_routed_at := Some routed_at;
     ev_owner_id := ev_owner_id e;
     ev_created_at := ev_created_at e;
     ev_updated_at := updated_at |}.

Definition with_routing (rr : RouteResult) (routed_at updated_at : timestamp)
    (e : Event) : Event :=
  {| ev_id := ev_id e; ev_source := ev_source e; ev_source_id := ev_source_id e;
     ev_event_type := ev_event_type e; ev_payload := ev_payload e;
     ev_email_from := ev_email_from e; ev_email_to := ev_email_to e;
     ev_email_subject := ev_email_subject e; ev_email_body := ev_email_body e;
     ev_email_date := ev_email_date e;
     ev_status := ev_status e;
     ev_matched_rule_id := Some (rr_rule_id rr);
     ev_route_result := Some (route_result_json rr);
     ev_routed_at := Some routed_at;
     ev_owner_id := ev_owner_id e;
     ev_created_at := ev_created_at e;
     ev_updated_at := updated_at |}.

Definition with_status (status : string) (updated_at : timestamp) (e : Event) : Event :=
  {| ev_id := ev_id e; ev_source := ev_source e; ev_source_id := ev_source_id e;
     ev_event_type := ev_event_type e; ev_payload := ev_payload e;
     ev_email_from := ev_email_from e; ev_email_to := ev_email_to e;
     ev_email_subject := ev_email_subject e; ev_email_body := ev_email_body e;
     ev_email_date := ev_email_date e;
     ev_status := status;
     ev_matched_rule_id := ev_matched_rule_id e;
     ev_route_result := ev_route_result e;
     ev_routed_at := ev_routed_at e;
     ev_owner_id := ev_owner_id e;
     ev_created_at := ev_created_at e;
     ev_updated_at := updated_at |}.

Definition with_match_stat (t : timestamp) (r : Rule) : Rule :=
  {| rule_id := rule_id r; rule_name := rule_name r;
     rule_enabled := rule_enabled r; rule_priority := rule_priority r;
     rule_conditions := rule_conditions r; rule_action := rule_action r;
     rule_action_config := rule_action_config r;
     rule_match_count := (rule_match_count r + 1)%Z;
     rule_last_matched_at := Some t;
     rule_created_at := rule_created_at r |}.

(** [SELECT * FROM events.events WHERE id = %s] then [fetchone()]. *)
Definition fetch_event (w : World) (event_id : uuid) : option Event :=
  find (fun e => ev_id e =? event_id) (events w).

Section Processing.
Context {RE : ReEngine} {EXT : Externals}.

Definition process_event (w : World) (event_id : uuid) : World * res pydict :=
  match fetch_event w event_id with
  | None => (w, Ret [ ("error", PStr "Event not found") ])
  | Some row =>
      let event := event_dict row in
      if negb (String.eqb (ev_status row) "pending") then
        (w, Ret [ ("error",
                   PStr ("Event already processed: " ++ ev_status row)%string) ])
      else
        match route_event w event with
        | Raise e => (w, Raise e)
        | Ret None =>
            let (routed_at, w1) := utcnow w in
            let (updated_at, w2) := utcnow w1 in
            (update_event event_id (with_unmatched routed_at updated_at) w2,
             Ret [ ("status", PStr "unmatched");
                   ("event_id", PStr (uuid_str event_id)) ])
        | Ret (Some route_result) =>
            let (routed_at, w1) := utcnow w in
            let (updated_at, w2) := utcnow w1 in
            let w3 :=
              update_event event_id
                (with_routing route_result routed_at updated_at) w2 in
            let (matched_at, w4) := utcnow w3 in
            let w5 :=
              update_rule (rr_rule_id route_result) (with_match_stat matched_at) w4 in
            let (w6, action_result) :=
              execute_action w5 event_id (rr_rule_id route_result)
                (rr_action route_result) (rr_action_config route_result) event in
            let new_status :=
              if truthy (dict_get action_result "success" PNone)
              then "processed" else "failed" in
            let (t, w7) := utcnow w6 in
            (update_event event_id (with_status new_status t) w7,
             Ret [ ("status", PStr new_status);
                   ("event_id", PStr (uuid_str event_id));
                   ("rule_id", PStr (uuid_str (rr_rule_id route_result)));
                   ("action", PStr (rr_action route_result));
                   ("action_result", PDict action_result) ])
        end
  end.

End Processing.

(** *** Ingestion *)

(** [str.split(",")] *)
Fixpoint split_comma (s : string) : list string :=
  match s with
  | EmptyString => [EmptyString]
  | String c s' =>
      if Ascii.eqb c "," then EmptyString :: split_comma s'
      else match split_comma s' with
           | [] => [String c EmptyString]
           | piece :: pieces => String c piece :: pieces
           end
  end.

(** The ASCII characters [str.strip()] removes. *)
Definition is_space (c : ascii) : bool :=
  let n := nat_of_ascii c in
  ((9 <=? n) && (n <=? 13)) || ((28 <=? n) && (n <=? 32)).

Fixpoint lstrip (s : string) : string :=
  match s with
  | EmptyString => EmptyString
  | String c s' => if is_space c then lstrip s' else s
  end.

Fixpoint rstrip (s : string) : string :=
  match s with
  | EmptyString => EmptyString
  | String c s' =>
      match rstrip s' with
      | EmptyString => if is_space c then EmptyString else String c EmptyString
      | t => String c t
      end
  end.

Definition strip (s : string) : string := rstrip (lstrip s).

(** The join of [auth.inbox_members] with [auth.inboxes] on one address,
    [LIMIT 1]: the first member of the first inbox with that address. *)
Definition inbox_owner (w : World) (addr : string) : option uuid :=
  match
    find (fun m =>
            existsb (fun i => (fst i =? fst m) && String.eqb (lower (snd i)) addr)
                    (inboxes w))
         (inbox_members w)
  with
  | Some m => Some (snd m)
  | None => None
  end.

Fixpoint first_owner (w : World) (addrs : list string) : option uuid :=
  match addrs with
  | [] => None
  | addr :: rest =>
      match inbox_owner w (lower (strip addr)) with
      | Some u => Some u
      | None => first_owner w rest
      end
  end.

Definition _get_owner_for_inbox (w : World) (email_to : option string) : option uuid :=
  match email_to with
  | None => None
  | Some s =>
      if String.eqb s "" then None else first_owner w (split_comma s)
  end.

(** The row and the key of an INSERT are in conflict when both columns are
    equal and not NULL: a NULL [source_id] is distinct from every other. *)
Definition conflicts (source : string) (source_id : option string) (e : Event) : bool :=
  match source_id, ev_source_id e with
  | Some sid, Some sid' => String.eqb (ev_source e) source && String.eqb sid' sid
  | _, _ => false
  end.
Arguments conflicts : simpl never.

Definition with_payload (payload : pyval) (updated_at : timestamp) (e : Event) : Event :=
  {| ev_id := ev_id e; ev_source := ev_source e; ev_source_id := ev_source_id e;
     ev_event_type := ev_event_type e;
     ev_payload := payload;
     ev_email_from := ev_email_from e; ev_email_to := ev_email_to e;
     ev_email_subject := ev_email_subject e; ev_email_body := ev_email_body e;
     ev_email_date := ev_email_date e;
     ev_status := ev_status e;
     ev_matched_rule_id := ev_matched_rule_id e;
     ev_route_result := ev_route_result e;
     ev_routed_at := ev_routed_at e;
     ev_owner_id := ev_owner_id e;
     ev_created_at := ev_created_at e;
     ev_updated_at := updated_at |}.

(** [DO UPDATE SET payload = EXCLUDED.payload, updated_at = now()] on the
    rows in conflict. *)
Definition upsert_row (source : string) (source_id : option string)
    (payload : pyval) (now : timestamp) (e : Event) : Event :=
  if conflicts source source_id e then with_payload payload now e else e.

(** Modelled from the spec: the declaration of [events.events] (the SQL
    migrations): the unique index on [(source, source_id)] that ON CONFLICT
    names, and the defaults of the columns the INSERT leaves out: a fresh
    [id], [status = 'pending'], [created_at] and [updated_at] at insertion,
    the routing columns NULL. *)
Definition create_event (w : World) (source : string) (source_id : option string)
    (event_type : string) (payload : pyval)
    (email_from email_to email_subject email_body : option string)
    (email_date : option timestamp) (owner_id : option uuid) : World * Event :=
  let owner_id :=
    match owner_id with
    | Some u => Some u
    | None => _get_owner_for_inbox w email_to
    end in
  let (now, w1) := utcnow w in
  match find (conflicts source source_id) (events w1) with
  | Some old =>
      (set_events w1 (map (upsert_row source source_id payload now) (events w1)),
       with_payload payload now old)
  | None =>
      let row :=
        {| ev_id := fresh_id (map ev_id (events w1));
           ev_source := source; ev_source_id := source_id;
           ev_event_type := event_type; ev_payload := payload;
           ev_email_from := email_from; ev_email_to := email_to;
           ev_email_subject := email_subject; ev_email_body := email_body;
           ev_email_date := email_date;
           ev_status := "pending";
           ev_matched_rule_id := None; ev_route_result := None;
           ev_routed_at := None;
           ev_owner_id := owner_id;
           ev_created_at := now; ev_updated_at := now |} in
      (set_events w1 (events w1 ++ [row]), row)
  end.

(** ** Periodic sync loop (integrations/resend/scheduler.py) *)

(** The calls the loop makes on the task context. *)
Inductive ctx_call : Type :=
| Step (name : string)
| SleepFor (name : string) (seconds : Z).

Definition nat_str (n : nat) : string := NilEmpty.string_of_uint (Nat.to_uint n).

Record SchedulerParams : Type := {
  interval_seconds : option Z;
  max_interval_seconds : option Z
}.

Record LoopState : Type := {
  iteration : nat;
  consecutive_errors : Z
}.

(** [params.get("interval_seconds", 60)] *)
Definition base_interval (params : SchedulerParams) : Z :=
  match interval_seconds params with Some i => i | None => 60%Z end.

(** [params.get("max_interval_seconds", 3600)] *)
Definition max_interval (params : SchedulerParams) : Z :=
  match max_interval_seconds params with Some m => m | None => 3600%Z end.

(** One turn of the [while True] body, given what [_do_sync] returned. *)
Definition resend_scheduler_iteration (params : SchedulerParams) (st : LoopState)
    (result : pydict) : LoopState * list ctx_call :=
  let interval_seconds := base_interval params in
  let max_interval_seconds := max_interval params in
  let iteration := S (iteration st) in
  if truthy (dict_get result "error" PNone) then
    let consecutive_errors := (consecutive_errors st + 1)%Z in
    let backoff :=
      Z.min (interval_seconds * 2 ^ consecutive_errors) max_interval_seconds in
    ({| iteration := iteration; consecutive_errors := consecutive_errors |},
     [ Step ("sync-" ++ nat_str iteration)%string;
       SleepFor ("wait-" ++ nat_str iteration)%string backoff ])
  else
    ({| iteration := iteration; consecutive_errors := 0%Z |},
     [ Step ("sync-" ++ nat_str iteration)%string;
       SleepFor ("wait-" ++ nat_str iteration)%string interval_seconds ]).

(** The loop on the first syncs of a run, from any state. *)
Fixpoint resend_scheduler_from (params : SchedulerParams) (st : LoopState)
    (results : list pydict) : LoopState * list ctx_call :=
  match results with
  | [] => (st, [])
  | result :: rest =>
      let (st1, calls) := resend_scheduler_iteration params st result in
      let (st2, calls') := resend_scheduler_from params st1 rest in
      (st2, calls ++ calls')
  end.

Definition resend_scheduler (params : SchedulerParams) (results : list pydict)
  : LoopState * list ctx_call :=
  resend_scheduler_from params {| iteration := 0; consecutive_errors := 0%Z |} results.

(** The seconds slept, in order. *)
Definition sleeps (calls : list ctx_call) : list Z :=
  flat_map (fun c => match c with SleepFor _ s => [s] | Step _ => [] end) calls.

(** ** Scheduler management (core/worker/schedulers.py) *)

Record Task : Type := {
  task_id : uuid;
  task_name : string;
  task_state : string;
  task_attempts : nat
}.

(** The queue tables [absurd.t_<queue>] that exist, by queue name. *)
Definition QueueDB := list (string * list Task).

Record SchedulerConfig : Type := {
  cfg_task_name : string;
  cfg_queue : option string;
  cfg_params : option pyval;
  cfg_singleton : option bool;
  cfg_enabled : option bool
}.

Record SpawnResult : Type := {
  sr_spawned : bool;
  sr_reason : option string;
  sr_task_name : option string;
  sr_queue : option string;
  sr_task_id : option string;
  sr_config : option SchedulerConfig
}.

(** [s LIKE '%' || suffix] *)
Fixpoint ends_with (suffix s : string) : bool :=
  String.eqb suffix s ||
  match s with
  | EmptyString => false
  | String _ s' => ends_with suffix s'
  end.

Definition is_active (t : Task) : bool :=
  String.eqb (task_state t) "pending" ||
  String.eqb (task_state t) "running" ||
  String.eqb (task_state t) "sleeping".

(** The SELECT on one queue table. *)
Definition active_schedulers (rows : list Task) : list Task :=
  filter (fun t => ends_with ".scheduler" (task_name t) && is_active t) rows.

(** The connection [get_running_schedulers] opens is not in autocommit
    mode, so its three SELECTs run in one transaction; [aborted] says that
    a statement of it has failed. *)
Record Scan : Type := {
  aborted : bool;
  running : list (string * Task)
}.

(** The body of the loop over the queues.  A table that does not exist
    makes the query raise, which the [except] swallows; the transaction is
    aborted from then on, so every later query of the connection raises as
    well and is swallowed the same way. *)
Definition scan_queue (db : QueueDB) (scan : Scan) (queue : string) : Scan :=
  if aborted scan then scan
  else
    match assoc_get db queue with
    | Some rows =>
        {| aborted := false;
           running :=
             fold_left (fun running row => assoc_set running (task_name row) row)
                       (active_schedulers rows) (running scan) |}
    | None => {| aborted := true; running := running scan |}
    end.

Definition get_running_schedulers (db : QueueDB) : list (string * Task) :=
  running (fold_left (scan_queue db) ["default"; "obsidian"; "email"]
             {| aborted := false; running := [] |}).

(** [Absurd(..).spawn(task_name, params, queue=queue)]: a new pending task
    in the queue's table; the call fails when the queue has no table. *)
Definition all_task_ids (db : QueueDB) : list uuid :=
  flat_map (fun q => map task_id (snd q)) db.

Definition spawn (db : QueueDB) (name : string) (params : pyval) (queue : string)
  : res (QueueDB * uuid) :=
  match assoc_get db queue with
  | None => Raise (Exception "queue does not exist")
  | Some rows =>
      let id := fresh_id (all_task_ids db) in
      Ret (assoc_set db queue
             (rows ++ [ {| task_id := id; task_name := name;
                           task_state := "pending"; task_attempts := 0 |} ]),
           id)
  end.

Definition config_queue (config : SchedulerConfig) : string :=
  match cfg_queue config with Some q => q | None => "default" end.

Definition spawn_scheduler (db : QueueDB) (config : SchedulerConfig)
  : res (QueueDB * SpawnResult) :=
  let task_name := cfg_task_name config in
  let queue := config_queue config in
  let params := match cfg_params config with Some p => p | None => PDict [] end in
  let singleton := match cfg_singleton config with Some b => b | None => true end in
  match (if singleton then assoc_get (get_running_schedulers db) task_name else None) with
  | Some row =>
      Ret (db,
           {| sr_spawned := false; sr_reason := Some "already_running";
              sr_task_name := None; sr_queue := None;
              sr_task_id := Some (uuid_str (task_id row));
              sr_config := None |})
  | None =>
      r <- spawn db task_name params queue ;;
      Ret (fst r,
           {| sr_spawned := true; sr_reason := None;
              sr_task_name := Some task_name; sr_queue := Some queue;
              sr_task_id := Some (uuid_str (snd r));
              sr_config := None |})
  end.

Definition already_running (row : Task) : SpawnResult :=
  {| sr_spawned := false; sr_reason := Some "already_running";
     sr_task_name := None; sr_queue := None;
     sr_task_id := Some (uuid_str (task_id row));
     sr_config := None |}.

Definition spawned (name queue : string) (id : uuid) : SpawnResult :=
  {| sr_spawned := true; sr_reason := None;
     sr_task_name := Some name; sr_queue := Some queue;
     sr_task_id := Some (uuid_str id);
     sr_config := None |}.

Definition disabled (config : SchedulerConfig) : SpawnResult :=
  {| sr_spawned := false; sr_reason := Some "disabled";
     sr_task_name := None; sr_queue := None; sr_task_id := None;
     sr_config := Some config |}.


Definition with_config (config : SchedulerConfig) (r : SpawnResult) : SpawnResult :=
  {| sr_spawned := sr_spawned r; sr_reason := sr_reason r;
     sr_task_name := sr_task_name r; sr_queue := sr_queue r;
     sr_task_id := sr_task_id r; sr_config := Some config |}.

(** The loop of [spawn_all_schedulers] over the discovered descriptors. *)
Fixpoint spawn_all_schedulers (db : QueueDB) (schedulers : list SchedulerConfig)
  : res (QueueDB * list SpawnResult) :=
  match schedulers with
  | [] => Ret (db, [])
  | config :: rest =>
      if negb (match cfg_enabled config with Some b => b | None => true end) then
        r <- spawn_all_schedulers db rest ;;
        Ret (fst r,
             {| sr_spawned := false; sr_reason := Some "disabled";
                sr_task_name := None; sr_queue := None; sr_task_id := None;
                sr_config := Some config |} :: snd r)
      else
        r1 <- spawn_scheduler db config ;;
        r <- spawn_all_schedulers (fst r1) rest ;;
        Ret (fst r, with_config config (snd r1) :: snd r)
  end.

(** ** Concrete collaborators for the examples

    A small engine, which agrees with Python's [re] on the patterns the
    examples use.  A pattern without special characters is a literal,
    searched without regard to case.  The pattern [a{4294967296}] asks for
    more repetitions than the engine counts (its limit is 2^32 - 1), and
    compiling it raises OverflowError.  The group [(?-i:...)] switches
    IGNORECASE off for what it holds: around a literal, the literal is
    searched as it is written.  Any other pattern holding a parenthesis or a
    bracket is rejected with [re.error] (as [re.compile("(")] is).  A
    compiled pattern is a literal with the flag "case-sensitive". *)
Fixpoint group_body (s : string) : option string :=
  match s with
  | EmptyString => None
  | String c s' =>
      if Ascii.eqb c ")" then
        match s' with EmptyString => Some EmptyString | _ => None end
      else option_map (String c) (group_body s')
  end.

Definition case_sensitive_group (p : string) : option string :=
  match p with
  | String "(" (String "?" (String "-" (String "i" (String ":" body)))) =>
      match group_body body with
      | Some literal =>
          if is_substring "(" literal || is_substring "[" literal then None
          else Some literal
      | None => None
      end
  | _ => None
  end.

Definition literal_compile (p : string) : compiled (bool * string) :=
  if String.eqb p "a{4294967296}" then
    CompileRaise (OverflowError "the repetition number is too large")
  else
    match case_sensitive_group p with
    | Some literal => Compiled (true, literal)
    | None =>
        if is_substring "(" p || is_substring "[" p then ReError
        else Compiled (false, lower p)
    end.

Definition literal_re : ReEngine :=
  {| regex := bool * string;
     re_compile := literal_compile;
     re_search := fun r t =>
       if fst r then is_substring (snd r) t else is_substring (snd r) (lower t) |}.

Definition str_of (v : pyval) : string :=
  match v with
  | PStr s => s
  | PUuid n => uuid_str n
  | _ => "None"
  end.

(** A Notes collaborator that stores every note, and a queue that accepts
    every task. *)
Definition working_ext : Externals :=
  {| py_str := str_of;
     title_format := fun template _ _ _ => Ret template;
     format_event_as_note := fun _ => Ret "";
     create_note := fun _ _ _ _ _ =>
       Ret (PDict [ ("id", PUuid 1); ("file_path", PStr "Inbox/note.md") ]);
     json_roundtrip := fun event => Ret (PDict event);
     absurd_spawn := fun _ _ _ => Ret (PDict [ ("task_id", PUuid 7) ]) |}.

(** A Notes collaborator whose [create_note] raises. *)
Definition failing_ext : Externals :=
  {| py_str := str_of;
     title_format := fun template _ _ _ => Ret template;
     format_event_as_note := fun _ => Ret "";
     create_note := fun _ _ _ _ _ => Raise (Exception "vault is read-only");
     json_roundtrip := fun event => Ret (PDict event);
     absurd_spawn := fun _ _ _ => Raise (Exception "connection refused") |}.

(** ** Well-formed matcher inputs *)

Definition is_str (v : pyval) : bool :=
  match v with PStr _ => true | _ => false end.

Definition is_str_or_none (v : pyval) : bool :=
  match v with PStr _ | PNone => true | _ => false end.

Definition is_dict (v : pyval) : bool :=
  match v with PDict _ => true | _ => false end.

(** The condition kinds that read an email field as text. *)
Definition text_conditions : list string :=
  [ "from_contains"; "from_equals"; "to_contains"; "to_equals";
    "subject_contains"; "subject_equals"; "subject_matches"; "body_contains" ].

Definition known_conditions : list string :=
  text_conditions ++ [ "has_attachment"; "event_type_equals"; "source_equals" ].

Definition mem_str (k : string) (l : list string) : bool :=
  existsb (String.eqb k) l.

(** The email fields are text or missing, the payload is a map. *)
Definition wf_event (event : pydict) : bool :=
  is_str_or_none (dict_get event "email_from" (PStr "")) &&
  is_str_or_none (dict_get event "email_to" (PStr "")) &&
  is_str_or_none (dict_get event "email_subject" (PStr "")) &&
  is_str_or_none (dict_get event "email_body" (PStr "")) &&
  is_dict (dict_get event "payload" (PDict [])).

(** The value of every text condition is a string. *)
Definition wf_condition (c : string * pyval) : bool :=
  if mem_str (fst c) text_conditions then is_str (snd c) else true.

Definition wf_conditions (conditions : pydict) : bool :=
  forallb wf_condition conditions.

(** Two values that differ at most in the letter case of a string. *)
Definition same_case (a b : pyval) : Prop :=
  match a, b with
  | PStr s, PStr t => lower s = lower t
  | _, _ => a = b
  end.

(** The condition kinds that read an email field as text, with the field
    each one reads. *)
Definition text_field (condition_type : string) : option string :=
  if String.eqb condition_type "from_contains" then Some "email_from"
  else if String.eqb condition_type "from_equals" then Some "email_from"
  else if String.eqb condition_type "to_contains" then Some "email_to"
  else if String.eqb condition_type "to_equals" then Some "email_to"
  else if String.eqb condition_type "subject_contains" then Some "email_subject"
  else if String.eqb condition_type "subject_equals" then Some "email_subject"
  else if String.eqb condition_type "subject_matches" then Some "email_subject"
  else if String.eqb condition_type "body_contains" then Some "email_body"
  else None.

(** Compiling the pattern raises nothing but [re.error]. *)
Definition compiles_quietly {RE : ReEngine} (v : pyval) : Prop :=
  forall (p : string) (e : exn), v = PStr p -> re_compile p <> CompileRaise e.

(** So does every pattern of the conditions map. *)
Definition quiet_patterns {RE : ReEngine} (conditions : pydict) : Prop :=
  forall v, In ("subject_matches", v) conditions -> compiles_quietly v.

(** What evaluating the conditions stored in a rule can give on an event:
    they hold, they fail, or the evaluation raises (a conditions column
    that is not a map has no [items]; an entry of a map can raise). *)
Definition conditions_hold {RE : ReEngine} (event : pydict) (r : Rule) : Prop :=
  exists conditions,
    rule_conditions r = PDict conditions /\
    matches_conditions event conditions = Ret true.

Definition conditions_fail {RE : ReEngine} (event : pydict) (r : Rule) : Prop :=
  exists conditions,
    rule_conditions r = PDict conditions /\
    matches_conditions event conditions = Ret false.

Definition conditions_raise {RE : ReEngine} (event : pydict) (r : Rule)
    (e : exn) : Prop :=
  match rule_conditions r with
  | PDict conditions => matches_conditions event conditions = Raise e
  | _ => e = AttributeError "object has no attribute 'items'"
  end.

(** ** Invariants and measures of the tables *)

Definition rule_le (a b : Rule) : Prop := rule_leb a b = true.

(** No two rows of the list share [(priority, created_at)]. *)
Definition keys_distinct (l : list Rule) : Prop :=
  forall a b, In a l -> In b l ->
    rule_priority a = rule_priority b ->
    rule_created_at a = rule_created_at b -> a = b.

(** The keys the unique index on [(source, source_id)] holds: one per row
    whose [source_id] is not NULL. *)
Definition index_keys (es : list Event) : list (string * string) :=
  flat_map (fun e => match ev_source_id e with
                     | Some sid => [(ev_source e, sid)]
                     | None => []
                     end) es.

(** The unique index is respected. *)
Definition unique_index (w : World) : Prop := NoDup (index_keys (events w)).

(** The rows ingested from [source] under [source_id]. *)
Definition rows_of (source : string) (source_id : option string) (es : list Event)
  : list Event :=
  filter (fun e =>
            String.eqb (ev_source e) source &&
            match source_id, ev_source_id e with
            | Some a, Some b => String.eqb a b
            | None, None => true
            | _, _ => false
            end) es.

(** What an upsert on an existing row leaves alone: every column but
    [payload] and [updated_at]. *)
Definition same_but_payload (old new : Event) : Prop :=
  ev_id new = ev_id old /\
  ev_source new = ev_source old /\
  ev_source_id new = ev_source_id old /\
  ev_event_type new = ev_event_type old /\
  ev_email_from new = ev_email_from old /\
  ev_email_to new = ev_email_to old /\
  ev_email_subject new = ev_email_subject old /\
  ev_email_body new = ev_email_body old /\
  ev_email_date new = ev_email_date old /\
  ev_status new = ev_status old /\
  ev_matched_rule_id new = ev_matched_rule_id old /\
  ev_route_result new = ev_route_result old /\
  ev_routed_at new = ev_routed_at old /\
  ev_owner_id new = ev_owner_id old /\
  ev_created_at new = ev_created_at old.

(** The queue is one of the three [get_running_schedulers] reads, and its
    SELECT is reached with the transaction intact: the table of every queue
    read before it exists. *)
Definition scanned (db : QueueDB) (queue : string) : Prop :=
  exists before after,
    ["default"; "obsidian"; "email"] = before ++ queue :: after /\
    forall q, In q before -> assoc_get db q <> None.

(** An active instance of [name] sits in a queue table that
    [get_running_schedulers] gets to read. *)
Definition seen_running (db : QueueDB) (name : string) : Prop :=
  exists queue rows t,
    scanned db queue /\
    assoc_get db queue = Some rows /\
    In t rows /\ task_name t = name /\
    ends_with ".scheduler" name = true /\ is_active t = true.

(** ** Example data *)

Definition support_conditions : pyval :=
  PDict [ ("to_contains", PStr "support@") ].

Definition rule_low : Rule :=
  {| rule_id := 1; rule_name := "archive support"; rule_enabled := true;
     rule_priority := 5%Z; rule_conditions := support_conditions;
     rule_action := "ignore"; rule_action_config := PDict [];
     rule_match_count := 0%Z; rule_last_matched_at := None;
     rule_created_at := 1 |}.

Definition rule_high : Rule :=
  {| rule_id := 2; rule_name := "tag support"; rule_enabled := true;
     rule_priority := 10%Z; rule_conditions := support_conditions;
     rule_action := "tag";
     rule_action_config := PDict [ ("tags", PList [ PStr "support" ]) ];
     rule_match_count := 0%Z; rule_last_matched_at := None;
     rule_created_at := 2 |}.

Definition support_mail (status : string) : Event :=
  {| ev_id := 1; ev_source := "resend"; ev_source_id := Some "msg-1";
     ev_event_type := "email.received"; ev_payload := PDict [];
     ev_email_from := Some "x@y.com"; ev_email_to := Some "support@x.com";
     ev_email_subject := Some "Help"; ev_email_body := Some "please";
     ev_email_date := None; ev_status := status;
     ev_matched_rule_id := None; ev_route_result := None;
     ev_routed_at := None; ev_owner_id := None;
     ev_created_at := 3; ev_updated_at := 3 |}.

Definition world_of (es : list Event) (rs : list Rule) : World :=
  {| events := es; rules := rs; actions := []; inboxes := [];
     inbox_members := []; clock := 10 |}.

(** Scenario C: two matching rules of priorities 5 and 10. *)
Definition support_world : World :=
  world_of [ support_mail "pending" ] [ rule_low; rule_high ].

Definition processed_world : World :=
  world_of [ support_mail "processed" ] [ rule_low; rule_high ].

(** A rule for another inbox, evaluated before the two support rules. *)
Definition rule_billing : Rule :=
  {| rule_id := 4; rule_name := "file invoices"; rule_enabled := true;
     rule_priority := 20%Z;
     rule_conditions := PDict [ ("to_contains", PStr "billing@") ];
     rule_action := "ignore"; rule_action_config := PDict [];
     rule_match_count := 0%Z; rule_last_matched_at := None;
     rule_created_at := 4 |}.

Definition triage_world : World :=
  world_of [ support_mail "pending" ] [ rule_low; rule_billing; rule_high ].

(** A rule whose condition value is a number, as a JSON column can hold. *)
Definition rule_broken : Rule :=
  {| rule_id := 5; rule_name := "mistyped"; rule_enabled := true;
     rule_priority := 10%Z;
     rule_conditions := PDict [ ("from_contains", PInt 5) ];
     rule_action := "ignore"; rule_action_config := PDict [];
     rule_match_count := 0%Z; rule_last_matched_at := None;
     rule_created_at := 5 |}.

Definition broken_world : World :=
  world_of [ support_mail "pending" ] [ rule_low; rule_broken ].

Definition sync_error : pydict := [ ("error", PStr "timeout") ].



Definition running_scheduler_db : QueueDB :=
  [ ("default", []);
    ("obsidian", []);
    ("email", [ {| task_id := 1; task_name := "resend.scheduler";
                   task_state := "sleeping"; task_attempts := 1 |} ]) ].


(** The three queues, all empty. *)
Definition empty_queues_db : QueueDB :=
  [ ("default", []); ("obsidian", []); ("email", []) ].

Definition resend_descriptor : SchedulerConfig :=
  {| cfg_task_name := "resend.scheduler"; cfg_queue := Some "email";
     cfg_params := None; cfg_singleton := Some true; cfg_enabled := None |}.

(** What processing may change in a rule: its match statistics, and the
    count by one at most. *)
Definition rule_kept (before after : Rule) : Prop :=
  rule_id after = rule_id before /\
  rule_name after = rule_name before /\
  rule_enabled after = rule_enabled before /\
  rule_priority after = rule_priority before /\
  rule_conditions after = rule_conditions before /\
  rule_action after = rule_action before /\
  rule_action_config after = rule_action_config before /\
  rule_created_at after = rule_created_at before /\
  (rule_match_count before <= rule_match_count after <= rule_match_count before + 1)%Z.

(** What processing the event [event_id] may change in an event: nothing in
    another event, and in that one the routing columns only. *)
Definition event_kept (event_id : uuid) (before after : Event) : Prop :=
  ev_id after = ev_id before /\
  ev_source after = ev_source before /\
  ev_source_id after = ev_source_id before /\
  ev_event_type after = ev_event_type before /\
  ev_payload after = ev_payload before /\
  ev_email_from after = ev_email_from before /\
  ev_email_to after = ev_email_to before /\
  ev_email_subject after = ev_email_subject before /\
  ev_email_body after = ev_email_body before /\
  ev_email_date after = ev_email_date before /\
  ev_owner_id after = ev_owner_id before /\
  ev_created_at after = ev_created_at before /\
  (ev_id before <> event_id -> after = before).

(** A [route_result] column that is NULL or holds a JSON object. *)
Definition object_or_null (o : option pyval) : Prop :=
  o = None \/ exists d, o = Some (PDict d).

(** The action kinds [execute_action] dispatches on. *)
Definition action_kinds : list string :=
  [ "create_note"; "tag"; "ignore"; "spawn_task" ].

(** Scenario D: a matching rule whose spawn_task action names no task. *)
Definition rule_spawn : Rule :=
  {| rule_id := 3; rule_name := "spawn for support"; rule_enabled := true;
     rule_priority := 1%Z; rule_conditions := support_conditions;
     rule_action := "spawn_task"; rule_action_config := PDict [];
     rule_match_count := 0%Z; rule_last_matched_at := None;
     rule_created_at := 1 |}.

Definition spawn_world : World :=
  world_of [ support_mail "pending" ] [ rule_spawn ].

(** The primary key of [events.events] is respected. *)
Definition ids_unique (w : World) : Prop := NoDup (map ev_id (events w)).

(** [", ".join(addresses)], as the resend sync builds [email_to]. *)
Fixpoint join_comma_space (l : list string) : string :=
  match l with
  | [] => ""
  | [a] => a
  | a :: rest => (a ++ ", " ++ join_comma_space rest)%string
  end.

(** The string holds no comma. *)
Fixpoint no_comma (s : string) : bool :=
  match s with
  | EmptyString => true
  | String c s' => negb (Ascii.eqb c ",") && no_comma s'
  end.

(** Some member belongs to an inbox with this (lowercase) address. *)
Definition has_member (w : World) (addr : string) (user : uuid) : Prop :=
  exists inbox email,
    In (inbox, user) (inbox_members w) /\ In (inbox, email) (inboxes w) /\
    lower email = addr.

Definition inbox_world : World :=
  {| events := []; rules := []; actions := [];
     inboxes := [ (1, "Support@X.com"); (2, "sales@x.com") ];
     inbox_members := [ (2, 20); (1, 10) ];
     clock := 0 |}.

(** The checkpoint name a context call is made under. *)
Definition call_name (c : ctx_call) : string :=
  match c with
  | Step name => name
  | SleepFor name _ => name
  end.

(** The two calls of iteration [i]: the sync step, then the wait. *)
Definition calls_named (i : nat) (calls : list ctx_call) : Prop :=
  match calls with
  | [ c1; c2 ] =>
      call_name c1 = ("sync-" ++ nat_str i)%string /\
      call_name c2 = ("wait-" ++ nat_str i)%string
  | _ => False
  end.

(** ** Reprocessing and batches (domains/events/tools.py, tasks.py) *)

(** [SET status = 'pending', matched_rule_id = NULL, route_result = NULL,
    routed_at = NULL, updated_at = %s] *)
Definition with_reset (updated_at : timestamp) (e : Event) : Event :=
  {| ev_id := ev_id e; ev_source := ev_source e; ev_source_id := ev_source_id e;
     ev_event_type := ev_event_type e; ev_payload := ev_payload e;
     ev_email_from := ev_email_from e; ev_email_to := ev_email_to e;
     ev_email_subject := ev_email_subject e; ev_email_body := ev_email_body e;
     ev_email_date := ev_email_date e;
     ev_status := "pending";
     ev_matched_rule_id := None;
     ev_route_result := None;
     ev_routed_at := None;
     ev_owner_id := ev_owner_id e;
     ev_created_at := ev_created_at e;
     ev_updated_at := updated_at |}.

(** [ORDER BY created_at ASC]; rows of one instant stay in storage order. *)
Fixpoint insert_event (e : Event) (l : list Event) : list Event :=
  match l with
  | [] => [e]
  | e' :: l' =>
      if ev_created_at e <=? ev_created_at e' then e :: e' :: l'
      else e' :: insert_event e l'
  end.

Fixpoint order_events (l : list Event) : list Event :=
  match l with
  | [] => []
  | e :: l' => insert_event e (order_events l')
  end.

Definition is_pending (e : Event) : bool := String.eqb (ev_status e) "pending".

(** [SELECT id FROM events.events WHERE status = 'pending'
     ORDER BY created_at ASC LIMIT %s] *)
Definition pending_rows (w : World) (limit : nat) : list uuid :=
  map ev_id (firstn limit (order_events (filter is_pending (events w)))).

(** The counters and the list the batch loop fills. *)
Record Tally : Type := {
  processed : nat;
  failed : nat;
  results : list pyval
}.

Definition count_processed (t : Tally) (result : pyval) : Tally :=
  {| processed := S (processed t); failed := failed t;
     results := results t ++ [result] |}.

Definition count_failed (t : Tally) (result : pyval) : Tally :=
  {| processed := processed t; failed := S (failed t);
     results := results t ++ [result] |}.

Section Batches.
Context {RE : ReEngine} {EXT : Externals}.

Definition reprocess_event (w : World) (event_id : uuid) : World * res pydict :=
  let (now, w1) := utcnow w in
  process_event (update_event event_id (with_reset now) w1) event_id.

(** The body of [for row in rows], a checkpointed step run for the first
    time: [ctx.step(name, fn)] calls [fn]. *)
Definition process_pending_step (acc : World * Tally) (event_id : uuid)
  : World * Tally :=
  let (w, t) := acc in
  match process_event w event_id with
  | (w', Ret result) =>
      if py_eq (dict_get result "status" PNone) (PStr "processed")
      then (w', count_processed t (PDict result))
      else (w', count_failed t (PDict result))
  | (w', Raise e) =>
      (w', count_failed t
             (PDict [ ("event_id", PStr (uuid_str event_id));
                      ("error", PStr (exn_str e)) ]))
  end.

Definition process_pending_loop (w : World) (rows : list uuid) : World * Tally :=
  fold_left process_pending_step rows
    (w, {| processed := 0; failed := 0; results := [] |}).

Definition process_pending_events (w : World) (limit : nat) : World * pydict :=
  let rows := pending_rows w limit in
  let (w', t) := process_pending_loop w rows in
  (w', [ ("processed", PInt (Z.of_nat (processed t)));
         ("failed", PInt (Z.of_nat (failed t)));
         ("total", PInt (Z.of_nat (List.length rows)));
         ("results", PList (results t)) ]).

End Batches.

(** The rows [process_event] may leave behind. *)
Definition terminal_statuses : list string :=
  [ "unmatched"; "processed"; "failed" ].

(** The result dict reports the status "processed". *)
Definition reports_processed (result : pyval) : bool :=
  match result with
  | PDict d => py_eq (dict_get d "status" PNone) (PStr "processed")
  | _ => false
  end.

(** What a batch over [ids] leaves of an event: a terminal status if it was
    one of them, the row as it was if not. *)
Definition drained (ids : list uuid) (before after : Event) : Prop :=
  ev_id after = ev_id before /\
  (In (ev_id before) ids -> In (ev_status after) terminal_statuses) /\
  (~ In (ev_id before) ids -> after = before).

(** The result [process_event] returns for an event no rule matched. *)
Definition unmatched_result (event_id : uuid) : pyval :=
  PDict [ ("status", PStr "unmatched"); ("event_id", PStr (uuid_str event_id)) ].

(** A pending mail that no example rule matches. *)
Definition billing_mail : Event :=
  {| ev_id := 2; ev_source := "resend"; ev_source_id := Some "msg-2";
     ev_event_type := "email.received"; ev_payload := PDict [];
     ev_email_from := Some "x@y.com"; ev_email_to := Some "billing@x.com";
     ev_email_subject := Some "Invoice"; ev_email_body := Some "attached";
     ev_email_date := None; ev_status := "pending";
     ev_matched_rule_id := None; ev_route_result := None;
     ev_routed_at := None; ev_owner_id := None;
     ev_created_at := 2; ev_updated_at := 2 |}.

Definition batch_world : World :=
  world_of [ support_mail "pending"; billing_mail ] [ rule_low; rule_high ].

Definition billing_world : World :=
  world_of [ billing_mail ] [ rule_low; rule_high ].

(** ** Vault sync loop (integrations/obsidian/scheduler.py) *)







(** * Properties *)

(** ** Strings and values *)

Lemma lower_is_empty (s : string) : String.eqb (lower s) "" = String.eqb s "".
Proof. destruct s; reflexivity. Qed.

Lemma lower_eq_is_empty (s t : string) :
  lower s = lower t -> String.eqb s "" = String.eqb t "".
Proof.
  intros H. rewrite <- (lower_is_empty s), <- (lower_is_empty t), H. reflexivity.
Qed.

Lemma eqb_empty_l (s : string) : String.eqb "" s = String.eqb s "".
Proof. destruct s; reflexivity. Qed.

Lemma lower_ascii_idem (c : ascii) : lower_ascii (lower_ascii c) = lower_ascii c.
Proof. destruct c as [[] [] [] [] [] [] [] []]; reflexivity. Qed.

Lemma lower_upper_ascii (c : ascii) : lower_ascii (upper_ascii c) = lower_ascii c.
Proof. destruct c as [[] [] [] [] [] [] [] []]; reflexivity. Qed.

Lemma lower_idem (s : string) : lower (lower s) = lower s.
Proof. induction s; simpl; [reflexivity | now rewrite lower_ascii_idem, IHs]. Qed.

Lemma lower_upper (s : string) : lower (upper s) = lower s.
Proof. induction s; simpl; [reflexivity | now rewrite lower_upper_ascii, IHs]. Qed.

Lemma same_case_refl (a : pyval) : same_case a a.
Proof. destruct a; simpl; reflexivity. Qed.

Lemma same_case_inv (a b : pyval) :
  same_case a b ->
  (exists s t, a = PStr s /\ b = PStr t /\ lower s = lower t) \/ a = b.
Proof.
  destruct a, b; simpl; intros H; try (right; exact H).
  left. eauto.
Qed.

Lemma same_case_truthy (a b : pyval) : same_case a b -> truthy a = truthy b.
Proof.
  intros H. destruct (same_case_inv _ _ H) as [(s & t & -> & -> & E) | ->];
    [simpl; now rewrite (lower_eq_is_empty _ _ E) | reflexivity].
Qed.

Lemma same_case_lower (a b : pyval) : same_case a b -> py_lower a = py_lower b.
Proof.
  intros H. destruct (same_case_inv _ _ H) as [(s & t & -> & -> & E) | ->];
    [simpl; now rewrite E | reflexivity].
Qed.

Lemma py_eq_str_other (s : string) (v : pyval) :
  is_str v = false -> py_eq (PStr s) v = false /\ py_eq v (PStr s) = false.
Proof. destruct v; simpl; intros H; try discriminate; split; reflexivity. Qed.

(** On a pair one side of which is falsy, [==] does not see letter case. *)
Lemma py_eq_same_case (t t' v v' : pyval) :
  same_case t t' -> same_case v v' ->
  truthy t = false \/ truthy v = false ->
  py_eq t v = py_eq t' v'.
Proof.
  intros Ht Hv Hf.
  destruct (same_case_inv _ _ Ht) as [(a & a' & -> & -> & Ea) | <-];
  destruct (same_case_inv _ _ Hv) as [(s & s' & -> & -> & Es) | <-];
  try reflexivity.
  - simpl in *. pose proof (lower_eq_is_empty _ _ Ea) as Ia.
    pose proof (lower_eq_is_empty _ _ Es) as Is.
    destruct Hf as [Hf | Hf]; apply negb_false_iff in Hf.
    + rewrite Hf in Ia. symmetry in Ia.
      apply String.eqb_eq in Hf, Ia. subst.
      now rewrite !eqb_empty_l.
    + rewrite Hf in Is. symmetry in Is.
      apply String.eqb_eq in Hf, Is. subst. exact Ia.
  - destruct (is_str v) eqn:Sv.
    + destruct v; try discriminate. simpl in *.
      pose proof (lower_eq_is_empty _ _ Ea) as Ia.
      destruct Hf as [Hf | Hf]; apply negb_false_iff in Hf.
      * rewrite Hf in Ia. symmetry in Ia.
        apply String.eqb_eq in Hf, Ia. now subst.
      * apply String.eqb_eq in Hf. now subst.
    + destruct (@py_eq_str_other a v Sv) as [-> _].
      destruct (@py_eq_str_other a' v Sv) as [-> _]. reflexivity.
  - destruct (is_str t) eqn:St.
    + destruct t; try discriminate. simpl in *.
      pose proof (lower_eq_is_empty _ _ Es) as Is.
      destruct Hf as [Hf | Hf]; apply negb_false_iff in Hf.
      * apply String.eqb_eq in Hf. subst. now rewrite !eqb_empty_l.
      * rewrite Hf in Is. symmetry in Is.
        apply String.eqb_eq in Hf, Is. now subst.
    + destruct (@py_eq_str_other s t St) as [_ ->].
      destruct (@py_eq_str_other s' t St) as [_ ->]. reflexivity.
Qed.

Section MatcherFacts.
Context {RE : ReEngine}.

Lemma _contains_same_case (t t' v v' : pyval) :
  same_case t t' -> same_case v v' -> _contains t v = _contains t' v'.
Proof.
  intros Ht Hv. unfold _contains.
  rewrite (same_case_truthy _ _ Ht), (same_case_truthy _ _ Hv).
  now rewrite (same_case_lower _ _ Ht), (same_case_lower _ _ Hv).
Qed.

Lemma _equals_same_case (t t' v v' : pyval) :
  same_case t t' -> same_case v v' -> _equals t v = _equals t' v'.
Proof.
  intros Ht Hv. unfold _equals.
  rewrite <- (same_case_truthy _ _ Ht), <- (same_case_truthy _ _ Hv).
  destruct (negb (truthy t) || negb (truthy v)) eqn:G.
  - f_equal. apply py_eq_same_case; trivial.
    apply orb_true_iff in G. destruct G as [G | G];
      apply negb_true_iff in G; auto.
  - now rewrite (same_case_lower _ _ Ht), (same_case_lower _ _ Hv).
Qed.

(** A text comparison of a string or [None] with a string returns. *)
Lemma _contains_returns (t v : pyval) :
  is_str_or_none t = true -> is_str v = true -> returns (_contains t v).
Proof.
  unfold _contains, returns. destruct t, v; try discriminate; intros _ _; simpl;
    try (eexists; reflexivity).
  destruct (_ || _); eexists; reflexivity.
Qed.

Lemma _equals_returns (t v : pyval) :
  is_str_or_none t = true -> is_str v = true -> returns (_equals t v).
Proof.
  unfold _equals, returns. destruct t, v; try discriminate; intros _ _; simpl;
    try (eexists; reflexivity).
  destruct (_ || _); eexists; reflexivity.
Qed.

Lemma _regex_match_returns (t v : pyval) :
  is_str_or_none t = true -> is_str v = true -> compiles_quietly v ->
  returns (_regex_match t v).
Proof.
  unfold _regex_match, returns. destruct t, v; try discriminate; intros _ _ Hq;
    simpl; try (eexists; reflexivity).
  destruct (_ || _); [eexists; reflexivity |].
  destruct (re_compile s0) as [r | | e] eqn:E; try (eexists; reflexivity).
  now elim (Hq s0 e eq_refl).
Qed.

Lemma _regex_match_invalid (t : pyval) (p : string) :
  re_compile p = ReError -> _regex_match t (PStr p) = Ret false.
Proof.
  intros H. unfold _regex_match. rewrite H.
  destruct (negb (truthy t) || negb (truthy (PStr p))); reflexivity.
Qed.

(** An exception of the engine other than [re.error] leaves
    [_regex_match] as it is. *)
Lemma _regex_match_raises (t p : string) (e : exn) :
  t <> "" -> p <> "" -> re_compile p = CompileRaise e ->
  _regex_match (PStr t) (PStr p) = Raise e.
Proof.
  intros Ht Hp H. unfold _regex_match. rewrite H. simpl.
  apply String.eqb_neq in Ht, Hp. now rewrite Ht, Hp.
Qed.

Lemma _check_condition_unknown (event : pydict) (k : string) (v : pyval) :
  mem_str k known_conditions = false -> _check_condition event k v = Ret false.
Proof.
  cbn [mem_str known_conditions text_conditions app existsb]. intros H.
  repeat (apply orb_false_iff in H; destruct H as [? H]).
  unfold _check_condition.
  repeat match goal with E : String.eqb k _ = false |- _ => rewrite E; clear E end.
  reflexivity.
Qed.

Lemma _check_condition_returns (event : pydict) (k : string) (v : pyval) :
  wf_event event = true -> wf_condition (k, v) = true ->
  (k = "subject_matches" -> compiles_quietly v) ->
  returns (_check_condition event k v).
Proof.
  unfold wf_event, wf_condition. intros We Wc Hq.
  repeat (apply andb_true_iff in We; destruct We as [We ?]).
  cbn [fst snd mem_str text_conditions existsb] in Wc.
  unfold _check_condition.
  repeat match goal with
         | |- context [String.eqb k ?x] =>
             destruct (String.eqb k x) eqn:?; cbn [orb] in Wc
         end;
    try (apply _contains_returns; assumption);
    try (apply _equals_returns; assumption);
    try (apply _regex_match_returns; try assumption;
         apply Hq; now apply String.eqb_eq);
    try (eexists; reflexivity).
  destruct (dict_get event "payload" (PDict [])); try discriminate.
  eexists; reflexivity.
Qed.

(** When every entry evaluates, the conjunction does, and one false entry
    makes it false. *)
Lemma matches_conditions_returns (event conditions : pydict) :
  Forall (fun c => returns (_check_condition event (fst c) (snd c))) conditions ->
  returns (matches_conditions event conditions).
Proof.
  induction 1 as [| [k v] rest [b Hb] _ IH]; simpl.
  - eexists; reflexivity.
  - simpl in Hb. rewrite Hb. simpl. destruct b; simpl; [exact IH | eexists; reflexivity].
Qed.

Lemma matches_conditions_false (event conditions : pydict) (k : string) (v : pyval) :
  Forall (fun c => returns (_check_condition event (fst c) (snd c))) conditions ->
  In (k, v) conditions ->
  _check_condition event k v = Ret false ->
  matches_conditions event conditions = Ret false.
Proof.
  induction 1 as [| [k' v'] rest [b Hb] _ IH]; simpl; [tauto |].
  intros [E | Hin] Hf.
  - inversion E; subst. rewrite Hf. reflexivity.
  - simpl in Hb. rewrite Hb. simpl. destruct b; simpl; [auto | reflexivity].
Qed.

Lemma wf_conditions_return (event conditions : pydict) :
  wf_event event = true -> wf_conditions conditions = true ->
  quiet_patterns conditions ->
  Forall (fun c => returns (_check_condition event (fst c) (snd c))) conditions.
Proof.
  intros We Wc Hq. unfold wf_conditions in Wc. rewrite forallb_forall in Wc.
  apply Forall_forall. intros [k v] Hin.
  apply _check_condition_returns; auto.
  cbn [fst snd]. intros ->. now apply Hq.
Qed.

End MatcherFacts.

(** ** Matcher: failing closed (C3) and letter case (C8) *)

(** C3, as stated, fails twice.  A text condition whose value is not a
    string (here the number 5, which a JSON conditions map can hold) raises
    AttributeError on [substring.lower()] instead of returning false.  And
    a [subject_matches] pattern on which the engine raises something else
    than [re.error] (OverflowError on [a{4294967296}]) is not caught by
    [except re.error]: the exception leaves [matches_conditions], on an
    event and a conditions map that are otherwise well formed. *)
Lemma matches_conditions_can_raise :
  @matches_conditions literal_re
    [ ("email_from", PStr "a@b.c") ] [ ("from_contains", PInt 5) ]
  = Raise (AttributeError "object has no attribute 'lower'")
  /\ @matches_conditions literal_re
       [ ("email_subject", PStr "aaaa") ]
       [ ("subject_matches", PStr "a{4294967296}") ]
     = Raise (OverflowError "the repetition number is too large")
  /\ wf_event [ ("email_subject", PStr "aaaa") ] = true
  /\ wf_conditions [ ("subject_matches", PStr "a{4294967296}") ] = true
  /\ ~ (forall event conditions : pydict,
          returns (@matches_conditions literal_re event conditions)).
Proof.
  split; [reflexivity |]. split; [reflexivity |].
  split; [reflexivity |]. split; [reflexivity |].
  intros H.
  destruct (H [ ("email_from", PStr "a@b.c") ] [ ("from_contains", PInt 5) ])
    as [b Hb].
  discriminate Hb.
Qed.

(** C3 (amended): on an event whose email fields are text or missing and
    whose payload is a map, and a conditions map whose text conditions hold
    strings and whose [subject_matches] patterns make the engine raise
    nothing but [re.error], [matches_conditions] returns a boolean and never
    raises; an entry with an unknown key evaluates to false whatever its
    value, a pattern under [subject_matches] that raises [re.error]
    evaluates to false whatever the subject, and either one makes the whole
    conjunction false. *)
Theorem matches_conditions_fail_closed {RE : ReEngine}
    (event conditions : pydict) :
  wf_event event = true ->
  wf_conditions conditions = true ->
  quiet_patterns conditions ->
  returns (matches_conditions event conditions)
  /\ (forall (k : string) (v : pyval),
        mem_str k known_conditions = false ->
        _check_condition event k v = Ret false
        /\ (In (k, v) conditions ->
            matches_conditions event conditions = Ret false))
  /\ (forall p : string,
        re_compile p = ReError ->
        _check_condition event "subject_matches" (PStr p) = Ret false
        /\ (In ("subject_matches", PStr p) conditions ->
            matches_conditions event conditions = Ret false)).
Proof.
  intros We Wc Hq.
  pose proof (wf_conditions_return _ We Wc Hq) as Hall.
  split; [now apply matches_conditions_returns |].
  split.
  - intros k v Hk.
    pose proof (_check_condition_unknown event k v Hk) as Hf.
    split; [exact Hf |].
    intros Hin. eapply matches_conditions_false; eauto.
  - intros p Hp.
    assert (Hf : _check_condition event "subject_matches" (PStr p) = Ret false)
      by (unfold _check_condition; simpl; now apply _regex_match_invalid).
    split; [exact Hf |].
    intros Hin. eapply matches_conditions_false; eauto.
Qed.

Lemma matches_conditions_fail_closed_witness :
  returns (@matches_conditions literal_re
             [ ("email_subject", PStr "Hello") ]
             [ ("subject_contains", PStr "hell"); ("subject_matches", PStr "(");
               ("colour", PStr "red") ])
  /\ @matches_conditions literal_re
       [ ("email_subject", PStr "Hello") ]
       [ ("subject_contains", PStr "hell"); ("subject_matches", PStr "(");
         ("colour", PStr "red") ]
     = Ret false.
Proof.
  assert (Hq : @quiet_patterns literal_re
                 [ ("subject_contains", PStr "hell");
                   ("subject_matches", PStr "("); ("colour", PStr "red") ]).
  { intros v [H | [H | [H | []]]]; try discriminate H.
    injection H as <-. intros p e Hp. injection Hp as <-. discriminate. }
  destruct (@matches_conditions_fail_closed literal_re
              [ ("email_subject", PStr "Hello") ]
              [ ("subject_contains", PStr "hell"); ("subject_matches", PStr "(");
                ("colour", PStr "red") ]
              eq_refl eq_refl Hq) as (Hret & _ & Hinvalid).
  split; [exact Hret |].
  destruct (Hinvalid "(" eq_refl) as [_ Hall].
  apply Hall. simpl. auto.
Defined.

(** C8, as stated, fails twice.  [event_type_equals] compares with [==],
    so the letter case of the event field decides the result (and
    [source_equals] is written the same way).  And [subject_matches] passes
    [re.IGNORECASE], but the pattern can switch it off: under
    [(?-i:Help)] the subject "Help" matches and "help" does not. *)
Lemma exact_and_scoped_conditions_see_case :
  (@_check_condition literal_re
     [ ("event_type", PStr "email.received") ]
     "event_type_equals" (PStr "email.received") = Ret true
   /\ @_check_condition literal_re
        [ ("event_type", PStr "Email.Received") ]
        "event_type_equals" (PStr "email.received") = Ret false
   /\ same_case (PStr "email.received") (PStr "Email.Received"))
  /\ (@_check_condition literal_re
        [ ("email_subject", PStr "Help") ]
        "subject_matches" (PStr "(?-i:Help)") = Ret true
      /\ @_check_condition literal_re
           [ ("email_subject", PStr "help") ]
           "subject_matches" (PStr "(?-i:Help)") = Ret false
      /\ same_case (PStr "Help") (PStr "help")).
Proof. repeat split. Qed.

(** C8 (amended): the text conditions that compare lowercase forms
    (from/to/subject contains and equals, body_contains) give the same
    result when ASCII letters of the event field or of the condition value
    change case; event_type_equals and source_equals are exact comparisons
    with [==].  Nothing of the kind holds of subject_matches, whose pattern
    decides what IGNORECASE applies to. *)
Theorem text_conditions_ignore_case {RE : ReEngine}
    (k field : string) (event event' : pydict) (v v' : pyval) :
  text_field k = Some field ->
  k <> "subject_matches" ->
  same_case (dict_get event field (PStr "")) (dict_get event' field (PStr "")) ->
  same_case v v' ->
  _check_condition event k v = _check_condition event' k v'
  /\ _check_condition event "event_type_equals" v
     = Ret (py_eq (dict_get event "event_type" PNone) v)
  /\ _check_condition event "source_equals" v
     = Ret (py_eq (dict_get event "source" PNone) v).
Proof.
  intros Hk Hre Hf Hv. split; [| split; reflexivity].
  unfold text_field in Hk. unfold _check_condition.
  repeat match type of Hk with
         | context [String.eqb k ?x] =>
             destruct (String.eqb k x) eqn:?
         end; try discriminate;
    injection Hk as <-;
    try (now apply _contains_same_case);
    try (now apply _equals_same_case).
  match goal with E : String.eqb k _ = true |- _ => apply String.eqb_eq in E end.
  contradiction.
Qed.

Lemma text_conditions_ignore_case_witness :
  @_check_condition literal_re
    [ ("email_from", PStr "Alice@Example.COM") ] "from_equals" (PStr "ALICE@example.com")
  = @_check_condition literal_re
      [ ("email_from", PStr "alice@example.com") ] "from_equals" (PStr "alice@EXAMPLE.com").
Proof.
  refine (proj1 (@text_conditions_ignore_case literal_re
                   "from_equals" "email_from"
                   [ ("email_from", PStr "Alice@Example.COM") ]
                   [ ("email_from", PStr "alice@example.com") ]
                   (PStr "ALICE@example.com") (PStr "alice@EXAMPLE.com")
                   eq_refl _ eq_refl eq_refl)).
  intros H. discriminate H.
Defined.

(** ** Router: the evaluation order and the first match (C1) *)

Lemma rule_leb_total (a b : Rule) : rule_leb a b = false -> rule_leb b a = true.
Proof.
  unfold rule_leb. intros H.
  apply orb_false_iff in H. destruct H as [H1 H2].
  apply Z.ltb_ge in H1.
  apply andb_false_iff in H2.
  destruct (Z.ltb_spec (rule_priority a) (rule_priority b)) as [Hlt | Hge];
    [reflexivity | simpl].
  assert (E : rule_priority a = rule_priority b) by lia.
  destruct H2 as [H2 | H2].
  - apply Z.eqb_neq in H2. contradiction.
  - apply Nat.leb_gt in H2. rewrite E, Z.eqb_refl. simpl.
    apply Nat.leb_le. lia.
Qed.

Lemma rule_le_trans (a b c : Rule) : rule_le a b -> rule_le b c -> rule_le a c.
Proof.
  unfold rule_le, rule_leb. intros H1 H2.
  apply orb_true_iff in H1, H2. apply orb_true_iff.
  destruct H1 as [H1 | H1], H2 as [H2 | H2];
    rewrite ?andb_true_iff, ?Z.ltb_lt, ?Z.eqb_eq, ?Nat.leb_le in *;
    try (left; lia).
  right. split; lia.
Qed.

Lemma rule_le_antisym_keys (a b : Rule) :
  rule_le a b -> rule_le b a ->
  rule_priority a = rule_priority b /\ rule_created_at a = rule_created_at b.
Proof.
  unfold rule_le, rule_leb. intros H1 H2.
  apply orb_true_iff in H1, H2.
  destruct H1 as [H1 | H1], H2 as [H2 | H2];
    rewrite ?andb_true_iff, ?Z.ltb_lt, ?Z.eqb_eq, ?Nat.leb_le in *; lia.
Qed.

Lemma insert_rule_perm (r : Rule) (l : list Rule) :
  Permutation (insert_rule r l) (r :: l).
Proof.
  induction l as [| r' l IH]; simpl; [reflexivity |].
  destruct (rule_leb r r'); [reflexivity |].
  rewrite IH. apply perm_swap.
Qed.

Lemma order_rules_perm (l : list Rule) : Permutation (order_rules l) l.
Proof.
  induction l as [| r l IH]; simpl; [constructor |].
  rewrite insert_rule_perm. now constructor.
Qed.

Lemma insert_rule_sorted (r : Rule) (l : list Rule) :
  StronglySorted rule_le l -> StronglySorted rule_le (insert_rule r l).
Proof.
  induction 1 as [| r' l Hs IH Hall]; simpl.
  - repeat constructor.
  - destruct (rule_leb r r') eqn:E.
    + constructor; [now constructor |].
      constructor; [exact E |].
      eapply Forall_impl; [| exact Hall].
      intros c Hc. eapply rule_le_trans; eauto.
    + constructor; [exact IH |].
      apply (Permutation_Forall (Permutation_sym (insert_rule_perm r l))).
      constructor; [now apply rule_leb_total | exact Hall].
Qed.

Lemma order_rules_sorted (l : list Rule) : StronglySorted rule_le (order_rules l).
Proof.
  induction l as [| r l IH]; simpl; [constructor | now apply insert_rule_sorted].
Qed.

Lemma filter_perm {A : Type} (f : A -> bool) (l l' : list A) :
  Permutation l l' -> Permutation (filter f l) (filter f l').
Proof.
  induction 1; simpl.
  - constructor.
  - destruct (f x); [now constructor | assumption].
  - destruct (f x), (f y); try reflexivity. apply perm_swap.
  - etransitivity; eauto.
Qed.

(** Two sorted arrangements of the same rows are equal when no two rows
    share their sort key. *)
Lemma sorted_perm_unique (l1 l2 : list Rule) :
  (forall a b, In a l1 -> In b l1 -> rule_le a b -> rule_le b a -> a = b) ->
  StronglySorted rule_le l1 -> StronglySorted rule_le l2 ->
  Permutation l1 l2 -> l1 = l2.
Proof.
  revert l2. induction l1 as [| a l1 IH]; intros l2 Hanti S1 S2 P.
  - apply Permutation_nil in P. now subst.
  - destruct l2 as [| b l2];
      [apply Permutation_sym, Permutation_nil in P; discriminate |].
    apply StronglySorted_inv in S1, S2.
    destruct S1 as [S1 A1], S2 as [S2 A2].
    rewrite Forall_forall in A1, A2.
    assert (E : a = b).
    { assert (Ha : In a (b :: l2)) by (eapply Permutation_in; [exact P | now left]).
      assert (Hb : In b (a :: l1))
        by (eapply Permutation_in; [exact (Permutation_sym P) | now left]).
      destruct Ha as [Ha | Ha]; [now subst |].
      destruct Hb as [Hb | Hb]; [now subst |].
      apply Hanti; [now left | now right | now apply A1 | now apply A2]. }
    subst b. f_equal.
    apply IH; trivial.
    + intros x y Hx Hy. apply Hanti; now right.
    + eapply Permutation_cons_inv; exact P.
Qed.

Section RouterFacts.
Context {RE : ReEngine}.

(** What [rule_matches] gives is what the stored conditions give. *)
Lemma rule_matches_hold (event : pydict) (r : Rule) :
  rule_matches event r = Ret true <-> conditions_hold event r.
Proof.
  unfold rule_matches, conditions_hold.
  destruct (rule_conditions r) as [| | | | | c | |];
    try (split; [discriminate | intros (c' & H & _); discriminate H]).
  split; [eauto |]. intros (c' & H & Hm). now injection H as ->.
Qed.

Lemma rule_matches_fail (event : pydict) (r : Rule) :
  rule_matches event r = Ret false <-> conditions_fail event r.
Proof.
  unfold rule_matches, conditions_fail.
  destruct (rule_conditions r) as [| | | | | c | |];
    try (split; [discriminate | intros (c' & H & _); discriminate H]).
  split; [eauto |]. intros (c' & H & Hm). now injection H as ->.
Qed.

Lemma rule_matches_raise (event : pydict) (r : Rule) (e : exn) :
  rule_matches event r = Raise e <-> conditions_raise event r e.
Proof.
  unfold rule_matches, conditions_raise.
  destruct (rule_conditions r); try reflexivity;
    (split; [intros H; now injection H as <- | now intros ->]).
Qed.

Lemma Forall_rule_matches_fail (event : pydict) (rs : list Rule) :
  Forall (fun r => rule_matches event r = Ret false) rs <->
  Forall (conditions_fail event) rs.
Proof.
  rewrite !Forall_forall. split; intros H r Hin; apply rule_matches_fail; auto.
Qed.

Lemma first_match_some (event : pydict) (rs : list Rule) (rr : RouteResult) :
  first_match event rs = Ret (Some rr) <->
  exists before r after,
    rs = before ++ r :: after /\
    Forall (fun r' => rule_matches event r' = Ret false) before /\
    rule_matches event r = Ret true /\
    rr = route_of r.
Proof.
  induction rs as [| r0 rs IH]; simpl.
  - split; [discriminate |].
    intros (before & r & after & E & _). destruct before; discriminate.
  - destruct (rule_matches event r0) as [[|] | e] eqn:M; simpl.
    + split.
      * intros H. injection H as <-. exists [], r0, rs. auto.
      * intros (before & r & after & E & Hb & Hr & ->).
        destruct before as [| b before]; simpl in E; injection E as -> ->.
        -- reflexivity.
        -- inversion Hb; subst. congruence.
    + rewrite IH. split.
      * intros (before & r & after & -> & Hb & Hr & ->).
        exists (r0 :: before), r, after. auto.
      * intros (before & r & after & E & Hb & Hr & ->).
        destruct before as [| b before]; simpl in E; injection E as -> ->.
        -- congruence.
        -- inversion Hb; subst. exists before, r, after. auto.
    + split; [discriminate |].
      intros (before & r & after & E & Hb & Hr & ->).
      destruct before as [| b before]; simpl in E; injection E as -> ->.
      * congruence.
      * inversion Hb; subst. congruence.
Qed.

Lemma first_match_none (event : pydict) (rs : list Rule) :
  first_match event rs = Ret None <->
  Forall (fun r => rule_matches event r = Ret false) rs.
Proof.
  induction rs as [| r0 rs IH]; simpl.
  - split; auto.
  - destruct (rule_matches event r0) as [[|] | e] eqn:M; simpl.
    + split; [discriminate | intros H; inversion H; congruence].
    + rewrite IH. split; [now constructor | intros H; now inversion H].
    + split; [discriminate | intros H; inversion H; congruence].
Qed.

Lemma first_match_raise (event : pydict) (rs : list Rule) (e : exn) :
  first_match event rs = Raise e <->
  exists before r after,
    rs = before ++ r :: after /\
    Forall (fun r' => rule_matches event r' = Ret false) before /\
    rule_matches event r = Raise e.
Proof.
  induction rs as [| r0 rs IH]; simpl.
  - split; [discriminate |].
    intros (before & r & after & E & _). destruct before; discriminate.
  - destruct (rule_matches event r0) as [[|] | e0] eqn:M; simpl.
    + split; [discriminate |].
      intros (before & r & after & E & Hb & Hr).
      destruct before as [| b before]; simpl in E; injection E as -> ->.
      * congruence.
      * inversion Hb; subst. congruence.
    + rewrite IH. split.
      * intros (before & r & after & -> & Hb & Hr).
        exists (r0 :: before), r, after. auto.
      * intros (before & r & after & E & Hb & Hr).
        destruct before as [| b before]; simpl in E; injection E as -> ->.
        -- congruence.
        -- inversion Hb; subst. exists before, r, after. auto.
    + split.
      * intros H. injection H as <-. exists [], r0, rs. auto.
      * intros (before & r & after & E & Hb & Hr).
        destruct before as [| b before]; simpl in E; injection E as -> ->.
        -- congruence.
        -- inversion Hb; subst. congruence.
Qed.

Lemma first_match_returns (event : pydict) (rs : list Rule) :
  Forall (fun r => returns (rule_matches event r)) rs ->
  returns (first_match event rs).
Proof.
  induction 1 as [| r rs [b Hb] _ IH]; simpl.
  - eexists; reflexivity.
  - rewrite Hb. simpl. destruct b; [eexists; reflexivity | exact IH].
Qed.

Lemma get_enabled_rules_perm (w : World) :
  Permutation (get_enabled_rules w) (filter rule_enabled (rules w)).
Proof. apply order_rules_perm. Qed.

Lemma get_enabled_rules_in (w : World) (r : Rule) :
  In r (get_enabled_rules w) <-> In r (rules w) /\ rule_enabled r = true.
Proof.
  rewrite <- filter_In. split; apply Permutation_in;
    [| apply Permutation_sym]; apply get_enabled_rules_perm.
Qed.

Lemma get_enabled_rules_stable (w w' : World) :
  Permutation (rules w) (rules w') ->
  keys_distinct (filter rule_enabled (rules w)) ->
  get_enabled_rules w' = get_enabled_rules w.
Proof.
  intros P K. symmetry. apply sorted_perm_unique.
  - intros a b Ha Hb Hab Hba.
    destruct (rule_le_antisym_keys Hab Hba) as [E1 E2].
    apply K; trivial;
      eapply Permutation_in; try apply get_enabled_rules_perm; assumption.
  - apply order_rules_sorted.
  - apply order_rules_sorted.
  - rewrite !get_enabled_rules_perm. now apply filter_perm.
Qed.

End RouterFacts.

(** C1, as stated, fails: the loop evaluates the conditions of every rule
    it passes, and an exception among them leaves [route_event].  Here the
    rule of priority 5 is the first (and only) enabled rule whose conditions
    hold on the mail, but the rule of priority 10 before it holds
    [from_contains: 5], and routing raises instead of returning a rule. *)
Lemma route_event_raises_before_a_match :
  get_enabled_rules broken_world = [ rule_broken; rule_low ]
  /\ @conditions_hold literal_re (event_dict (support_mail "pending")) rule_low
  /\ ~ @conditions_hold literal_re (event_dict (support_mail "pending")) rule_broken
  /\ @route_event literal_re broken_world (event_dict (support_mail "pending"))
     = Raise (AttributeError "object has no attribute 'lower'").
Proof.
  split; [reflexivity |].
  split; [eexists; split; reflexivity |].
  split; [| reflexivity].
  intros (c & Hc & Hm). injection Hc as <-. discriminate Hm.
Qed.

(** C1 (amended): [get_enabled_rules] lists exactly the enabled rules,
    sorted by (priority descending, created_at ascending).  [route_event]
    evaluates the stored conditions of the rules in this order.  It returns
    a rule exactly when the conditions of that rule hold and those of every
    rule before it evaluate to false, and then returns its rule_id, name,
    action and action_config; it returns none exactly when the conditions of
    every enabled rule evaluate to false; and it raises exactly when the
    conditions of a rule raise after those of every rule before it
    evaluated to false; so it returns whenever the conditions of every
    enabled rule evaluate.  The result depends on the rule table only, and not
    on the order its rows are stored in when no two enabled rules share
    (priority, created_at). *)
Theorem route_event_first_match {RE : ReEngine} (w : World) (event : pydict) :
  Permutation (get_enabled_rules w) (filter rule_enabled (rules w))
  /\ StronglySorted rule_le (get_enabled_rules w)
  /\ (forall rr : RouteResult,
        route_event w event = Ret (Some rr) <->
        exists before r after,
          get_enabled_rules w = before ++ r :: after /\
          Forall (conditions_fail event) before /\
          conditions_hold event r /\
          rr = {| rr_rule_id := rule_id r; rr_rule_name := rule_name r;
                  rr_action := rule_action r;
                  rr_action_config :=
                    if truthy (rule_action_config r)
                    then rule_action_config r else PDict [] |})
  /\ (route_event w event = Ret None <->
      forall r, In r (rules w) -> rule_enabled r = true ->
                conditions_fail event r)
  /\ (forall e : exn,
        route_event w event = Raise e <->
        exists before r after,
          get_enabled_rules w = before ++ r :: after /\
          Forall (conditions_fail event) before /\
          conditions_raise event r e)
  /\ (Forall (fun r => conditions_hold event r \/ conditions_fail event r)
             (get_enabled_rules w) ->
      returns (route_event w event))
  /\ (forall w' : World,
        (rules w' = rules w \/
         (Permutation (rules w) (rules w') /\
          keys_distinct (filter rule_enabled (rules w)))) ->
        route_event w' event = route_event w event).
Proof.
  split; [apply get_enabled_rules_perm |].
  split; [apply order_rules_sorted |].
  split.
  { intros rr. unfold route_event. rewrite first_match_some. split.
    - intros (before & r & after & E & Hb & Hr & Hrr).
      exists before, r, after. split; [exact E |].
      split; [now apply Forall_rule_matches_fail |].
      split; [now apply rule_matches_hold | exact Hrr].
    - intros (before & r & after & E & Hb & Hr & Hrr).
      exists before, r, after. split; [exact E |].
      split; [now apply Forall_rule_matches_fail |].
      split; [now apply rule_matches_hold | exact Hrr]. }
  split.
  { unfold route_event. rewrite first_match_none, Forall_forall.
    split; intros H r.
    - intros Hin Hen. apply rule_matches_fail, H. now apply get_enabled_rules_in.
    - intros Hin. apply get_enabled_rules_in in Hin.
      apply rule_matches_fail. now apply H. }
  split.
  { intros e. unfold route_event. rewrite first_match_raise. split.
    - intros (before & r & after & E & Hb & Hr).
      exists before, r, after. split; [exact E |].
      split; [now apply Forall_rule_matches_fail | now apply rule_matches_raise].
    - intros (before & r & after & E & Hb & Hr).
      exists before, r, after. split; [exact E |].
      split; [now apply Forall_rule_matches_fail | now apply rule_matches_raise]. }
  split.
  { intros Hall. apply first_match_returns.
    eapply Forall_impl; [| exact Hall]. intros r [H | H].
    - exists true. now apply rule_matches_hold.
    - exists false. now apply rule_matches_fail. }
  intros w' [E | [P K]]; unfold route_event.
  - unfold get_enabled_rules. now rewrite E.
  - now rewrite (get_enabled_rules_stable w w' P K).
Qed.

(** Three enabled rules: the one of priority 20 is for another inbox and
    its conditions fail on the support mail; of the two that match, the one
    of priority 10 is selected, whichever was created first. *)
Lemma route_event_first_match_witness :
  @route_event literal_re triage_world (event_dict (support_mail "pending"))
  = Ret (Some (route_of rule_high)).
Proof.
  destruct (@route_event_first_match literal_re triage_world
              (event_dict (support_mail "pending")))
    as (_ & _ & Hsome & _).
  apply Hsome. exists [ rule_billing ], rule_high, [ rule_low ].
  split; [reflexivity |]. split.
  - constructor; [| constructor]. eexists. split; reflexivity.
  - split; [| reflexivity]. eexists. split; reflexivity.
Defined.

(** ** Action executor: the audit row (C5) *)

Lemma fresh_id_gt (ids : list uuid) (n : uuid) : In n ids -> n < fresh_id ids.
Proof.
  intros Hin. unfold fresh_id.
  pose proof (proj1 (list_max_le ids (list_max ids)) (Nat.le_refl _)) as H.
  rewrite Forall_forall in H. specialize (H n Hin). lia.
Qed.

Lemma update_action_fresh (acts : list ActionLog) (id : uuid)
    (f : ActionLog -> ActionLog) (a : ActionLog) :
  (forall b, In b acts -> act_id b <> id) -> act_id a = id ->
  map (fun b => if act_id b =? id then f b else b) (acts ++ [a]) = acts ++ [f a].
Proof.
  intros Hold Ha. rewrite map_app. simpl. rewrite Ha, Nat.eqb_refl. f_equal.
  rewrite <- (map_id acts) at 2. apply map_ext_in.
  intros b Hb. apply Hold in Hb. apply Nat.eqb_neq in Hb. now rewrite Hb.
Qed.

Section ActionFacts.
Context {EXT : Externals}.

(** No handler writes to [events.actions], and [tag] is the only one that
    writes to [events.events]. *)
Lemma dispatch_action_frame (w : World) (event_id : uuid) (action : string)
    (config : pyval) (event : pydict) :
  let w' := fst (dispatch_action w event_id action config event) in
  actions w' = actions w /\ rules w' = rules w /\ clock w' = clock w /\
  (events w' = events w \/
   exists v, events w' =
             map (fun e => if ev_id e =? event_id
                           then with_route_result (v e) e else e) (events w)).
Proof.
  unfold dispatch_action.
  destruct (String.eqb action "create_note"); [simpl; auto |].
  destruct (String.eqb action "tag").
  - unfold _action_tag. destruct (py_get config "tags" (PList [])); [| simpl; auto].
    destruct (negb (truthy a)); simpl; [auto |].
    repeat split; trivial. right. eexists (fun e => _). reflexivity.
  - destruct (String.eqb action "ignore"); [simpl; auto |].
    destruct (String.eqb action "spawn_task"); simpl; auto.
Qed.

Lemma execute_action_log_rows (w : World) (event_id rule_id : uuid)
    (action : string) (action_config : pyval) (event : pydict) :
  let id := fresh_id (map act_id (actions w)) in
  let handled :=
    dispatch_action (fst (_log_action_start w event_id rule_id action action_config))
      event_id action action_config event in
  let done := execute_action w event_id rule_id action action_config event in
  actions (fst done) =
    actions w ++
    [ {| act_id := id; act_event_id := event_id; act_rule_id := rule_id;
         act_action := action; act_action_input := action_config;
         act_action_output := Some (PDict (snd done));
         act_status :=
           if truthy (dict_get (snd done) "success" PNone)
           then "completed" else "failed";
         act_error :=
           match snd handled with
           | Ret _ => None
           | Raise e => Some (exn_str e)
           end;
         act_started_at := clock w;
         act_completed_at := Some (S (clock w)) |} ]
  /\ snd done =
     match snd handled with
     | Ret result => result
     | Raise e => [ ("success", PBool false); ("error", PStr (exn_str e)) ]
     end.
Proof.
  intros id handled done. subst handled done.
  unfold execute_action, _log_action_start. simpl.
  match goal with |- context [dispatch_action ?w1 _ _ _ _] =>
    pose proof (dispatch_action_frame w1 event_id action action_config event) as F;
    destruct (dispatch_action w1 event_id action action_config event) as [w2 [result | e]]
  end; simpl in F; destruct F as (Fa & _ & Fc & _); simpl;
    unfold _log_action_complete, update_action; simpl;
    rewrite Fa, Fc; (split; [| reflexivity]);
    rewrite update_action_fresh with (id := id); try reflexivity;
    intros b Hb E; apply (in_map act_id) in Hb; apply fresh_id_gt in Hb;
    fold id in Hb; lia.
Qed.

End ActionFacts.

(** C5: [execute_action] first inserts one ActionLog row with status
    'running', on which the handler then runs; when it is done the table
    holds that one more row and nothing else has changed in it: the same
    row, now 'completed' if the result has a true [success] and 'failed'
    otherwise.  An exception from a handler does not leave
    [execute_action]: the row records [str(e)] as its error and the result
    is [{success: False, error: str(e)}]. *)
Theorem execute_action_audit {EXT : Externals} (w : World)
    (event_id rule_id : uuid) (action : string) (action_config : pyval)
    (event : pydict) :
  let started := _log_action_start w event_id rule_id action action_config in
  let handled := dispatch_action (fst started) event_id action action_config event in
  let done := execute_action w event_id rule_id action action_config event in
  (exists running,
      actions (fst started) = actions w ++ [running] /\
      act_id running = snd started /\ act_status running = "running" /\
      (forall a, In a (actions w) -> act_id a <> snd started) /\
      actions (fst handled) = actions (fst started))
  /\ (exists completed,
        actions (fst done) = actions w ++ [completed] /\
        act_id completed = snd started /\
        act_event_id completed = event_id /\
        act_rule_id completed = rule_id /\
        act_action_output completed = Some (PDict (snd done)) /\
        act_status completed =
          (if truthy (dict_get (snd done) "success" PNone)
           then "completed" else "failed") /\
        (forall e, snd handled = Raise e ->
                   act_status completed = "failed" /\
                   act_error completed = Some (exn_str e) /\
                   snd done = [ ("success", PBool false);
                                ("error", PStr (exn_str e)) ]) /\
        (forall result, snd handled = Ret result ->
                        act_error completed = None /\ snd done = result)).
Proof.
  intros started handled done.
  pose proof (execute_action_log_rows w event_id rule_id action action_config event)
    as [Hrows Hres].
  fold started in Hrows, Hres. fold handled in Hrows, Hres. fold done in Hrows, Hres.
  split.
  - eexists. split; [reflexivity |]. repeat split.
    + intros a Ha E. apply (in_map act_id) in Ha. apply fresh_id_gt in Ha.
      simpl in E. lia.
    + apply dispatch_action_frame.
  - eexists. split; [exact Hrows |]. simpl. repeat split.
    + rewrite Hres, H. reflexivity.
    + now rewrite H.
    + now rewrite Hres, H.
    + now rewrite H.
    + now rewrite Hres, H.
Qed.

Lemma execute_action_audit_witness :
  snd (@execute_action failing_ext (world_of [] []) 1 2 "create_note" (PDict [])
         (event_dict (support_mail "pending")))
  = [ ("success", PBool false); ("error", PStr "vault is read-only") ].
Proof.
  destruct (@execute_action_audit failing_ext (world_of [] []) 1 2 "create_note"
              (PDict []) (event_dict (support_mail "pending")))
    as (_ & completed & _ & _ & _ & _ & _ & _ & Hraise & _).
  destruct (Hraise (Exception "vault is read-only") eq_refl) as (_ & _ & Hres).
  exact Hres.
Defined.

(** ** Processing: the status guard (C2) and the terminal status (C7) *)

Lemma find_map_update (es : list Event) (id : uuid) (f : Event -> Event) :
  (forall e, ev_id (f e) = ev_id e) ->
  find (fun e => ev_id e =? id) (map (fun e => if ev_id e =? id then f e else e) es)
  = option_map f (find (fun e => ev_id e =? id) es).
Proof.
  intros Hid. induction es as [| e es IH]; simpl; [reflexivity |].
  destruct (ev_id e =? id) eqn:E; simpl.
  - now rewrite Hid, E.
  - now rewrite E.
Qed.

Lemma fetch_update_event (w : World) (id : uuid) (f : Event -> Event) :
  (forall e, ev_id (f e) = ev_id e) ->
  fetch_event (update_event id f w) id = option_map f (fetch_event w id).
Proof. intros Hid. unfold fetch_event, update_event. simpl. now apply find_map_update. Qed.

Section ProcessingFacts.
Context {RE : ReEngine} {EXT : Externals}.

(** An action leaves every event in place; at most it rewrites the
    [route_result] of the one it ran for. *)
Lemma execute_action_fetch (w : World) (event_id rule_id : uuid)
    (action : string) (config : pyval) (event : pydict) (row : Event) :
  fetch_event w event_id = Some row ->
  exists v,
    fetch_event (fst (execute_action w event_id rule_id action config event)) event_id
    = Some (with_route_result v row).
Proof.
  intros Hf. unfold execute_action, _log_action_start. simpl.
  match goal with |- context [dispatch_action ?w1 _ _ _ _] =>
    pose proof (dispatch_action_frame w1 event_id action config event) as F;
    destruct (dispatch_action w1 event_id action config event) as [w2 [result | e]]
  end; simpl in F; destruct F as (_ & _ & _ & Fe);
    unfold fetch_event, _log_action_complete, update_action; simpl;
    (destruct Fe as [-> | [v ->]];
     [ exists (ev_route_result row); unfold fetch_event in Hf; rewrite Hf;
       now destruct row
     | rewrite find_map_update by reflexivity;
       unfold fetch_event in Hf; rewrite Hf; simpl; eauto ]).
Qed.

End ProcessingFacts.

(** C2: on a stored event whose status is not 'pending', [process_event]
    returns the error result "Event already processed: <status>" and the
    world it returns is the one it was given: no event, rule or ActionLog
    row is created or changed. *)
Theorem process_event_guard {RE : ReEngine} {EXT : Externals}
    (w : World) (event_id : uuid) (row : Event) :
  fetch_event w event_id = Some row ->
  ev_status row <> "pending" ->
  process_event w event_id =
    (w, Ret [ ("error",
               PStr ("Event already processed: " ++ ev_status row)%string) ]).
Proof.
  intros Hf Hs. unfold process_event. rewrite Hf.
  apply String.eqb_neq in Hs. now rewrite Hs.
Qed.

Lemma process_event_guard_witness :
  @process_event literal_re working_ext processed_world 1 =
    (processed_world, Ret [ ("error", PStr "Event already processed: processed") ]).
Proof.
  apply (@process_event_guard literal_re working_ext processed_world 1
           (support_mail "processed")).
  - reflexivity.
  - discriminate.
Defined.

(** C7, as stated, fails: [route_event] is called outside any [try], so
    when the conditions of a rule raise, [process_event] raises before its
    first write and the event is left pending.  Here the mail is pending
    and well formed, and the rule evaluated first holds [from_contains: 5]. *)
Lemma pending_event_stays_pending :
  fetch_event broken_world 1 = Some (support_mail "pending")
  /\ @process_event literal_re working_ext broken_world 1
     = (broken_world, Raise (AttributeError "object has no attribute 'lower'"))
  /\ option_map ev_status
       (fetch_event (fst (@process_event literal_re working_ext broken_world 1)) 1)
     = Some "pending".
Proof. repeat split. Qed.

(** C7 (amended): on a pending event, when no rule matched [process_event]
    sets the status to 'unmatched', stamps routed_at and returns
    [{status: "unmatched", event_id}]; when a rule matched it records the
    rule and ends with status 'processed' exactly when the action result has
    a true [success], and 'failed' otherwise; so whenever routing returns,
    the status it leaves is one of the three terminal ones.  When routing
    raises, [process_event] raises the same exception, nothing is written
    and the event stays pending. *)
Theorem process_event_terminal {RE : ReEngine} {EXT : Externals}
    (w : World) (event_id : uuid) (row : Event) :
  fetch_event w event_id = Some row ->
  ev_status row = "pending" ->
  let done := process_event w event_id in
  (route_event w (event_dict row) = Ret None ->
     snd done = Ret [ ("status", PStr "unmatched");
                      ("event_id", PStr (uuid_str event_id)) ]
     /\ exists row',
          fetch_event (fst done) event_id = Some row' /\
          ev_status row' = "unmatched" /\
          ev_routed_at row' = Some (clock w) /\
          ev_matched_rule_id row' = ev_matched_rule_id row)
  /\ (forall rr : RouteResult,
        route_event w (event_dict row) = Ret (Some rr) ->
        exists (action_result : pydict) (row' : Event),
          snd done = Ret [ ("status", PStr (ev_status row'));
                           ("event_id", PStr (uuid_str event_id));
                           ("rule_id", PStr (uuid_str (rr_rule_id rr)));
                           ("action", PStr (rr_action rr));
                           ("action_result", PDict action_result) ]
          /\ fetch_event (fst done) event_id = Some row'
          /\ ev_status row' =
               (if truthy (dict_get action_result "success" PNone)
                then "processed" else "failed")
          /\ ev_matched_rule_id row' = Some (rr_rule_id rr)
          /\ ev_routed_at row' = Some (clock w))
  /\ (returns (route_event w (event_dict row)) ->
      exists row',
        fetch_event (fst done) event_id = Some row' /\
        In (ev_status row') [ "unmatched"; "processed"; "failed" ])
  /\ (forall e : exn,
        route_event w (event_dict row) = Raise e ->
        done = (w, Raise e) /\ fetch_event (fst done) event_id = Some row).
Proof.
  intros Hf Hs done.
  assert (Hnone : route_event w (event_dict row) = Ret None ->
     snd done = Ret [ ("status", PStr "unmatched");
                      ("event_id", PStr (uuid_str event_id)) ]
     /\ exists row',
          fetch_event (fst done) event_id = Some row' /\
          ev_status row' = "unmatched" /\
          ev_routed_at row' = Some (clock w) /\
          ev_matched_rule_id row' = ev_matched_rule_id row).
  { intros Hr. subst done. unfold process_event.
    rewrite Hf, Hs, Hr. simpl. split; [reflexivity |].
    rewrite fetch_update_event by reflexivity.
    unfold fetch_event in *. simpl. rewrite Hf. simpl. eauto. }
  assert (Hsome : forall rr : RouteResult,
        route_event w (event_dict row) = Ret (Some rr) ->
        exists (action_result : pydict) (row' : Event),
          snd done = Ret [ ("status", PStr (ev_status row'));
                           ("event_id", PStr (uuid_str event_id));
                           ("rule_id", PStr (uuid_str (rr_rule_id rr)));
                           ("action", PStr (rr_action rr));
                           ("action_result", PDict action_result) ]
          /\ fetch_event (fst done) event_id = Some row'
          /\ ev_status row' =
               (if truthy (dict_get action_result "success" PNone)
                then "processed" else "failed")
          /\ ev_matched_rule_id row' = Some (rr_rule_id rr)
          /\ ev_routed_at row' = Some (clock w)).
  { intros rr Hr. subst done. unfold process_event.
    rewrite Hf, Hs, Hr.
    change (negb ("pending" =? "pending")%string) with false.
    cbn [utcnow fst snd clock events rules actions inboxes inbox_members
         set_events set_rules update_event update_rule].
    match goal with |- context [execute_action ?w5 _ _ _ _ _] =>
      assert (Hf5 : fetch_event w5 event_id
                    = Some (with_routing rr (clock w) (S (clock w)) row))
        by (unfold fetch_event, update_rule; cbn [events set_rules];
            rewrite find_map_update by reflexivity;
            unfold fetch_event in Hf; now rewrite Hf);
      destruct (execute_action_fetch w5 event_id (rr_rule_id rr) (rr_action rr)
                  (rr_action_config rr) (event_dict row) Hf5) as [v Hf6];
      destruct (execute_action w5 event_id (rr_rule_id rr) (rr_action rr)
                  (rr_action_config rr) (event_dict row)) as [w6 action_result]
    end.
    cbn [fst snd] in *.
    exists action_result.
    eexists (with_status _ (clock w6)
               (with_route_result v (with_routing rr (clock w) (S (clock w)) row))).
    split; [reflexivity |].
    split; [| repeat split].
    rewrite fetch_update_event by reflexivity.
    unfold fetch_event in *. cbn [events]. rewrite Hf6. reflexivity. }
  split; [exact Hnone |]. split; [exact Hsome |]. split.
  - intros [[rr |] Hr].
    + destruct (Hsome rr Hr) as (ar & row' & _ & Hf' & Hst & _).
      exists row'. split; [exact Hf' |]. rewrite Hst.
      destruct (truthy _); simpl; auto.
    + destruct (Hnone Hr) as (_ & row' & Hf' & Hst & _).
      exists row'. split; [exact Hf' |]. rewrite Hst. simpl; auto.
  - intros e Hr.
    assert (Hd : done = (w, Raise e))
      by (subst done; unfold process_event; now rewrite Hf, Hs, Hr).
    split; [exact Hd |]. now rewrite Hd.
Qed.

Lemma process_event_terminal_witness :
  exists row',
    fetch_event (fst (@process_event literal_re working_ext support_world 1)) 1
    = Some row' /\
    In (ev_status row') [ "unmatched"; "processed"; "failed" ].
Proof.
  destruct (@process_event_terminal literal_re working_ext support_world 1
              (support_mail "pending") eq_refl eq_refl) as (_ & _ & H & _).
  apply H. eexists. reflexivity.
Defined.

(** Scenario A: the support mail is tagged and ends 'processed'. *)
Example process_event_scenario_a :
  option_map (fun e => (ev_status e, ev_matched_rule_id e))
    (fetch_event (fst (@process_event literal_re working_ext support_world 1)) 1)
  = Some ("processed", Some 2).
Proof. reflexivity. Qed.

(** ** Ingestion: the upsert (C6, C10) *)

Section Upsert.
Variables (source sid : string).

Lemma rows_of_conflicts (es : list Event) :
  rows_of source (Some sid) es = filter (conflicts source (Some sid)) es.
Proof.
  apply filter_ext. intros e. unfold conflicts.
  destruct (ev_source_id e); [| apply andb_false_r].
  now rewrite (String.eqb_sym sid).
Qed.

Lemma hit_key (e : Event) :
  conflicts source (Some sid) e = true <-> ev_source e = source /\ ev_source_id e = Some sid.
Proof.
  unfold conflicts. destruct (ev_source_id e) as [s |].
  - rewrite andb_true_iff, !String.eqb_eq. split; intros [? ?]; split; congruence.
  - split; [discriminate | intros [_ ?]; discriminate].
Qed.

Lemma hit_in_index (es : list Event) (e : Event) :
  In e es -> conflicts source (Some sid) e = true -> In (source, sid) (index_keys es).
Proof.
  intros Hin Hh. apply hit_key in Hh. destruct Hh as [Hs Hi].
  unfold index_keys. apply in_flat_map. exists e. split; [exact Hin |].
  rewrite Hi, Hs. now left.
Qed.

Lemma no_key_no_row (es : list Event) :
  ~ In (source, sid) (index_keys es) -> filter (conflicts source (Some sid)) es = [].
Proof.
  intros Hn. induction es as [| e es IH]; simpl; [reflexivity |].
  destruct (conflicts source (Some sid) e) eqn:E.
  - exfalso. apply Hn. eapply hit_in_index; [now left | exact E].
  - apply IH. intros Hin. apply Hn. unfold index_keys in *. simpl.
    apply in_or_app. now right.
Qed.

Lemma unique_index_one_row (es : list Event) :
  NoDup (index_keys es) -> List.length (filter (conflicts source (Some sid)) es) <= 1.
Proof.
  induction es as [| e es IH]; simpl; [lia |].
  intros Hnd. destruct (conflicts source (Some sid) e) eqn:E.
  - apply hit_key in E. destruct E as [Hs Hi].
    unfold index_keys in Hnd. simpl in Hnd. rewrite Hi, Hs in Hnd. simpl in Hnd.
    apply NoDup_cons_iff in Hnd. destruct Hnd as [Hn _].
    fold (index_keys es) in Hn. rewrite (no_key_no_row _ Hn). simpl. lia.
  - apply IH. unfold index_keys in Hnd. simpl in Hnd.
    now apply NoDup_app_remove_l in Hnd.
Qed.

Lemma find_none_no_key (es : list Event) :
  find (conflicts source (Some sid)) es = None -> ~ In (source, sid) (index_keys es).
Proof.
  intros Hf Hin. unfold index_keys in Hin. apply in_flat_map in Hin.
  destruct Hin as (e & He & Hk).
  pose proof (find_none _ _ Hf e He) as Hh.
  destruct (ev_source_id e) as [s |] eqn:Hi; simpl in Hk; [| contradiction].
  destruct Hk as [Hk | []]. injection Hk as Hs ->.
  assert (conflicts source (Some sid) e = true) by (apply hit_key; auto). congruence.
Qed.

Variables (payload : pyval) (now : timestamp).

Lemma hit_upsert (e : Event) :
  conflicts source (Some sid) (upsert_row source (Some sid) payload now e)
  = conflicts source (Some sid) e.
Proof. unfold upsert_row. destruct (conflicts source (Some sid) e) eqn:E; [| exact E]. exact E. Qed.

Lemma index_keys_upsert (es : list Event) :
  index_keys (map (upsert_row source (Some sid) payload now) es) = index_keys es.
Proof.
  unfold index_keys. induction es as [| e es IH]; simpl; [reflexivity |].
  rewrite IH. f_equal. unfold upsert_row. now destruct (conflicts source (Some sid) e).
Qed.

Lemma filter_hit_upsert (es : list Event) :
  filter (conflicts source (Some sid))
         (map (upsert_row source (Some sid) payload now) es)
  = map (with_payload payload now) (filter (conflicts source (Some sid)) es).
Proof.
  induction es as [| e es IH]; simpl; [reflexivity |].
  rewrite hit_upsert. destruct (conflicts source (Some sid) e) eqn:E; [| exact IH].
  simpl. rewrite IH. unfold upsert_row. now rewrite E.
Qed.

Lemma find_hit_upsert (es : list Event) :
  find (conflicts source (Some sid))
       (map (upsert_row source (Some sid) payload now) es)
  = option_map (with_payload payload now) (find (conflicts source (Some sid)) es).
Proof.
  induction es as [| e es IH]; simpl; [reflexivity |].
  rewrite hit_upsert. destruct (conflicts source (Some sid) e) eqn:E; [| exact IH].
  simpl. unfold upsert_row. now rewrite E.
Qed.

Lemma upsert_frame (es : list Event) :
  Forall2 (fun old new => same_but_payload old new /\ (conflicts source (Some sid) old = false -> new = old))
          es (map (upsert_row source (Some sid) payload now) es).
Proof.
  induction es as [| e es IH]; simpl; constructor; [| exact IH].
  unfold upsert_row. destruct (conflicts source (Some sid) e); split; try discriminate; try reflexivity;
    unfold same_but_payload; simpl; tauto.
Qed.

End Upsert.

Lemma find_app_none {A : Type} (f : A -> bool) (l l' : list A) :
  find f l = None -> find f (l ++ l') = find f l'.
Proof.
  induction l as [| a l IH]; simpl; [reflexivity |].
  destruct (f a); [discriminate | exact IH].
Qed.

Lemma create_event_hit (w : World) (source : string) (source_id : option string)
    (event_type : string) (payload : pyval)
    (email_from email_to email_subject email_body : option string)
    (email_date : option timestamp) (owner_id : option uuid) (old : Event) :
  find (conflicts source source_id) (events w) = Some old ->
  create_event w source source_id event_type payload email_from email_to
    email_subject email_body email_date owner_id
  = (set_events (snd (utcnow w))
       (map (upsert_row source source_id payload (clock w)) (events w)),
     with_payload payload (clock w) old).
Proof. intros Hf. unfold create_event. simpl. now rewrite Hf. Qed.

Lemma create_event_miss (w : World) (source : string) (source_id : option string)
    (event_type : string) (payload : pyval)
    (email_from email_to email_subject email_body : option string)
    (email_date : option timestamp) (owner_id : option uuid) :
  find (conflicts source source_id) (events w) = None ->
  exists row,
    create_event w source source_id event_type payload email_from email_to
      email_subject email_body email_date owner_id
    = (set_events (snd (utcnow w)) (events w ++ [row]), row)
    /\ ev_source row = source /\ ev_source_id row = source_id
    /\ ev_payload row = payload /\ ev_status row = "pending"
    /\ ev_updated_at row = clock w.
Proof.
  intros Hf. unfold create_event. simpl. rewrite Hf.
  eexists. split; [reflexivity |]. simpl. auto.
Qed.

(** After an ingestion under a key, the index is still respected and the
    row the call returned is the one stored under the key. *)
Lemma create_event_stores (w : World) (source sid event_type : string)
    (payload : pyval)
    (email_from email_to email_subject email_body : option string)
    (email_date : option timestamp) (owner_id : option uuid) :
  unique_index w ->
  let done :=
    create_event w source (Some sid) event_type payload email_from email_to
      email_subject email_body email_date owner_id in
  unique_index (fst done)
  /\ find (conflicts source (Some sid)) (events (fst done)) = Some (snd done)
  /\ clock (fst done) = S (clock w).
Proof.
  intros Hu done. subst done.
  destruct (find (conflicts source (Some sid)) (events w)) as [old |] eqn:Hf.
  - rewrite (@create_event_hit _ _ _ _ _ _ _ _ _ _ _ _ Hf). simpl.
    unfold unique_index. simpl.
    rewrite (index_keys_upsert source sid payload (clock w)).
    rewrite (find_hit_upsert source sid payload (clock w)), Hf. auto.
  - destruct (@create_event_miss w source (Some sid) event_type payload email_from
                email_to email_subject email_body email_date owner_id Hf)
      as (row & -> & Hs & Hi & _).
    simpl. unfold unique_index. simpl. repeat split.
    + unfold index_keys. rewrite flat_map_app. simpl. rewrite Hi, Hs. simpl.
      apply NoDup_app; [exact Hu | repeat constructor; auto | ].
      intros k Hk [<- | []]. revert Hk. now apply find_none_no_key.
    + rewrite (find_app_none _ _ _ Hf). simpl.
      assert (H : conflicts source (Some sid) row = true)
        by (apply hit_key; auto).
      now rewrite H.
Qed.

(** C6, as stated, fails when [source_id] is None, which the signature
    allows: NULL never conflicts in the unique index, so each call inserts
    a row. *)
Lemma create_event_twice_without_source_id :
  let first :=
    create_event (world_of [] []) "manual" None "test" (PDict [])
      None None None None None None in
  let second :=
    create_event (fst first) "manual" None "test" (PDict [])
      None None None None None None in
  List.length (rows_of "manual" None (events (fst second))) = 2.
Proof. reflexivity. Qed.

(** C6 (amended): for a [source_id] that is not None, two calls of
    [create_event] with the same (source, source_id) leave exactly one row
    for that pair; the second call inserts nothing and updates that row,
    whose payload is the second call's and whose updated_at is the time of
    the second call. *)
Theorem create_event_idempotent (w : World) (source sid : string)
    (event_type1 event_type2 : string) (payload1 payload2 : pyval)
    (from1 to1 subject1 body1 from2 to2 subject2 body2 : option string)
    (date1 date2 : option timestamp) (owner1 owner2 : option uuid) :
  unique_index w ->
  let first :=
    create_event w source (Some sid) event_type1 payload1
      from1 to1 subject1 body1 date1 owner1 in
  let second :=
    create_event (fst first) source (Some sid) event_type2 payload2
      from2 to2 subject2 body2 date2 owner2 in
  List.length (rows_of source (Some sid) (events (fst second))) = 1
  /\ List.length (events (fst second)) = List.length (events (fst first))
  /\ map ev_id (events (fst second)) = map ev_id (events (fst first))
  /\ (forall e, In e (rows_of source (Some sid) (events (fst second))) ->
                ev_payload e = payload2 /\
                ev_updated_at e = clock (fst first))
  /\ snd second = with_payload payload2 (clock (fst first)) (snd first)
  /\ clock w < clock (fst first)
  /\ unique_index (fst second).
Proof.
  intros Hu first second.
  destruct (create_event_stores source sid event_type1 payload1 from1 to1
              subject1 body1 date1 owner1 Hu) as (Hu1 & Hf1 & Hc1).
  fold first in Hu1, Hf1, Hc1.
  subst second.
  rewrite (@create_event_hit _ _ _ _ _ _ _ _ _ _ _ _ Hf1).
  cbn [fst snd events set_events].
  rewrite !rows_of_conflicts.
  rewrite (filter_hit_upsert source sid payload2 (clock (fst first))).
  repeat split.
  - rewrite length_map.
    pose proof (unique_index_one_row source sid _ Hu1) as Hle.
    apply find_some in Hf1. destruct Hf1 as [Hin Hh].
    assert (Hin' : In (snd first) (filter (conflicts source (Some sid))
                                          (events (fst first))))
      by (apply filter_In; auto).
    destruct (filter (conflicts source (Some sid)) (events (fst first)));
      simpl in *; [contradiction | lia].
  - now rewrite length_map.
  - rewrite map_map. apply map_ext. intros e. unfold upsert_row.
    now destruct (conflicts source (Some sid) e).
  - apply in_map_iff in H. destruct H as (e0 & <- & _). reflexivity.
  - apply in_map_iff in H. destruct H as (e0 & <- & _). reflexivity.
  - lia.
  - unfold unique_index. cbn [events set_events].
    now rewrite (index_keys_upsert source sid payload2 (clock (fst first))).
Qed.

Lemma create_event_idempotent_witness :
  let first :=
    create_event (world_of [] []) "resend" (Some "msg-1") "email.received"
      (PDict [ ("subject", PStr "v1") ]) None None None None None None in
  let second :=
    create_event (fst first) "resend" (Some "msg-1") "email.received"
      (PDict [ ("subject", PStr "v2") ]) None None None None None None in
  List.length (rows_of "resend" (Some "msg-1") (events (fst second))) = 1.
Proof.
  refine (proj1 (@create_event_idempotent (world_of [] []) "resend" "msg-1"
                   "email.received" "email.received"
                   (PDict [ ("subject", PStr "v1") ])
                   (PDict [ ("subject", PStr "v2") ])
                   None None None None None None None None None None None None _)).
  constructor.
Defined.

(** C10: when [create_event] meets an existing row for (source, source_id),
    the row it returns and stores differs from the old one in payload and
    updated_at only: email_from, email_to, email_subject, email_body,
    email_date, event_type, owner_id, status, matched_rule_id and
    route_result (and id, source, source_id, routed_at, created_at) keep
    their values, whatever the arguments of the call; every other event,
    every rule and every ActionLog row is untouched. *)
Theorem create_event_upsert_frame (w : World) (source : string)
    (source_id : option string) (event_type : string) (payload : pyval)
    (email_from email_to email_subject email_body : option string)
    (email_date : option timestamp) (owner_id : option uuid) (old : Event) :
  find (conflicts source source_id) (events w) = Some old ->
  let done :=
    create_event w source source_id event_type payload email_from email_to
      email_subject email_body email_date owner_id in
  same_but_payload old (snd done)
  /\ ev_payload (snd done) = payload
  /\ ev_updated_at (snd done) = clock w
  /\ Forall2 (fun before after =>
                same_but_payload before after /\
                (conflicts source source_id before = false -> after = before))
             (events w) (events (fst done))
  /\ rules (fst done) = rules w
  /\ actions (fst done) = actions w.
Proof.
  intros Hf done. subst done.
  rewrite (@create_event_hit _ _ _ _ _ _ _ _ _ _ _ _ Hf). simpl.
  split; [unfold same_but_payload; simpl; tauto |].
  repeat split.
  destruct source_id as [sid |].
  - apply (upsert_frame source sid payload (clock w)).
  - apply find_some in Hf. destruct Hf as [_ Hf]. discriminate Hf.
Qed.

Lemma create_event_upsert_frame_witness :
  ev_status
    (snd (create_event processed_world "resend" (Some "msg-1") "email.bounced"
            (PDict [ ("retry", PBool true) ])
            (Some "other@y.com") None (Some "Changed") None None (Some 9)))
  = "processed".
Proof.
  destruct (@create_event_upsert_frame processed_world "resend" (Some "msg-1")
              "email.bounced" (PDict [ ("retry", PBool true) ])
              (Some "other@y.com") None (Some "Changed") None None (Some 9)
              (support_mail "processed") eq_refl) as (Hsame & _).
  unfold same_but_payload in Hsame.
  destruct Hsame as (_ & _ & _ & _ & _ & _ & _ & _ & _ & Hst & _).
  exact Hst.
Defined.

(** ** Periodic sync loop: the backoff (C4) *)

Lemma sleeps_app (a b : list ctx_call) : sleeps (a ++ b) = sleeps a ++ sleeps b.
Proof. unfold sleeps. apply flat_map_app. Qed.

(** A run of [n] failing syncs from any state: the k-th of them sleeps
    base * 2^(errors so far + k), capped. *)
Lemma resend_scheduler_failures (params : SchedulerParams) (n : nat) :
  forall st : LoopState,
    let run := resend_scheduler_from params st (repeat sync_error n) in
    consecutive_errors (fst run) = (consecutive_errors st + Z.of_nat n)%Z
    /\ sleeps (snd run) =
       map (fun k => Z.min (base_interval params *
                            2 ^ (consecutive_errors st + Z.of_nat k))
                           (max_interval params))
           (seq 1 n).
Proof.
  induction n as [| n IH]; intros st; simpl.
  - split; [lia | reflexivity].
  - specialize (IH {| iteration := S (iteration st);
                      consecutive_errors := (consecutive_errors st + 1)%Z |}).
    destruct (resend_scheduler_from params _ (repeat sync_error n))
      as [st2 calls] eqn:E.
    simpl in IH. destruct IH as [IH1 IH2]. simpl. split; [lia |].
    f_equal. rewrite IH2, <- (seq_shift n 1), map_map.
    apply map_ext. intros k. do 3 f_equal. lia.
Qed.

(** C4, as stated, fails: the loop increments [consecutive_errors] before it
    computes the backoff, so the first failing iteration (no error so far)
    sleeps 60 * 2^1 = 120 seconds, not min(60 * 2^0, 3600) = 60. *)
Lemma first_failure_sleeps_twice_the_base :
  let params := {| interval_seconds := Some 60%Z;
                   max_interval_seconds := Some 3600%Z |} in
  let st := {| iteration := 0; consecutive_errors := 0%Z |} in
  sleeps (snd (resend_scheduler_iteration params st sync_error)) = [ 120%Z ]
  /\ Z.min (60 * 2 ^ consecutive_errors st) 3600 = 60%Z.
Proof. split; reflexivity. Qed.

(** C4 (amended): a failing iteration first increments
    [consecutive_errors] and then sleeps
    min(base_interval * 2^consecutive_errors, max_interval), computed with
    the incremented count; a successful iteration resets
    [consecutive_errors] to 0 and sleeps base_interval; each iteration
    sleeps once.  So the n-th failure in a row sleeps
    min(base * 2^n, max), and with base_interval = 60 and
    max_interval = 3600 the second failure in a row sleeps 240 seconds. *)
Theorem resend_scheduler_backoff (params : SchedulerParams) (st : LoopState)
    (result : pydict) :
  let next := resend_scheduler_iteration params st result in
  iteration (fst next) = S (iteration st)
  /\ (truthy (dict_get result "error" PNone) = true ->
      consecutive_errors (fst next) = (consecutive_errors st + 1)%Z /\
      sleeps (snd next) =
        [ Z.min (base_interval params * 2 ^ consecutive_errors (fst next))
                (max_interval params) ])
  /\ (truthy (dict_get result "error" PNone) = false ->
      consecutive_errors (fst next) = 0%Z /\
      sleeps (snd next) = [ base_interval params ])
  /\ (forall n : nat,
        let run := resend_scheduler params (repeat sync_error n) in
        consecutive_errors (fst run) = Z.of_nat n /\
        sleeps (snd run) =
          map (fun k => Z.min (base_interval params * 2 ^ Z.of_nat k)
                              (max_interval params))
              (seq 1 n))
  /\ sleeps (snd (resend_scheduler
                    {| interval_seconds := Some 60%Z;
                       max_interval_seconds := Some 3600%Z |}
                    [ sync_error; sync_error ]))
     = [ 120%Z; 240%Z ].
Proof.
  intros next. subst next. unfold resend_scheduler_iteration.
  destruct (truthy (dict_get result "error" PNone)); simpl;
    (split; [reflexivity |]);
    (split; [intros H; try discriminate H; split; reflexivity |]);
    (split; [intros H; try discriminate H; split; reflexivity |]);
    (split; [| reflexivity]);
    intros n; apply (resend_scheduler_failures params n
                       {| iteration := 0; consecutive_errors := 0%Z |}).
Qed.

Lemma resend_scheduler_backoff_witness :
  sleeps (snd (resend_scheduler_iteration
                 {| interval_seconds := Some 60%Z;
                    max_interval_seconds := Some 3600%Z |}
                 {| iteration := 1; consecutive_errors := 1%Z |} sync_error))
  = [ 240%Z ].
Proof.
  destruct (resend_scheduler_backoff
              {| interval_seconds := Some 60%Z;
                 max_interval_seconds := Some 3600%Z |}
              {| iteration := 1; consecutive_errors := 1%Z |} sync_error)
    as (_ & Hfail & _).
  destruct (Hfail eq_refl) as [_ Hsleep]. exact Hsleep.
Defined.

(** ** Scheduler management: disabled, already running, spawned (C9) *)

Lemma assoc_get_set {V : Type} (d : list (string * V)) (k k' : string) (v : V) :
  assoc_get (assoc_set d k v) k' =
  if String.eqb k k' then Some v else assoc_get d k'.
Proof.
  induction d as [| [k0 v0] d IH]; simpl.
  - reflexivity.
  - destruct (String.eqb k0 k) eqn:E; simpl.
    + apply String.eqb_eq in E. subst k0.
      destruct (String.eqb k k'); reflexivity.
    + destruct (String.eqb k0 k') eqn:E'; [| exact IH].
      apply String.eqb_eq in E'. subst k0. now rewrite String.eqb_sym, E.
Qed.

Lemma running_rows_in (rows : list Task) :
  forall (acc : list (string * Task)) (k : string) (r : Task),
    assoc_get (fold_left (fun running row => assoc_set running (task_name row) row)
                         rows acc) k = Some r ->
    (In r rows /\ task_name r = k) \/ assoc_get acc k = Some r.
Proof.
  induction rows as [| row rows IH]; intros acc k r H; simpl in *; [now right |].
  apply IH in H. destruct H as [[Hin Hk] | H]; [left; auto |].
  rewrite assoc_get_set in H. destruct (String.eqb (task_name row) k) eqn:E.
  - injection H as <-. apply String.eqb_eq in E. left; auto.
  - now right.
Qed.

Lemma running_rows_some (rows : list Task) :
  forall (acc : list (string * Task)) (k : string),
    (exists r, In r rows /\ task_name r = k) \/ (exists r, assoc_get acc k = Some r) ->
    exists r, assoc_get (fold_left (fun running row =>
                                      assoc_set running (task_name row) row)
                                   rows acc) k = Some r.
Proof.
  induction rows as [| row rows IH]; intros acc k H; simpl.
  - destruct H as [(r & [] & _) | H]; exact H.
  - apply IH. destruct H as [(r & [<- | Hin] & Hk) | (r & Hr)].
    + right. exists row. rewrite assoc_get_set, Hk, String.eqb_refl. reflexivity.
    + left. eauto.
    + right. rewrite assoc_get_set.
      destruct (String.eqb (task_name row) k); eauto.
Qed.

Lemma active_schedulers_in (rows : list Task) (t : Task) :
  In t (active_schedulers rows) <->
  In t rows /\ ends_with ".scheduler" (task_name t) = true /\ is_active t = true.
Proof.
  unfold active_schedulers. rewrite filter_In, andb_true_iff. tauto.
Qed.

(** The queues [get_running_schedulers] gets to read. *)
Lemma scanned_cases (db : QueueDB) (queue : string) :
  scanned db queue <->
  (queue = "default"
   \/ (queue = "obsidian" /\ assoc_get db "default" <> None)
   \/ (queue = "email" /\ assoc_get db "default" <> None /\
       assoc_get db "obsidian" <> None)).
Proof.
  unfold scanned. split.
  - intros (before & after & E & Hb).
    destruct before as [| q1 [| q2 [| q3 before]]]; cbn [app] in E.
    + injection E as <- _. now left.
    + injection E as <- <- _. right. left. split; [reflexivity |].
      apply Hb. now left.
    + injection E as <- <- <- _. right. right. split; [reflexivity |].
      split; apply Hb; cbn; auto.
    + injection E as _ _ _ E. destruct before; discriminate E.
  - intros [-> | [[-> Hd] | (-> & Hd & Ho)]].
    + exists [], [ "obsidian"; "email" ]. split; [reflexivity |]. intros q [].
    + exists [ "default" ], [ "email" ]. split; [reflexivity |].
      intros q [<- | []]. exact Hd.
    + exists [ "default"; "obsidian" ], []. split; [reflexivity |].
      intros q [<- | [<- | []]]; assumption.
Qed.

(** The rows one SELECT adds to the dict. *)
Lemma get_running_schedulers_eq (db : QueueDB) :
  let add rows acc :=
    fold_left (fun running row => assoc_set running (task_name row) row)
              (active_schedulers rows) acc in
  get_running_schedulers db =
    match assoc_get db "default" with
    | None => []
    | Some r1 =>
        match assoc_get db "obsidian" with
        | None => add r1 []
        | Some r2 =>
            match assoc_get db "email" with
            | None => add r2 (add r1 [])
            | Some r3 => add r3 (add r2 (add r1 []))
            end
        end
    end.
Proof.
  unfold get_running_schedulers. cbn [fold_left]. unfold scan_queue.
  cbn [aborted running].
  destruct (assoc_get db "default"); cbn [aborted running]; [| reflexivity].
  destruct (assoc_get db "obsidian"); cbn [aborted running]; [| reflexivity].
  destruct (assoc_get db "email"); reflexivity.
Qed.

(** What [get_running_schedulers] reports is exactly what [seen_running]
    describes. *)
Lemma get_running_schedulers_spec (db : QueueDB) (name : string) :
  (exists row, assoc_get (get_running_schedulers db) name = Some row) <->
  seen_running db name.
Proof.
  rewrite get_running_schedulers_eq. unfold seen_running.
  destruct (assoc_get db "default") as [r1 |] eqn:D.
  2: { split; [intros [row H]; discriminate H |].
       intros (queue & rows & t & Hsc & Hq & _).
       apply scanned_cases in Hsc. rewrite D in Hsc.
       destruct Hsc as [-> | [[_ H] | (_ & H & _)]]; congruence. }
  destruct (assoc_get db "obsidian") as [r2 |] eqn:O.
  2: { split.
       - intros [row H]. apply running_rows_in in H.
         destruct H as [[Hin Hk] | H]; [| discriminate H].
         apply active_schedulers_in in Hin. destruct Hin as (Hin & He & Ha).
         exists "default", r1, row. rewrite <- Hk.
         split; [apply scanned_cases; now left | auto].
       - intros (queue & rows & t & Hsc & Hq & Hin & Hk & He & Ha).
         apply scanned_cases in Hsc. rewrite O in Hsc.
         destruct Hsc as [-> | [[-> _] | (_ & _ & H)]]; try congruence.
         apply running_rows_some. left. exists t.
         split; [| exact Hk]. apply active_schedulers_in.
         rewrite Hk. assert (rows = r1) by congruence. subst. auto. }
  destruct (assoc_get db "email") as [r3 |] eqn:E.
  - split.
    + intros [row H]. apply running_rows_in in H.
      destruct H as [[Hin Hk] | H].
      { apply active_schedulers_in in Hin. destruct Hin as (Hin & He & Ha).
        exists "email", r3, row. rewrite <- Hk.
        split; [apply scanned_cases; right; right; rewrite D, O;
                repeat split; discriminate | auto]. }
      apply running_rows_in in H. destruct H as [[Hin Hk] | H].
      { apply active_schedulers_in in Hin. destruct Hin as (Hin & He & Ha).
        exists "obsidian", r2, row. rewrite <- Hk.
        split; [apply scanned_cases; right; left; rewrite D;
                split; [reflexivity | discriminate] | auto]. }
      apply running_rows_in in H. destruct H as [[Hin Hk] | H]; [| discriminate H].
      apply active_schedulers_in in Hin. destruct Hin as (Hin & He & Ha).
      exists "default", r1, row. rewrite <- Hk.
      split; [apply scanned_cases; now left | auto].
    + intros (queue & rows & t & Hsc & Hq & Hin & Hk & He & Ha).
      assert (Hact : In t (active_schedulers rows))
        by (apply active_schedulers_in; rewrite Hk; auto).
      apply scanned_cases in Hsc.
      destruct Hsc as [-> | [[-> _] | (-> & _ & _)]].
      * assert (rows = r1) by congruence. subst.
        apply running_rows_some. right. apply running_rows_some. right.
        apply running_rows_some. left. eauto.
      * assert (rows = r2) by congruence. subst.
        apply running_rows_some. right. apply running_rows_some. left. eauto.
      * assert (rows = r3) by congruence. subst.
        apply running_rows_some. left. eauto.
  - split.
    + intros [row H]. apply running_rows_in in H. destruct H as [[Hin Hk] | H].
      { apply active_schedulers_in in Hin. destruct Hin as (Hin & He & Ha).
        exists "obsidian", r2, row. rewrite <- Hk.
        split; [apply scanned_cases; right; left; rewrite D;
                split; [reflexivity | discriminate] | auto]. }
      apply running_rows_in in H. destruct H as [[Hin Hk] | H]; [| discriminate H].
      apply active_schedulers_in in Hin. destruct Hin as (Hin & He & Ha).
      exists "default", r1, row. rewrite <- Hk.
      split; [apply scanned_cases; now left | auto].
    + intros (queue & rows & t & Hsc & Hq & Hin & Hk & He & Ha).
      assert (Hact : In t (active_schedulers rows))
        by (apply active_schedulers_in; rewrite Hk; auto).
      apply scanned_cases in Hsc.
      destruct Hsc as [-> | [[-> _] | (-> & _ & _)]]; [| | congruence].
      * assert (rows = r1) by congruence. subst.
        apply running_rows_some. right. apply running_rows_some. left. eauto.
      * assert (rows = r2) by congruence. subst.
        apply running_rows_some. left. eauto.
Qed.

Lemma get_running_schedulers_row (db : QueueDB) (name : string) (row : Task) :
  assoc_get (get_running_schedulers db) name = Some row ->
  task_name row = name /\ is_active row = true.
Proof.
  rewrite get_running_schedulers_eq.
  destruct (assoc_get db "default");
    [destruct (assoc_get db "obsidian");
     [destruct (assoc_get db "email") |] |];
    intros H;
    repeat (apply running_rows_in in H;
            destruct H as [[Hin Hk] | H];
            [apply active_schedulers_in in Hin; tauto |]);
    discriminate H.
Qed.




(** * Further properties of the code *)

(** ** Matcher: the conjunction and the text comparisons *)

Lemma prefix_app (a s : string) :
  String.prefix a s = true <-> exists post, s = (a ++ post)%string.
Proof.
  revert s. induction a as [| c a IH]; intros s.
  - destruct s; simpl; split; eauto.
  - destruct s as [| d s]; simpl.
    + split; [discriminate | intros [post H]; discriminate].
    + destruct (ascii_dec c d) as [-> | Hn].
      * rewrite IH. split; intros [post H]; exists post; congruence.
      * split; [discriminate | intros [post H]; congruence].
Qed.

Lemma is_substring_app (sub s : string) :
  is_substring sub s = true <->
  exists pre post, s = (pre ++ sub ++ post)%string.
Proof.
  induction s as [| c s IH]; cbn [is_substring]; rewrite orb_true_iff.
  - rewrite prefix_app. split.
    + intros [[post H] | H]; [| discriminate]. exists "", post. exact H.
    + intros (pre & post & H). left. destruct pre; [| discriminate].
      exists post. exact H.
  - rewrite prefix_app, IH. split.
    + intros [[post H] | (pre & post & H)].
      * exists "", post. exact H.
      * exists (String c pre), post. simpl. now rewrite H.
    + intros (pre & post & H). destruct pre as [| d pre]; simpl in H.
      * left. eauto.
      * right. injection H as _ H. eauto.
Qed.

Section MatcherLaws.
Context {RE : ReEngine}.

(** X1: [matches_conditions] is the conjunction of its entries: it returns
    True exactly when every entry of the conditions map evaluates to True
    (so a rule with no condition matches every event). *)
Theorem matches_conditions_all (event conditions : pydict) :
  matches_conditions event conditions = Ret true <->
  Forall (fun c => _check_condition event (fst c) (snd c) = Ret true) conditions.
Proof.
  induction conditions as [| [k v] rest IH]; simpl.
  - split; auto.
  - destruct (_check_condition event k v) as [[|] | e] eqn:E; simpl.
    + rewrite IH. split; [intros H; now constructor | intros H; now inversion H].
    + split; [discriminate | intros H; inversion H; simpl in *; congruence].
    + split; [discriminate | intros H; inversion H; simpl in *; congruence].
Qed.

(** X2: the loop stops at the first failing entry: [matches_conditions]
    returns False exactly when some entry evaluates to False after entries
    that all evaluate to True; the entries behind it are not evaluated, so
    one that would raise cannot. *)
Theorem matches_conditions_short_circuit (event conditions : pydict) :
  matches_conditions event conditions = Ret false <->
  exists before c after,
    conditions = before ++ c :: after /\
    Forall (fun c' => _check_condition event (fst c') (snd c') = Ret true) before /\
    _check_condition event (fst c) (snd c) = Ret false.
Proof.
  induction conditions as [| [k v] rest IH]; simpl.
  - split; [discriminate |].
    intros (before & c & after & E & _). destruct before; discriminate.
  - destruct (_check_condition event k v) as [[|] | e] eqn:E; simpl.
    + rewrite IH. split.
      * intros (before & c & after & -> & Hb & Hc).
        exists ((k, v) :: before), c, after. auto.
      * intros (before & c & after & H & Hb & Hc).
        destruct before as [| b before]; simpl in H; injection H as <- ->.
        -- simpl in Hc. congruence.
        -- inversion Hb; subst. exists before, c, after. auto.
    + split; [intros _ | reflexivity].
      exists [], (k, v), rest. auto.
    + split; [discriminate |].
      intros (before & c & after & H & Hb & Hc).
      destruct before as [| b before]; simpl in H; injection H as <- ->.
      * simpl in Hc. congruence.
      * inversion Hb; subst. simpl in *. congruence.
Qed.

(** X3: on two strings [_equals] is equality of the lowercase forms, the
    empty string included; [_contains] is True exactly when the substring
    is not empty and its lowercase form occurs in the lowercase text; an
    equal non-empty pair also contains. *)
Theorem text_comparisons_on_strings (t s : string) :
  _equals (PStr t) (PStr s) = Ret (String.eqb (lower t) (lower s))
  /\ (_contains (PStr t) (PStr s) = Ret true <->
      s <> "" /\ exists pre post, lower t = (pre ++ lower s ++ post)%string)
  /\ (s <> "" -> _equals (PStr t) (PStr s) = Ret true ->
      _contains (PStr t) (PStr s) = Ret true).
Proof.
  assert (Hc : _contains (PStr t) (PStr s) = Ret true <->
      s <> "" /\ exists pre post, lower t = (pre ++ lower s ++ post)%string).
  { unfold _contains. simpl.
    destruct (String.eqb_spec t ""); destruct (String.eqb_spec s ""); simpl; subst.
    - split; [discriminate | intros [H _]; now elim H].
    - split; [discriminate |]. intros (_ & pre & post & H).
      destruct pre; simpl in H; [| discriminate].
      destruct s; [now elim n | discriminate].
    - split; [discriminate | intros [H _]; now elim H].
    - rewrite <- is_substring_app. split.
      + intros H. injection H as H. auto.
      + intros [_ H]. now rewrite H. }
  assert (He : _equals (PStr t) (PStr s) = Ret (String.eqb (lower t) (lower s))).
  { unfold _equals. simpl.
    destruct (String.eqb_spec t ""); destruct (String.eqb_spec s ""); simpl; subst;
      try reflexivity.
    - rewrite !eqb_empty_l, lower_is_empty. reflexivity.
    - now rewrite lower_is_empty. }
  split; [exact He |]. split; [exact Hc |].
  intros Hs H. rewrite He in H. injection H as H. apply String.eqb_eq in H.
  apply Hc. split; [exact Hs |]. exists "", "". rewrite H. simpl.
  clear. induction (lower s); simpl; congruence.
Qed.

(** X4: a text condition on a field that is missing, None or empty never
    matches by containment or pattern, whatever the condition value is (a
    value that is not a string included), and it does not raise. *)
Theorem absent_field_never_contains (event : pydict) (k field : string) (v : pyval) :
  text_field k = Some field ->
  truthy (dict_get event field (PStr "")) = false ->
  In k [ "from_contains"; "to_contains"; "subject_contains";
         "subject_matches"; "body_contains" ] ->
  _check_condition event k v = Ret false.
Proof.
  intros Hf Ht Hk. simpl in Hk.
  destruct Hk as [<- | [<- | [<- | [<- | [<- | []]]]]];
    injection Hf as <-; unfold _check_condition; simpl;
    unfold _contains, _regex_match; now rewrite Ht.
Qed.

End MatcherLaws.

Lemma text_comparisons_on_strings_witness :
  _contains (PStr "Support@X.com") (PStr "support@x.COM") = Ret true.
Proof.
  destruct (text_comparisons_on_strings "Support@X.com" "support@x.COM")
    as (_ & _ & H).
  apply H; [discriminate | reflexivity].
Defined.

Lemma absent_field_never_contains_witness :
  @_check_condition literal_re [ ("email_subject", PStr "Hi") ]
    "body_contains" (PInt 5) = Ret false.
Proof.
  apply (@absent_field_never_contains literal_re [ ("email_subject", PStr "Hi") ]
           "body_contains" "email_body" (PInt 5)).
  - reflexivity.
  - reflexivity.
  - simpl. auto 10.
Defined.

(** ** Processing: what [process_event] touches *)

Lemma with_route_result_same (e : Event) :
  with_route_result (ev_route_result e) e = e.
Proof. now destruct e. Qed.

Section ProcessingLaws.
Context {RE : ReEngine} {EXT : Externals}.

Lemma execute_action_frame (w : World) (event_id rule_id : uuid)
    (action : string) (config : pyval) (event : pydict) :
  let w' := fst (execute_action w event_id rule_id action config event) in
  rules w' = rules w /\ clock w' = S (S (clock w)) /\
  exists v, events w' =
            map (fun e => if ev_id e =? event_id
                          then with_route_result (v e) e else e) (events w).
Proof.
  unfold execute_action, _log_action_start. simpl.
  match goal with |- context [dispatch_action ?w1 _ _ _ _] =>
    pose proof (dispatch_action_frame w1 event_id action config event) as F;
    destruct (dispatch_action w1 event_id action config event) as [w2 [result | e]]
  end; simpl in F; destruct F as (_ & Fr & Fc & Fe);
    unfold _log_action_complete, update_action; simpl;
    (split; [exact Fr |]); (split; [now rewrite Fc |]);
    (destruct Fe as [-> | [v ->]];
     [ exists ev_route_result; rewrite <- (map_id (events w)) at 1;
       apply map_ext; intros a; rewrite with_route_result_same;
       now destruct (ev_id a =? event_id)
     | exists v; reflexivity ]).
Qed.

Lemma process_event_unmatched_eq (w : World) (event_id : uuid) (row : Event) :
  fetch_event w event_id = Some row -> ev_status row = "pending" ->
  route_event w (event_dict row) = Ret None ->
  process_event w event_id =
    (update_event event_id (with_unmatched (clock w) (S (clock w)))
       (snd (utcnow (snd (utcnow w)))),
     Ret [ ("status", PStr "unmatched"); ("event_id", PStr (uuid_str event_id)) ]).
Proof.
  intros Hf Hs Hr. unfold process_event. rewrite Hf, Hs, Hr. reflexivity.
Qed.

Lemma process_event_raise_eq (w : World) (event_id : uuid) (row : Event) (e : exn) :
  fetch_event w event_id = Some row -> ev_status row = "pending" ->
  route_event w (event_dict row) = Raise e ->
  process_event w event_id = (w, Raise e).
Proof.
  intros Hf Hs Hr. unfold process_event. rewrite Hf, Hs, Hr. reflexivity.
Qed.

(** The world in which the action of a matched rule runs. *)
Lemma process_event_matched_eq (w : World) (event_id : uuid) (row : Event)
    (rr : RouteResult) :
  fetch_event w event_id = Some row -> ev_status row = "pending" ->
  route_event w (event_dict row) = Ret (Some rr) ->
  let routed :=
    update_rule (rr_rule_id rr) (with_match_stat (S (S (clock w))))
      (snd (utcnow
              (update_event event_id (with_routing rr (clock w) (S (clock w)))
                 (snd (utcnow (snd (utcnow w))))))) in
  let acted :=
    execute_action routed event_id (rr_rule_id rr) (rr_action rr)
      (rr_action_config rr) (event_dict row) in
  let new_status :=
    if truthy (dict_get (snd acted) "success" PNone)
    then "processed" else "failed" in
  process_event w event_id =
    (update_event event_id (with_status new_status (clock (fst acted)))
       (snd (utcnow (fst acted))),
     Ret [ ("status", PStr new_status);
           ("event_id", PStr (uuid_str event_id));
           ("rule_id", PStr (uuid_str (rr_rule_id rr)));
           ("action", PStr (rr_action rr));
           ("action_result", PDict (snd acted)) ]).
Proof.
  intros Hf Hs Hr routed acted new_status.
  unfold process_event. rewrite Hf, Hs, Hr.
  change (negb ("pending" =? "pending")%string) with false. cbv iota.
  subst new_status acted routed.
  cbn [utcnow fst snd clock events rules actions inboxes inbox_members
       set_events set_rules update_event update_rule].
  match goal with |- context [execute_action ?a ?b ?c ?d ?e ?f] =>
    destruct (execute_action a b c d e f) as [w6 result]
  end.
  reflexivity.
Qed.

(** The five ways a call can go. *)
Lemma process_event_cases (w : World) (event_id : uuid) :
  fetch_event w event_id = None
  \/ (exists row, fetch_event w event_id = Some row /\ ev_status row <> "pending")
  \/ (exists row e, fetch_event w event_id = Some row /\ ev_status row = "pending"
                    /\ route_event w (event_dict row) = Raise e)
  \/ (exists row, fetch_event w event_id = Some row /\ ev_status row = "pending"
                  /\ route_event w (event_dict row) = Ret None)
  \/ (exists row rr, fetch_event w event_id = Some row /\ ev_status row = "pending"
                     /\ route_event w (event_dict row) = Ret (Some rr)).
Proof.
  destruct (fetch_event w event_id) as [row |]; [| now left].
  right. destruct (String.eqb_spec (ev_status row) "pending") as [Hs | Hs];
    [| left; eauto].
  right. destruct (route_event w (event_dict row)) as [[rr |] | e] eqn:Hr.
  - right. right. eauto.
  - right. left. eauto.
  - left. eauto.
Qed.

Lemma process_event_untouched (w : World) (event_id : uuid) :
  fetch_event w event_id = None
  \/ (exists row, fetch_event w event_id = Some row /\ ev_status row <> "pending")
  \/ (exists row e, fetch_event w event_id = Some row /\ ev_status row = "pending"
                    /\ route_event w (event_dict row) = Raise e) ->
  fst (process_event w event_id) = w.
Proof.
  intros [Hf | [(row & Hf & Hs) | (row & e & Hf & Hs & Hr)]].
  - unfold process_event. now rewrite Hf.
  - unfold process_event. rewrite Hf. apply String.eqb_neq in Hs. now rewrite Hs.
  - now rewrite (@process_event_raise_eq w event_id row e Hf Hs Hr).
Qed.

End ProcessingLaws.

(** X5: [process_event] on an id no event has returns
    [{error: "Event not found"}] and leaves the world as it was. *)
Theorem process_event_not_found {RE : ReEngine} {EXT : Externals}
    (w : World) (event_id : uuid) :
  (forall e, In e (events w) -> ev_id e <> event_id) ->
  process_event w event_id = (w, Ret [ ("error", PStr "Event not found") ]).
Proof.
  intros Hno. unfold process_event.
  destruct (fetch_event w event_id) as [row |] eqn:Hf; [| reflexivity].
  apply find_some in Hf. destruct Hf as [Hin Heq].
  apply Nat.eqb_eq in Heq. now apply Hno in Hin.
Qed.

Lemma process_event_not_found_witness :
  @process_event literal_re working_ext support_world 42
  = (support_world, Ret [ ("error", PStr "Event not found") ]).
Proof.
  apply (@process_event_not_found literal_re working_ext support_world 42).
  intros e [<- | []]. discriminate.
Defined.

Lemma Forall2_map_self {A : Type} (R : A -> A -> Prop) (f : A -> A) (l : list A) :
  (forall a, R a (f a)) -> Forall2 R l (map f l).
Proof. intros H. induction l; simpl; constructor; auto. Qed.

Lemma Forall2_same {A : Type} (R : A -> A -> Prop) (l : list A) :
  (forall a, R a a) -> Forall2 R l l.
Proof. intros H. induction l; constructor; auto. Qed.

Lemma rule_kept_refl (r : Rule) : rule_kept r r.
Proof. unfold rule_kept. repeat split; lia. Qed.

Lemma event_kept_refl (id : uuid) (e : Event) : event_kept id e e.
Proof. unfold event_kept. tauto. Qed.

Lemma event_kept_trans (id : uuid) (a b c : Event) :
  event_kept id a b -> event_kept id b c -> event_kept id a c.
Proof.
  unfold event_kept. intros Hab Hbc.
  destruct Hab as (A1 & A2 & A3 & A4 & A5 & A6 & A7 & A8 & A9 & A10 & A11 & A12 & A13).
  destruct Hbc as (B1 & B2 & B3 & B4 & B5 & B6 & B7 & B8 & B9 & B10 & B11 & B12 & B13).
  repeat split; try congruence.
  intros Hn. rewrite B13 by congruence. auto.
Qed.

Lemma event_kept_update (id : uuid) (f : Event -> Event) (e : Event) :
  (forall x, ev_id x = id -> event_kept id x (f x)) ->
  event_kept id e (if ev_id e =? id then f e else e).
Proof.
  intros H. destruct (ev_id e =? id) eqn:E; [| apply event_kept_refl].
  apply H. now apply Nat.eqb_eq.
Qed.

(** X6: [process_event] changes nothing in the rule table but the match
    statistics: every rule keeps its id, name, enabled flag, priority,
    conditions, action and action_config, and its match_count never
    decreases and grows by one at most; when a rule matched, exactly the
    rules with its id get match_count + 1 and last_matched_at stamped, and
    in every other case the rule table is unchanged. *)
Theorem process_event_rule_stats {RE : ReEngine} {EXT : Externals}
    (w : World) (event_id : uuid) :
  let w' := fst (process_event w event_id) in
  Forall2 rule_kept (rules w) (rules w')
  /\ (forall row rr,
        fetch_event w event_id = Some row -> ev_status row = "pending" ->
        route_event w (event_dict row) = Ret (Some rr) ->
        rules w' =
          map (fun r => if rule_id r =? rr_rule_id rr
                        then with_match_stat (S (S (clock w))) r else r)
              (rules w))
  /\ ((forall row, fetch_event w event_id = Some row ->
                   ev_status row = "pending" ->
                   forall rr, route_event w (event_dict row) <> Ret (Some rr)) ->
      rules w' = rules w).
Proof.
  intros w'. subst w'.
  assert (Hm : forall row rr,
        fetch_event w event_id = Some row -> ev_status row = "pending" ->
        route_event w (event_dict row) = Ret (Some rr) ->
        rules (fst (process_event w event_id)) =
          map (fun r => if rule_id r =? rr_rule_id rr
                        then with_match_stat (S (S (clock w))) r else r)
              (rules w)).
  { intros row rr Hf Hs Hr.
    rewrite (@process_event_matched_eq RE EXT w event_id row rr Hf Hs Hr).
    cbn [fst update_event set_events rules utcnow snd].
    match goal with |- context [execute_action ?a ?b ?c ?d ?e ?f] =>
      destruct (execute_action_frame a b c d e f) as (Fr & _)
    end.
    rewrite Fr. reflexivity. }
  assert (Hu : (forall row, fetch_event w event_id = Some row ->
                   ev_status row = "pending" ->
                   forall rr, route_event w (event_dict row) <> Ret (Some rr)) ->
      rules (fst (process_event w event_id)) = rules w).
  { intros Hno.
    destruct (process_event_cases w event_id)
      as [H | [H | [H | [(row & Hf & Hs & Hr) | (row & rr & Hf & Hs & Hr)]]]].
    - now rewrite process_event_untouched by auto.
    - now rewrite process_event_untouched by auto.
    - now rewrite process_event_untouched by auto.
    - now rewrite (@process_event_unmatched_eq RE EXT w event_id row Hf Hs Hr).
    - now elim (Hno row Hf Hs rr). }
  split; [| split; [exact Hm | exact Hu]].
  destruct (process_event_cases w event_id)
    as [H | [H | [H | [(row & Hf & Hs & Hr) | (row & rr & Hf & Hs & Hr)]]]].
  - rewrite process_event_untouched by auto. apply Forall2_same, rule_kept_refl.
  - rewrite process_event_untouched by auto. apply Forall2_same, rule_kept_refl.
  - rewrite process_event_untouched by auto. apply Forall2_same, rule_kept_refl.
  - rewrite Hu; [| intros row' Hf' _ rr; congruence].
    apply Forall2_same, rule_kept_refl.
  - rewrite (Hm row rr Hf Hs Hr). apply Forall2_map_self. intros r.
    destruct (rule_id r =? rr_rule_id rr); [| apply rule_kept_refl].
    unfold rule_kept. simpl. repeat split; lia.
Qed.

(** X7: [process_event] never changes or removes an ActionLog row, and adds
    one only when a rule matched: exactly one then, for this event and the
    matched rule, ending 'completed' or 'failed'. *)
Theorem process_event_action_log {RE : ReEngine} {EXT : Externals}
    (w : World) (event_id : uuid) :
  let w' := fst (process_event w event_id) in
  exists added,
    actions w' = actions w ++ added /\
    List.length added <= 1 /\
    (forall row rr,
        fetch_event w event_id = Some row -> ev_status row = "pending" ->
        route_event w (event_dict row) = Ret (Some rr) ->
        exists a, added = [a] /\ act_event_id a = event_id /\
                  act_rule_id a = rr_rule_id rr /\
                  act_action a = rr_action rr /\
                  In (act_status a) [ "completed"; "failed" ]) /\
    ((forall row, fetch_event w event_id = Some row ->
                  ev_status row = "pending" ->
                  forall rr, route_event w (event_dict row) <> Ret (Some rr)) ->
     added = []).
Proof.
  intros w'. subst w'.
  destruct (process_event_cases w event_id)
    as [H | [H | [H | [(row & Hf & Hs & Hr) | (row & rr & Hf & Hs & Hr)]]]].
  1-3: exists []; rewrite process_event_untouched by auto;
       rewrite app_nil_r; repeat split; auto;
       intros row rr Hf Hs Hr;
       try (destruct H as (r & e & Hf' & Hs' & Hr'));
       try (destruct H as (r & Hf' & Hs'));
       congruence.
  - exists []. rewrite (@process_event_unmatched_eq RE EXT w event_id row Hf Hs Hr).
    rewrite app_nil_r. repeat split; auto.
    intros row' rr Hf' _ Hr'. congruence.
  - rewrite (@process_event_matched_eq RE EXT w event_id row rr Hf Hs Hr).
    cbn [fst update_event set_events actions utcnow snd].
    match goal with |- context [execute_action ?a ?b ?c ?d ?e ?f] =>
      destruct (execute_action_log_rows a b c d e f) as (Hrows & _)
    end.
    rewrite Hrows. cbn [actions update_rule set_rules utcnow snd update_event set_events].
    eexists. split; [reflexivity |]. split; [simpl; lia |]. split.
    + intros row' rr' Hf' _ Hr'.
      assert (row' = row) by congruence. subst row'.
      assert (rr' = rr) by congruence. subst rr'.
      eexists. split; [reflexivity |]. simpl. repeat split.
      destruct (truthy _); auto.
    + intros Hno. now elim (Hno row Hf Hs rr).
Qed.

(** X8: [process_event] creates and deletes no event and leaves every other
    event exactly as it was; in the event it processes, the source,
    source_id, event_type, payload, email fields, owner_id and created_at
    never change. *)
Theorem process_event_event_frame {RE : ReEngine} {EXT : Externals}
    (w : World) (event_id : uuid) :
  Forall2 (event_kept event_id) (events w) (events (fst (process_event w event_id))).
Proof.
  destruct (process_event_cases w event_id)
    as [H | [H | [H | [(row & Hf & Hs & Hr) | (row & rr & Hf & Hs & Hr)]]]].
  1-3: rewrite process_event_untouched by auto;
       apply Forall2_same, event_kept_refl.
  - rewrite (@process_event_unmatched_eq RE EXT w event_id row Hf Hs Hr).
    cbn [fst update_event set_events events utcnow snd].
    apply Forall2_map_self. intros e. apply event_kept_update.
    intros x Hx. unfold event_kept. simpl. tauto.
  - rewrite (@process_event_matched_eq RE EXT w event_id row rr Hf Hs Hr).
    cbn [fst update_event set_events events utcnow snd].
    match goal with |- context [execute_action ?a ?b ?c ?d ?e ?f] =>
      destruct (execute_action_frame a b c d e f) as (_ & _ & v & Fe)
    end.
    rewrite Fe.
    cbn [events update_rule set_rules utcnow snd update_event set_events].
    rewrite !map_map. apply Forall2_map_self. intros e.
    eapply event_kept_trans; [| apply event_kept_update].
    eapply event_kept_trans; [| apply event_kept_update].
    apply event_kept_update.
    + intros x Hx. unfold event_kept. simpl. tauto.
    + intros x Hx. unfold event_kept. simpl. tauto.
    + intros x Hx. unfold event_kept. simpl. tauto.
Qed.

Lemma fetch_event_utcnow (w : World) (id : uuid) :
  fetch_event (snd (utcnow w)) id = fetch_event w id.
Proof. reflexivity. Qed.

Lemma fetch_event_update_rule (w : World) (id rid : uuid) (f : Rule -> Rule) :
  fetch_event (update_rule rid f w) id = fetch_event w id.
Proof. reflexivity. Qed.

Lemma process_event_status_after {RE : ReEngine} {EXT : Externals}
    (w : World) (event_id : uuid) (row : Event) :
  fetch_event w event_id = Some row -> ev_status row = "pending" ->
  returns (route_event w (event_dict row)) ->
  exists row',
    fetch_event (fst (process_event w event_id)) event_id = Some row' /\
    In (ev_status row') [ "unmatched"; "processed"; "failed" ].
Proof.
  intros Hf Hs [[rr |] Hr].
  - rewrite (@process_event_matched_eq RE EXT w event_id row rr Hf Hs Hr).
    cbn [fst]. rewrite fetch_update_event by reflexivity.
    rewrite fetch_event_utcnow.
    match goal with |- context [execute_action ?a ?b ?c ?d ?e ?f] =>
      assert (Hf5 : fetch_event a event_id
                    = Some (with_routing rr (clock w) (S (clock w)) row))
        by (rewrite fetch_event_update_rule, fetch_event_utcnow,
              fetch_update_event by reflexivity;
            now rewrite !fetch_event_utcnow, Hf);
      destruct (execute_action_fetch a b c d e f Hf5) as [v Hf6]
    end.
    rewrite Hf6.
    eexists. split; [reflexivity |]. simpl. destruct (truthy _); auto.
  - rewrite (@process_event_unmatched_eq RE EXT w event_id row Hf Hs Hr).
    cbn [fst]. rewrite fetch_update_event by reflexivity.
    rewrite !fetch_event_utcnow, Hf.
    eexists. split; [reflexivity |]. simpl. auto.
Qed.

(** X9: processing is guarded against a second trigger: once
    [process_event] has routed a pending event, calling it again on the
    same id returns "Event already processed: <status>" with the terminal
    status the first call left, and changes nothing. *)
Theorem process_event_twice {RE : ReEngine} {EXT : Externals}
    (w : World) (event_id : uuid) (row : Event) :
  fetch_event w event_id = Some row -> ev_status row = "pending" ->
  returns (route_event w (event_dict row)) ->
  let first := process_event w event_id in
  exists status,
    In status [ "unmatched"; "processed"; "failed" ] /\
    process_event (fst first) event_id =
      (fst first,
       Ret [ ("error", PStr ("Event already processed: " ++ status)%string) ]).
Proof.
  intros Hf Hs Hret first.
  destruct (process_event_status_after w event_id Hf Hs Hret) as (row' & Hf' & Hst).
  fold first in Hf'. exists (ev_status row'). split; [exact Hst |].
  unfold process_event at 1. rewrite Hf'.
  assert (Hn : String.eqb (ev_status row') "pending" = false)
    by (simpl in Hst; destruct Hst as [<- | [<- | [<- | []]]]; reflexivity).
  now rewrite Hn.
Qed.

Lemma process_event_twice_witness :
  exists status,
    In status [ "unmatched"; "processed"; "failed" ] /\
    @process_event literal_re working_ext
      (fst (@process_event literal_re working_ext support_world 1)) 1 =
      (fst (@process_event literal_re working_ext support_world 1),
       Ret [ ("error", PStr ("Event already processed: " ++ status)%string) ]).
Proof.
  apply (@process_event_twice literal_re working_ext support_world 1
           (support_mail "pending")).
  - reflexivity.
  - reflexivity.
  - eexists. reflexivity.
Defined.

(** ** Action handlers *)

Lemma assoc_set_same {V : Type} (d : list (string * V)) (k : string) (v : V) :
  assoc_set (assoc_set d k v) k v = assoc_set d k v.
Proof.
  induction d as [| [k0 v0] d IH]; simpl.
  - now rewrite String.eqb_refl.
  - destruct (String.eqb k0 k) eqn:E; simpl.
    + now rewrite String.eqb_refl.
    + now rewrite E, IH.
Qed.

(** X10: the [tag] action with a non-empty tag list succeeds with
    [tags_added], and merges the list into the event's route_result under
    the key "tags": every other key of the object keeps its value (a NULL
    route_result becomes [{tags: ...}]); the status and every other column
    of the event, every other event, the rules and the ActionLog are left
    alone. *)
Theorem _action_tag_merges (w : World) (event_id : uuid) (c : pydict) (tags : pyval) :
  assoc_get c "tags" = Some tags -> truthy tags = true ->
  let done := _action_tag w event_id (PDict c) in
  snd done = Ret [ ("success", PBool true); ("tags_added", tags) ]
  /\ rules (fst done) = rules w /\ actions (fst done) = actions w
  /\ Forall2
       (fun before after =>
          event_kept event_id before after /\
          ev_status after = ev_status before /\
          ev_matched_rule_id after = ev_matched_rule_id before /\
          ev_routed_at after = ev_routed_at before /\
          ev_updated_at after = ev_updated_at before /\
          (ev_id before = event_id ->
           (ev_route_result before = None ->
            ev_route_result after = Some (PDict [ ("tags", tags) ])) /\
           (forall d, ev_route_result before = Some (PDict d) ->
              exists d', ev_route_result after = Some (PDict d') /\
                         assoc_get d' "tags" = Some tags /\
                         forall k, k <> "tags" -> assoc_get d' k = assoc_get d k)))
       (events w) (events (fst done)).
Proof.
  intros Hc Ht done. subst done. unfold _action_tag, py_get. rewrite Hc, Ht.
  cbn [negb fst snd update_event set_events rules actions events].
  repeat split.
  apply Forall2_map_self. intros e.
  destruct (ev_id e =? event_id) eqn:E.
  - split; [unfold event_kept; simpl; repeat split;
            intros Hn; apply Nat.eqb_eq in E; contradiction |].
    simpl. repeat split.
    + intros Hnone. now rewrite Hnone.
    + intros d Hd. rewrite Hd. simpl. eexists. split; [reflexivity |].
      rewrite assoc_get_set, String.eqb_refl. split; [reflexivity |].
      intros k Hk. rewrite assoc_get_set.
      destruct (String.eqb_spec "tags" k); [now subst | reflexivity].
  - split; [apply event_kept_refl |].
    apply Nat.eqb_neq in E. repeat split; intros; contradiction.
Qed.

Lemma _action_tag_merges_witness :
  snd (_action_tag support_world 1
         (PDict [ ("tags", PList [ PStr "support" ]) ]))
  = Ret [ ("success", PBool true); ("tags_added", PList [ PStr "support" ]) ].
Proof.
  destruct (@_action_tag_merges support_world 1
              [ ("tags", PList [ PStr "support" ]) ] (PList [ PStr "support" ])
              eq_refl eq_refl) as (H & _).
  exact H.
Defined.

(** X11: the [tag] action is idempotent on events whose route_result is
    NULL or an object: running it a second time returns the same result and
    leaves the world of the first run unchanged; and with no tag list, or
    an empty one, it succeeds without writing anything. *)
Theorem _action_tag_idempotent (w : World) (event_id : uuid) (c : pydict) :
  (forall e, In e (events w) -> ev_id e = event_id ->
             object_or_null (ev_route_result e)) ->
  let once := _action_tag w event_id (PDict c) in
  _action_tag (fst once) event_id (PDict c) = once
  /\ (truthy (match assoc_get c "tags" with Some t => t | None => PList [] end)
      = false ->
      once = (w, Ret [ ("success", PBool true);
                       ("message", PStr "No tags specified") ])).
Proof.
  intros Hobj once. subst once. unfold _action_tag, py_get.
  destruct (truthy (match assoc_get c "tags" with
                    | Some t => t | None => PList [] end)) eqn:Ht;
    cbn [negb fst snd]; [| split; reflexivity].
  split; [| discriminate].
  f_equal.
  unfold update_event, set_events. cbn [events rules actions inboxes inbox_members clock].
  f_equal. rewrite map_map. apply map_ext_in. intros e Hin.
  destruct (ev_id e =? event_id) eqn:E; [| now rewrite E].
  cbn [ev_id with_route_result]. rewrite E.
  apply Nat.eqb_eq in E.
  destruct (Hobj e Hin E) as [Hn | [d Hd]]; unfold with_route_result;
    cbn [ev_route_result]; rewrite ?Hn, ?Hd; cbn [jsonb_concat fold_left fst snd];
    cbn [assoc_set]; rewrite ?String.eqb_refl; try reflexivity.
  now rewrite assoc_set_same.
Qed.

Lemma _action_tag_idempotent_witness :
  let once := _action_tag support_world 1
                (PDict [ ("tags", PList [ PStr "support" ]) ]) in
  _action_tag (fst once) 1 (PDict [ ("tags", PList [ PStr "support" ]) ]) = once.
Proof.
  refine (proj1 (@_action_tag_idempotent support_world 1
                   [ ("tags", PList [ PStr "support" ]) ] _)).
  intros e [<- | []] _. now left.
Defined.

Section HandlerLaws.
Context {EXT : Externals}.

Lemma execute_action_result (w : World) (event_id rule_id : uuid)
    (action : string) (config : pyval) (event : pydict) :
  snd (execute_action w event_id rule_id action config event) =
  match snd (dispatch_action
               (fst (_log_action_start w event_id rule_id action config))
               event_id action config event) with
  | Ret result => result
  | Raise e => [ ("success", PBool false); ("error", PStr (exn_str e)) ]
  end.
Proof. apply execute_action_log_rows. Qed.

Lemma dispatch_action_unknown (w : World) (event_id : uuid) (action : string)
    (config : pyval) (event : pydict) :
  ~ In action action_kinds ->
  dispatch_action w event_id action config event =
    (w, Ret [ ("success", PBool false);
              ("error", PStr ("Unknown action: " ++ action)%string) ]).
Proof.
  intros Hn. unfold dispatch_action.
  repeat match goal with
         | |- context [String.eqb action ?k] =>
             destruct (String.eqb_spec action k) as [-> | _];
             [exfalso; apply Hn; simpl; auto 10 |]
         end.
  reflexivity.
Qed.

Lemma _action_spawn_task_no_name (event c : pydict) :
  truthy (match assoc_get c "task_name" with Some v => v | None => PNone end)
  = false ->
  _action_spawn_task event (PDict c) =
    Ret [ ("success", PBool false); ("error", PStr "No task_name specified") ].
Proof. intros H. unfold _action_spawn_task, py_get. simpl. now rewrite H. Qed.

Lemma dispatch_action_ignore (w : World) (event_id : uuid) (action : string)
    (config : pyval) (event : pydict) :
  action = "ignore" ->
  dispatch_action w event_id action config event =
    (w, Ret [ ("success", PBool true); ("message", PStr "Event ignored") ]).
Proof. intros ->. reflexivity. Qed.

Lemma dispatch_action_spawn_no_name (w : World) (event_id : uuid)
    (action : string) (c : pydict) (event : pydict) :
  action = "spawn_task" ->
  truthy (match assoc_get c "task_name" with Some v => v | None => PNone end)
  = false ->
  dispatch_action w event_id action (PDict c) event =
    (w, Ret [ ("success", PBool false);
              ("error", PStr "No task_name specified") ]).
Proof.
  intros -> Ht. unfold dispatch_action.
  cbn [String.eqb Ascii.eqb Bool.eqb].
  now rewrite (_action_spawn_task_no_name _ _ Ht).
Qed.

End HandlerLaws.

(** X12: the action set is closed: for an action that is none of
    create_note, tag, ignore and spawn_task, [execute_action] returns
    [{success: False, error: "Unknown action: <action>"}] without raising,
    writes no event and no rule, and its ActionLog row ends 'failed' with
    no exception recorded in the error column. *)
Theorem execute_action_unknown {EXT : Externals} (w : World)
    (event_id rule_id : uuid) (action : string) (config : pyval)
    (event : pydict) :
  ~ In action action_kinds ->
  let done := execute_action w event_id rule_id action config event in
  snd done = [ ("success", PBool false);
               ("error", PStr ("Unknown action: " ++ action)%string) ]
  /\ events (fst done) = events w
  /\ rules (fst done) = rules w
  /\ exists a, actions (fst done) = actions w ++ [a] /\
               act_action a = action /\ act_status a = "failed" /\
               act_error a = None.
Proof.
  intros Hn done.
  pose proof (execute_action_log_rows w event_id rule_id action config event)
    as [Hrows Hres].
  fold done in Hrows, Hres.
  rewrite (dispatch_action_unknown _ event_id config event Hn) in Hrows, Hres.
  cbn [snd] in Hrows, Hres.
  split; [exact Hres |]. split; [| split].
  - subst done. unfold execute_action.
    destruct (_log_action_start w event_id rule_id action config) as [w1 aid] eqn:E.
    rewrite (dispatch_action_unknown _ event_id config event Hn).
    unfold _log_action_start in E. injection E as <- _. reflexivity.
  - subst done. unfold execute_action.
    destruct (_log_action_start w event_id rule_id action config) as [w1 aid] eqn:E.
    rewrite (dispatch_action_unknown _ event_id config event Hn).
    unfold _log_action_start in E. injection E as <- _. reflexivity.
  - eexists. split; [exact Hrows |]. rewrite Hres. repeat split.
Qed.

Lemma execute_action_unknown_witness :
  snd (@execute_action working_ext support_world 1 2 "forward" (PDict [])
         (event_dict (support_mail "pending")))
  = [ ("success", PBool false); ("error", PStr "Unknown action: forward") ].
Proof.
  refine (proj1 (@execute_action_unknown working_ext support_world 1 2 "forward"
                   (PDict []) (event_dict (support_mail "pending")) _)).
  simpl. intros [H | [H | [H | [H | []]]]]; discriminate H.
Defined.

(** X13: [spawn_task] reports instead of raising: without a task_name (or
    with an empty one) it returns
    [{success: False, error: "No task_name specified"}] and calls nothing;
    with one, once the event is serialised and task_params is a map, it
    spawns on queue "default" with the event and its id added to the
    params, and whatever the queue does it returns a result: a queue
    exception [e] gives
    [{success: False, error: "Failed to spawn task: <e>"}]. *)
Theorem _action_spawn_task_reports {EXT : Externals}
    (event c : pydict) :
  (truthy (match assoc_get c "task_name" with Some v => v | None => PNone end)
   = false ->
   _action_spawn_task event (PDict c) =
     Ret [ ("success", PBool false); ("error", PStr "No task_name specified") ])
  /\ (forall (name event_json : pyval) (p : pydict),
        assoc_get c "task_name" = Some name -> truthy name = true ->
        json_roundtrip event = Ret event_json ->
        match assoc_get c "task_params" with
        | Some v => v | None => PDict []
        end = PDict p ->
        let params :=
          PDict (assoc_set
                   (assoc_set p "event_id"
                      (PStr (py_str (dict_get event "id" PNone))))
                   "event" event_json) in
        returns (_action_spawn_task event (PDict c))
        /\ (forall e, absurd_spawn name params "default" = Raise e ->
              _action_spawn_task event (PDict c) =
                Ret [ ("success", PBool false);
                      ("error",
                       PStr ("Failed to spawn task: " ++ exn_str e)%string) ])
        /\ (forall tid, absurd_spawn name params "default"
                        = Ret (PDict [ ("task_id", tid) ]) ->
              _action_spawn_task event (PDict c) =
                Ret [ ("success", PBool true);
                      ("task_id", PStr (py_str tid)) ])).
Proof.
  split; [apply _action_spawn_task_no_name |].
  intros name event_json p Hname Ht Hjson Hp params. subst params.
  unfold _action_spawn_task, py_get. cbn [bind]. rewrite Hname, Ht. cbn [negb].
  rewrite Hjson. cbn [bind]. rewrite Hp. cbn [py_setitem bind].
  destruct (absurd_spawn name _ "default") as [r | e] eqn:Hs; cbn [bind].
  - split; [| split].
    + destruct r; cbn [bind]; eexists; reflexivity.
    + discriminate.
    + intros tid H. injection H as ->. reflexivity.
  - split; [| split].
    + eexists; reflexivity.
    + intros e' H. injection H as <-. reflexivity.
    + discriminate.
Qed.

Lemma _action_spawn_task_reports_witness :
  @_action_spawn_task working_ext (event_dict (support_mail "pending")) (PDict [])
  = Ret [ ("success", PBool false); ("error", PStr "No task_name specified") ].
Proof.
  apply (proj1 (@_action_spawn_task_reports working_ext
                  (event_dict (support_mail "pending")) [])).
  reflexivity.
Defined.

Lemma process_event_matched_after {RE : ReEngine} {EXT : Externals}
    (w : World) (event_id : uuid) (row : Event) (rr : RouteResult) :
  fetch_event w event_id = Some row -> ev_status row = "pending" ->
  route_event w (event_dict row) = Ret (Some rr) ->
  exists (routed : World) (row' : Event),
    let result :=
      snd (execute_action routed event_id (rr_rule_id rr) (rr_action rr)
             (rr_action_config rr) (event_dict row)) in
    let new_status :=
      if truthy (dict_get result "success" PNone) then "processed" else "failed" in
    fetch_event (fst (process_event w event_id)) event_id = Some row' /\
    ev_status row' = new_status /\
    snd (process_event w event_id) =
      Ret [ ("status", PStr new_status);
            ("event_id", PStr (uuid_str event_id));
            ("rule_id", PStr (uuid_str (rr_rule_id rr)));
            ("action", PStr (rr_action rr));
            ("action_result", PDict result) ].
Proof.
  intros Hf Hs Hr.
  rewrite (@process_event_matched_eq RE EXT w event_id row rr Hf Hs Hr).
  cbn [fst snd].
  match goal with |- context [execute_action ?a ?b ?c ?d ?e ?f] =>
    exists a;
    assert (Hf5 : fetch_event a event_id
                  = Some (with_routing rr (clock w) (S (clock w)) row))
      by (rewrite fetch_event_update_rule, fetch_event_utcnow,
            fetch_update_event by reflexivity;
          now rewrite !fetch_event_utcnow, Hf);
    destruct (execute_action_fetch a b c d e f Hf5) as [v Hf6]
  end.
  rewrite fetch_update_event by reflexivity.
  rewrite fetch_event_utcnow, Hf6.
  eexists. cbn zeta. split; [reflexivity |]. split; reflexivity.
Qed.

(** X14: the final status follows the handler: a pending event whose
    matched rule has action [ignore] ends 'processed'; one whose matched
    rule has an action outside the four kinds, or [spawn_task] with no
    task_name in its config, ends 'failed' (never an exception), and the
    returned action_result carries the error message. *)
Theorem process_event_by_action {RE : ReEngine} {EXT : Externals}
    (w : World) (event_id : uuid) (row : Event) (rr : RouteResult) :
  fetch_event w event_id = Some row -> ev_status row = "pending" ->
  route_event w (event_dict row) = Ret (Some rr) ->
  let outcome (status : string) (result : pydict) :=
    (exists row', fetch_event (fst (process_event w event_id)) event_id = Some row'
                  /\ ev_status row' = status)
    /\ snd (process_event w event_id) =
         Ret [ ("status", PStr status);
               ("event_id", PStr (uuid_str event_id));
               ("rule_id", PStr (uuid_str (rr_rule_id rr)));
               ("action", PStr (rr_action rr));
               ("action_result", PDict result) ] in
  (rr_action rr = "ignore" ->
     outcome "processed"
       [ ("success", PBool true); ("message", PStr "Event ignored") ])
  /\ (~ In (rr_action rr) action_kinds ->
      outcome "failed"
        [ ("success", PBool false);
          ("error", PStr ("Unknown action: " ++ rr_action rr)%string) ])
  /\ (forall c, rr_action rr = "spawn_task" -> rr_action_config rr = PDict c ->
        truthy (match assoc_get c "task_name" with
                | Some v => v | None => PNone end) = false ->
        outcome "failed"
          [ ("success", PBool false); ("error", PStr "No task_name specified") ]).
Proof.
  intros Hf Hs Hr outcome. subst outcome.
  destruct (process_event_matched_after w event_id Hf Hs Hr)
    as (routed & row' & Hf' & Hst & Hres).
  cbn zeta in Hst, Hres.
  rewrite execute_action_result in Hst, Hres.
  split; [| split].
  - intros Ha.
    rewrite (dispatch_action_ignore _ event_id (rr_action_config rr)
               (event_dict row) Ha) in Hst, Hres.
    cbn in Hst. split; [eauto |]. exact Hres.
  - intros Hn.
    rewrite (dispatch_action_unknown _ event_id (rr_action_config rr)
               (event_dict row) Hn) in Hst, Hres.
    cbn in Hst. split; [eauto |]. exact Hres.
  - intros c Ha Hc Ht. rewrite Hc in Hst, Hres.
    rewrite (dispatch_action_spawn_no_name _ event_id c
               (event_dict row) Ha Ht) in Hst, Hres.
    cbn in Hst. split; [eauto |]. exact Hres.
Qed.

Lemma process_event_by_action_witness :
  exists row',
    fetch_event (fst (@process_event literal_re working_ext spawn_world 1)) 1
    = Some row' /\ ev_status row' = "failed".
Proof.
  destruct (@process_event_by_action literal_re working_ext spawn_world 1
              (support_mail "pending") (route_of rule_spawn)
              eq_refl eq_refl eq_refl) as (_ & _ & H).
  destruct (H [] eq_refl eq_refl eq_refl) as [Hrow _].
  exact Hrow.
Defined.

(** ** Ingestion: invariants, the insert path, and processing after it *)

Lemma conflicts_null (source : string) (e : Event) : conflicts source None e = false.
Proof. reflexivity. Qed.

Lemma find_all_false {A : Type} (f : A -> bool) (l : list A) :
  (forall a, f a = false) -> find f l = None.
Proof. intros H. induction l; simpl; [reflexivity | now rewrite H]. Qed.

(** X15: [create_event] keeps the two keys of the event table: event ids
    stay pairwise distinct and no two rows share a non-NULL
    (source, source_id); it removes no row, adds at most one (the row it
    returns is stored), and writes no rule and no ActionLog row. *)
Theorem create_event_keeps_keys (w : World) (source : string)
    (source_id : option string) (event_type : string) (payload : pyval)
    (email_from email_to email_subject email_body : option string)
    (email_date : option timestamp) (owner_id : option uuid) :
  unique_index w -> ids_unique w ->
  let done :=
    create_event w source source_id event_type payload email_from email_to
      email_subject email_body email_date owner_id in
  unique_index (fst done) /\ ids_unique (fst done)
  /\ In (snd done) (events (fst done))
  /\ (map ev_id (events (fst done)) = map ev_id (events w) \/
      map ev_id (events (fst done)) = map ev_id (events w) ++ [ev_id (snd done)])
  /\ rules (fst done) = rules w /\ actions (fst done) = actions w.
Proof.
  intros Hu Hi done. subst done.
  destruct (find (conflicts source source_id) (events w)) as [old |] eqn:Hf.
  - rewrite (@create_event_hit _ _ _ _ _ _ _ _ _ _ _ _ Hf).
    cbn [fst snd events rules actions set_events utcnow].
    assert (Hid : map ev_id (map (upsert_row source source_id payload (clock w))
                                 (events w)) = map ev_id (events w)).
    { rewrite map_map. apply map_ext. intros e. unfold upsert_row.
      now destruct (conflicts source source_id e). }
    destruct source_id as [sid |];
      [| rewrite find_all_false in Hf by apply conflicts_null; discriminate].
    repeat split.
    + unfold unique_index. cbn [events set_events].
      now rewrite (index_keys_upsert source sid payload (clock w)).
    + unfold ids_unique. cbn [events set_events]. now rewrite Hid.
    + apply find_some in Hf. destruct Hf as [Hin Hc].
      apply in_map_iff. exists old. split; [| exact Hin].
      unfold upsert_row. now rewrite Hc.
    + now left.
  - destruct (@create_event_miss w source source_id event_type payload email_from
                email_to email_subject email_body email_date owner_id Hf)
      as (row & Hrow & Hs & Hsid & _).
    assert (Hfresh : ev_id row = fresh_id (map ev_id (events w))).
    { unfold create_event in Hrow. cbn [utcnow events] in Hrow.
      rewrite Hf in Hrow. apply (f_equal snd) in Hrow. cbn [snd] in Hrow.
      now rewrite <- Hrow. }
    rewrite Hrow. cbn [fst snd events rules actions set_events utcnow].
    repeat split.
    + unfold unique_index, index_keys. cbn [events set_events].
      rewrite flat_map_app. simpl. rewrite Hsid.
      destruct source_id as [sid |]; simpl; [| now rewrite app_nil_r].
      rewrite Hs. apply NoDup_app; [exact Hu | repeat constructor; auto |].
      intros k Hk [<- | []]. revert Hk. now apply find_none_no_key.
    + unfold ids_unique. cbn [events set_events]. rewrite map_app. simpl.
      apply NoDup_app; [exact Hi | repeat constructor; auto |].
      intros k Hk [<- | []]. apply fresh_id_gt in Hk. lia.
    + apply in_or_app. right. now left.
    + right. now rewrite map_app.
Qed.

Lemma create_event_keeps_keys_witness :
  ids_unique
    (fst (create_event support_world "webhook" None "ping" (PDict [])
            None None None None None None)).
Proof.
  refine (proj1 (proj2 (@create_event_keeps_keys support_world "webhook" None
                          "ping" (PDict []) None None None None None None _ _))).
  - repeat constructor; simpl; auto.
  - repeat constructor; simpl; auto.
Defined.

Lemma find_id_map (es : list Event) (id : uuid) (f : Event -> Event) :
  (forall e, ev_id (f e) = ev_id e) ->
  find (fun e => ev_id e =? id) (map f es)
  = option_map f (find (fun e => ev_id e =? id) es).
Proof.
  intros Hid. induction es as [| e es IH]; simpl; [reflexivity |].
  rewrite Hid. destruct (ev_id e =? id); [reflexivity | exact IH].
Qed.

(** X16: ingesting again an event that was already routed does not make it
    processable again: after [create_event] has met the stored row, whose
    status is not 'pending', [process_event] on that row's id still returns
    "Event already processed: <status>" and changes nothing. *)
Theorem reingest_then_process {RE : ReEngine} {EXT : Externals}
    (w : World) (source : string) (source_id : option string)
    (event_type : string) (payload : pyval)
    (email_from email_to email_subject email_body : option string)
    (email_date : option timestamp) (owner_id : option uuid)
    (id : uuid) (old : Event) :
  fetch_event w id = Some old ->
  conflicts source source_id old = true ->
  ev_status old <> "pending" ->
  let ingested :=
    create_event w source source_id event_type payload email_from email_to
      email_subject email_body email_date owner_id in
  process_event (fst ingested) id =
    (fst ingested,
     Ret [ ("error",
            PStr ("Event already processed: " ++ ev_status old)%string) ]).
Proof.
  intros Hf Hc Hs ingested. subst ingested.
  destruct (find (conflicts source source_id) (events w)) as [first |] eqn:Hfind.
  2:{ apply find_some in Hf. destruct Hf as [Hin _].
      pose proof (find_none _ _ Hfind old Hin). congruence. }
  rewrite (@create_event_hit _ _ _ _ _ _ _ _ _ _ _ _ Hfind). cbn [fst].
  unfold process_event at 1.
  assert (Hf' : fetch_event
                  (set_events (snd (utcnow w))
                     (map (upsert_row source source_id payload (clock w)) (events w)))
                  id = Some (with_payload payload (clock w) old)).
  { unfold fetch_event in *. cbn [events set_events].
    rewrite find_id_map, Hf.
    - simpl. unfold upsert_row. now rewrite Hc.
    - intros e. unfold upsert_row. now destruct (conflicts source source_id e). }
  rewrite Hf'. cbn [ev_status with_payload].
  apply String.eqb_neq in Hs. now rewrite Hs.
Qed.

Lemma reingest_then_process_witness :
  @process_event literal_re working_ext
    (fst (create_event processed_world "resend" (Some "msg-1") "email.received"
            (PDict [ ("v", PInt 2) ]) None None None None None None)) 1
  = (fst (create_event processed_world "resend" (Some "msg-1") "email.received"
            (PDict [ ("v", PInt 2) ]) None None None None None None),
     Ret [ ("error", PStr "Event already processed: processed") ]).
Proof.
  apply (@reingest_then_process literal_re working_ext processed_world
           "resend" (Some "msg-1") "email.received" (PDict [ ("v", PInt 2) ])
           None None None None None None 1 (support_mail "processed")).
  - reflexivity.
  - reflexivity.
  - discriminate.
Defined.

Lemma find_all_in_false {A : Type} (f : A -> bool) (l : list A) :
  (forall a, In a l -> f a = false) -> find f l = None.
Proof.
  induction l as [| a l IH]; intros H; simpl; [reflexivity |].
  rewrite (H a) by now left. apply IH. intros b Hb. apply H. now right.
Qed.

(** X17: a first ingestion yields an event that can be processed: when no
    row holds the key, the row [create_event] returns is stored under a new
    id, pending and unrouted, with the owner given by the caller or else
    looked up from the recipients; [process_event] on its id finds it, and
    ends it in a terminal status whenever routing returns. *)
Theorem ingest_then_process {RE : ReEngine} {EXT : Externals}
    (w : World) (source : string) (source_id : option string)
    (event_type : string) (payload : pyval)
    (email_from email_to email_subject email_body : option string)
    (email_date : option timestamp) (owner_id : option uuid) :
  find (conflicts source source_id) (events w) = None ->
  let ingested :=
    create_event w source source_id event_type payload email_from email_to
      email_subject email_body email_date owner_id in
  let row := snd ingested in
  events (fst ingested) = events w ++ [row]
  /\ (forall e, In e (events w) -> ev_id e <> ev_id row)
  /\ ev_status row = "pending" /\ ev_matched_rule_id row = None
  /\ ev_route_result row = None /\ ev_routed_at row = None
  /\ ev_owner_id row = match owner_id with
                       | Some u => Some u
                       | None => _get_owner_for_inbox w email_to
                       end
  /\ fetch_event (fst ingested) (ev_id row) = Some row
  /\ (returns (route_event (fst ingested) (event_dict row)) ->
      exists row',
        fetch_event (fst (process_event (fst ingested) (ev_id row))) (ev_id row)
        = Some row' /\
        In (ev_status row') [ "unmatched"; "processed"; "failed" ]).
Proof.
  intros Hfind ingested row. subst row ingested.
  unfold create_event. cbn [utcnow events]. rewrite Hfind. cbn [fst snd].
  set (row := {| ev_id := fresh_id (map ev_id (events w)) |}).
  assert (Hfresh : forall e, In e (events w) -> ev_id e <> ev_id row).
  { intros e Hin. apply (in_map ev_id) in Hin. apply fresh_id_gt in Hin.
    subst row. cbn [ev_id]. lia. }
  assert (Hfetch : fetch_event (set_events (snd (utcnow w)) (events w ++ [row]))
                     (ev_id row) = Some row).
  { unfold fetch_event. cbn [events set_events].
    rewrite find_app_none.
    - simpl. now rewrite Nat.eqb_refl.
    - apply find_all_in_false. intros e Hin. apply Nat.eqb_neq. now apply Hfresh. }
  repeat split; try reflexivity; trivial.
  intros Hret.
  apply (@process_event_status_after RE EXT _ _ row); trivial.
Qed.

Lemma ingest_then_process_witness :
  let ingested :=
    create_event support_world "webhook" None "ping" (PDict [])
      None None None None None None in
  fetch_event (fst ingested) (ev_id (snd ingested)) = Some (snd ingested).
Proof.
  destruct (@ingest_then_process literal_re working_ext support_world "webhook"
              None "ping" (PDict []) None None None None None None eq_refl)
    as (_ & _ & _ & _ & _ & _ & _ & H & _).
  exact H.
Defined.

(** ** Owner lookup *)

Lemma lower_ascii_comma (c : ascii) : Ascii.eqb (lower_ascii c) "," = Ascii.eqb c ",".
Proof. destruct c as [[] [] [] [] [] [] [] []]; reflexivity. Qed.

Lemma is_space_lower (c : ascii) : is_space (lower_ascii c) = is_space c.
Proof. destruct c as [[] [] [] [] [] [] [] []]; reflexivity. Qed.

Lemma split_comma_lower (s : string) :
  split_comma (lower s) = map lower (split_comma s).
Proof.
  induction s as [| c s IH]; simpl; [reflexivity |].
  rewrite lower_ascii_comma, IH.
  destruct (Ascii.eqb c ","); [reflexivity |].
  destruct (split_comma s); reflexivity.
Qed.

Lemma lstrip_lower (s : string) : lstrip (lower s) = lower (lstrip s).
Proof.
  induction s as [| c s IH]; simpl; [reflexivity |].
  rewrite is_space_lower. destruct (is_space c); [exact IH | reflexivity].
Qed.

Lemma rstrip_lower (s : string) : rstrip (lower s) = lower (rstrip s).
Proof.
  induction s as [| c s IH]; simpl; [reflexivity |].
  rewrite IH, is_space_lower.
  destruct (rstrip s); simpl; [destruct (is_space c) |]; reflexivity.
Qed.

Lemma strip_lower (s : string) : strip (lower s) = lower (strip s).
Proof. unfold strip. now rewrite lstrip_lower, rstrip_lower. Qed.

Lemma first_owner_ext (w : World) (l l' : list string) :
  map (fun a => lower (strip a)) l = map (fun a => lower (strip a)) l' ->
  first_owner w l = first_owner w l'.
Proof.
  revert l'. induction l as [| a l IH]; intros [| a' l'] H; try discriminate;
    [reflexivity |].
  simpl in *. injection H as Ha Hl. rewrite Ha, (IH l' Hl). reflexivity.
Qed.

(** X18: the owner lookup does not see the letter case of the recipients:
    two [email_to] strings with the same lowercase form resolve to the same
    owner. *)
Theorem _get_owner_for_inbox_ignores_case (w : World) (s s' : string) :
  lower s = lower s' ->
  _get_owner_for_inbox w (Some s) = _get_owner_for_inbox w (Some s').
Proof.
  intros H. unfold _get_owner_for_inbox.
  rewrite (lower_eq_is_empty _ _ H).
  destruct (String.eqb s' ""); [reflexivity |].
  apply first_owner_ext.
  assert (E : forall x, map (fun a => lower (strip a)) (split_comma x)
                        = map strip (split_comma (lower x))).
  { intros x. rewrite split_comma_lower, map_map. apply map_ext.
    intros a. now rewrite strip_lower. }
  now rewrite !E, H.
Qed.

Lemma _get_owner_for_inbox_ignores_case_witness :
  _get_owner_for_inbox inbox_world (Some "SUPPORT@x.com, Bob@y.com")
  = _get_owner_for_inbox inbox_world (Some "support@X.COM, bob@Y.com").
Proof.
  apply (@_get_owner_for_inbox_ignores_case inbox_world
           "SUPPORT@x.com, Bob@y.com" "support@X.COM, bob@Y.com").
  reflexivity.
Defined.

Lemma inbox_owner_member (w : World) (addr : string) (u : uuid) :
  inbox_owner w addr = Some u -> has_member w addr u.
Proof.
  unfold inbox_owner.
  match goal with |- context [find ?f (inbox_members w)] =>
    destruct (find f (inbox_members w)) as [m |] eqn:Hf; [| discriminate]
  end.
  intros H. injection H as <-.
  apply find_some in Hf. destruct Hf as [Hin Hex].
  apply existsb_exists in Hex. destruct Hex as (i & Hi & Hc).
  apply andb_true_iff in Hc. destruct Hc as [Hid Hem].
  apply Nat.eqb_eq in Hid. apply String.eqb_eq in Hem.
  exists (fst m), (snd i). repeat split; trivial.
  - now destruct m.
  - rewrite <- Hid. now destruct i.
Qed.

Lemma inbox_owner_none (w : World) (addr : string) :
  inbox_owner w addr = None <-> forall u, ~ has_member w addr u.
Proof.
  unfold inbox_owner.
  match goal with |- context [find ?f (inbox_members w)] =>
    destruct (find f (inbox_members w)) as [m |] eqn:Hf
  end.
  { split; [discriminate |]. intros H. exfalso. apply (H (snd m)).
    apply inbox_owner_member. unfold inbox_owner. now rewrite Hf. }
  split; [| reflexivity].
  - intros _ u (inbox & email & Hm & Hi & He).
    pose proof (find_none _ _ Hf _ Hm) as Hn. simpl in Hn.
    assert (Ht : existsb (fun i => (fst i =? inbox) && String.eqb (lower (snd i)) addr)
                         (inboxes w) = true).
    { apply existsb_exists. exists (inbox, email). split; [exact Hi |].
      simpl. rewrite Nat.eqb_refl, He, String.eqb_refl. reflexivity. }
    congruence.
Qed.

Lemma first_owner_some (w : World) (l : list string) (u : uuid) :
  first_owner w l = Some u <->
  exists before addr after,
    l = before ++ addr :: after /\
    Forall (fun a => inbox_owner w (lower (strip a)) = None) before /\
    inbox_owner w (lower (strip addr)) = Some u.
Proof.
  induction l as [| a l IH]; simpl.
  - split; [discriminate |].
    intros (before & addr & after & E & _). destruct before; discriminate.
  - destruct (inbox_owner w (lower (strip a))) as [u0 |] eqn:Ho.
    + split.
      * intros H. injection H as <-. exists [], a, l. auto.
      * intros (before & addr & after & E & Hb & Ha).
        destruct before as [| b before]; simpl in E; injection E as <- ->.
        -- congruence.
        -- inversion Hb; subst. congruence.
    + rewrite IH. split.
      * intros (before & addr & after & -> & Hb & Ha).
        exists (a :: before), addr, after. auto.
      * intros (before & addr & after & E & Hb & Ha).
        destruct before as [| b before]; simpl in E; injection E as <- ->.
        -- congruence.
        -- inversion Hb; subst. exists before, addr, after. auto.
Qed.

(** X19: the owner lookup takes the first recipient that has one: with no
    [email_to], or an empty one, there is no owner; otherwise the owner is
    that of the first comma-separated recipient (trimmed, lowercased) for
    which an inbox member exists, every recipient before it having none;
    and the owner returned is a member of an inbox whose address is the
    recipient's, letter case aside. *)
Theorem _get_owner_for_inbox_first_match (w : World) :
  _get_owner_for_inbox w None = None
  /\ _get_owner_for_inbox w (Some "") = None
  /\ (forall (s : string) (u : uuid),
        _get_owner_for_inbox w (Some s) = Some u <->
        s <> "" /\
        exists before addr after,
          split_comma s = before ++ addr :: after /\
          Forall (fun a => forall u', ~ has_member w (lower (strip a)) u') before /\
          inbox_owner w (lower (strip addr)) = Some u)
  /\ (forall (s : string) (u : uuid),
        _get_owner_for_inbox w (Some s) = Some u ->
        exists addr, In addr (split_comma s) /\
                     has_member w (lower (strip addr)) u).
Proof.
  assert (Hiff : forall (s : string) (u : uuid),
        _get_owner_for_inbox w (Some s) = Some u <->
        s <> "" /\
        exists before addr after,
          split_comma s = before ++ addr :: after /\
          Forall (fun a => forall u', ~ has_member w (lower (strip a)) u') before /\
          inbox_owner w (lower (strip addr)) = Some u).
  { intros s u. unfold _get_owner_for_inbox.
    destruct (String.eqb_spec s "") as [-> | Hne].
    - split; [discriminate | intros [H _]; now elim H].
    - rewrite first_owner_some. split.
      + intros (before & addr & after & E & Hb & Ha). split; [exact Hne |].
        exists before, addr, after. repeat split; trivial.
        eapply Forall_impl; [| exact Hb]. intros a. apply inbox_owner_none.
      + intros (_ & before & addr & after & E & Hb & Ha).
        exists before, addr, after. repeat split; trivial.
        eapply Forall_impl; [| exact Hb]. intros a. apply inbox_owner_none. }
  split; [reflexivity |]. split; [reflexivity |]. split; [exact Hiff |].
  intros s u H. apply Hiff in H.
  destruct H as (_ & before & addr & after & E & _ & Ha).
  exists addr. split; [rewrite E; apply in_or_app; right; now left |].
  now apply inbox_owner_member.
Qed.

Lemma split_comma_app (a rest : string) :
  no_comma a = true ->
  split_comma (a ++ "," ++ rest) = a :: split_comma rest.
Proof.
  induction a as [| c a IH]; simpl; [reflexivity |].
  intros H. apply andb_true_iff in H. destruct H as [Hc Ha].
  apply negb_true_iff in Hc. rewrite Hc.
  change (String "," rest) with ("," ++ rest)%string. now rewrite (IH Ha).
Qed.

Lemma split_comma_single (a : string) : no_comma a = true -> split_comma a = [a].
Proof.
  induction a as [| c a IH]; simpl; [reflexivity |].
  intros H. apply andb_true_iff in H. destruct H as [Hc Ha].
  apply negb_true_iff in Hc. now rewrite Hc, (IH Ha).
Qed.

Lemma strip_leading_space (s : string) : strip (String " " s) = strip s.
Proof. reflexivity. Qed.

Lemma split_join_addresses (a : string) (rest : list string) :
  Forall (fun x => no_comma x = true /\ strip x = x) (a :: rest) ->
  map strip (split_comma (join_comma_space (a :: rest))) = a :: rest.
Proof.
  revert a. induction rest as [| b rest IH]; intros a H.
  - inversion H as [| ? ? [Hc Hs] _]; subst. simpl.
    rewrite (split_comma_single _ Hc). simpl. now rewrite Hs.
  - inversion H as [| ? ? [Hc Hs] Hrest]; subst.
    specialize (IH b Hrest).
    change (join_comma_space (a :: b :: rest))
      with (a ++ "," ++ String " " (join_comma_space (b :: rest)))%string.
    rewrite (@split_comma_app a _ Hc). cbn [map]. rewrite Hs. f_equal.
    cbn [split_comma]. change (Ascii.eqb " " ",") with false. cbv iota.
    destruct (split_comma (join_comma_space (b :: rest))) as [| p ps];
      [discriminate IH |].
    cbn [map] in *. now rewrite strip_leading_space.
Qed.

(** X20: the recipients survive the trip through [email_to]: for a list of
    addresses without commas or surrounding white space, splitting
    [", ".join(addresses)] at the commas and trimming each piece gives the
    list back, so the owner looked up from that [email_to] is the owner of
    the first address of the list that has one. *)
Theorem join_then_owner_lookup (w : World) (a : string) (rest : list string) :
  Forall (fun x => no_comma x = true /\ strip x = x) (a :: rest) ->
  map strip (split_comma (join_comma_space (a :: rest))) = a :: rest
  /\ (join_comma_space (a :: rest) <> "" ->
      _get_owner_for_inbox w (Some (join_comma_space (a :: rest)))
      = first_owner w (a :: rest)).
Proof.
  intros H. pose proof (split_join_addresses H) as Hsplit.
  split; [exact Hsplit |].
  intros Hne. unfold _get_owner_for_inbox.
  apply String.eqb_neq in Hne. rewrite Hne.
  apply first_owner_ext.
  rewrite <- (map_map strip lower), Hsplit.
  rewrite <- (map_map strip lower). f_equal.
  rewrite <- (map_id (a :: rest)) at 1. apply map_ext_in.
  intros x Hx. rewrite Forall_forall in H. symmetry. now apply H.
Qed.

Lemma join_then_owner_lookup_witness :
  _get_owner_for_inbox inbox_world (Some "bob@y.com, SUPPORT@x.com") = Some 10.
Proof.
  destruct (@join_then_owner_lookup inbox_world "bob@y.com" [ "SUPPORT@x.com" ])
    as [_ H].
  - repeat constructor.
  - exact (H ltac:(discriminate)).
Defined.

(** ** Periodic sync loop: bounds and checkpoint names *)

Lemma backoff_within (base max ce : Z) :
  (0 < base <= max)%Z -> (1 <= ce)%Z ->
  (base <= Z.min (base * 2 ^ ce) max <= max)%Z.
Proof.
  intros Hb Hc.
  assert (1 <= 2 ^ ce)%Z by (apply Z.pow_le_mono_r with (b := 0%Z) (c := ce) (a := 2%Z); lia).
  split; [apply Z.min_glb; nia | apply Z.le_min_r].
Qed.

(** X21: when 0 < base_interval <= max_interval, every sleep of the sync
    loop lasts between base_interval and max_interval seconds, whatever the
    sequence of successes and failures; each iteration makes one sync step
    and one sleep, and the error count never goes below zero. *)
Theorem resend_scheduler_sleep_bounds (params : SchedulerParams)
    (results : list pydict) :
  (0 < base_interval params <= max_interval params)%Z ->
  forall st : LoopState,
    (0 <= consecutive_errors st)%Z ->
    let run := resend_scheduler_from params st results in
    Forall (fun s => (base_interval params <= s <= max_interval params)%Z)
           (sleeps (snd run))
    /\ List.length (sleeps (snd run)) = List.length results
    /\ List.length (snd run) = 2 * List.length results
    /\ iteration (fst run) = iteration st + List.length results
    /\ (0 <= consecutive_errors (fst run) <= consecutive_errors st
                                             + Z.of_nat (List.length results))%Z.
Proof.
  intros Hb. induction results as [| result results IH]; intros st Hce.
  - simpl. repeat split; auto; lia.
  - cbn [resend_scheduler_from].
    destruct (resend_scheduler_iteration params st result) as [st1 calls] eqn:E1.
    assert (H1 : iteration st1 = S (iteration st)
                 /\ (0 <= consecutive_errors st1 <= consecutive_errors st + 1)%Z
                 /\ List.length calls = 2
                 /\ exists s, sleeps calls = [s] /\
                              (base_interval params <= s <= max_interval params)%Z).
    { unfold resend_scheduler_iteration in E1.
      destruct (truthy (dict_get result "error" PNone));
        injection E1 as <- <-; cbn; repeat split; try lia;
        eexists; (split; [reflexivity |]).
      - apply backoff_within; lia.
      - lia. }
    destruct H1 as (Hi & Hc1 & Hl & s & Hs & Hsb).
    specialize (IH st1 (proj1 Hc1)).
    destruct (resend_scheduler_from params st1 results) as [st2 calls'].
    cbn [fst snd] in *. destruct IH as (IH1 & IH2 & IH3 & IH4 & IH5).
    rewrite sleeps_app, Hs, !length_app, Hl. cbn [app List.length].
    repeat split; try lia.
    now constructor.
Qed.

Lemma resend_scheduler_sleep_bounds_witness :
  Forall (fun s => (60 <= s <= 3600)%Z)
    (sleeps (snd (resend_scheduler
                    {| interval_seconds := Some 60%Z;
                       max_interval_seconds := Some 3600%Z |}
                    (repeat sync_error 8 ++ [ [] ])))).
Proof.
  refine (proj1 (@resend_scheduler_sleep_bounds
                   {| interval_seconds := Some 60%Z;
                      max_interval_seconds := Some 3600%Z |}
                   (repeat sync_error 8 ++ [ [] ]) _
                   {| iteration := 0; consecutive_errors := 0%Z |} _)).
  - unfold base_interval, max_interval. simpl. lia.
  - simpl. lia.
Defined.

Lemma nat_str_inj (n m : nat) : nat_str n = nat_str m -> n = m.
Proof.
  unfold nat_str. intros H.
  apply Unsigned.to_uint_inj.
  apply (f_equal NilEmpty.uint_of_string) in H.
  rewrite !NilEmpty.usu in H. now injection H.
Qed.

Lemma resend_scheduler_names (params : SchedulerParams) (results : list pydict) :
  forall st : LoopState,
    Forall (fun c => exists i,
                iteration st < i /\
                (call_name c = ("sync-" ++ nat_str i)%string \/
                 call_name c = ("wait-" ++ nat_str i)%string))
           (snd (resend_scheduler_from params st results)).
Proof.
  induction results as [| result results IH]; intros st; [constructor |].
  cbn [resend_scheduler_from].
  destruct (resend_scheduler_iteration params st result) as [st1 calls] eqn:E1.
  assert (H1 : iteration st1 = S (iteration st) /\
               calls_named (S (iteration st)) calls).
  { unfold resend_scheduler_iteration in E1.
    destruct (truthy (dict_get result "error" PNone));
      injection E1 as <- <-;
      (split; [reflexivity | unfold calls_named; split; reflexivity]). }
  destruct H1 as [Hi Hn]. specialize (IH st1).
  destruct (resend_scheduler_from params st1 results) as [st2 calls'].
  cbn [snd] in *. apply Forall_app. split.
  - unfold calls_named in Hn. destruct calls as [| c1 [| c2 [| ? ?]]]; try contradiction.
    destruct Hn as [H1 H2]. repeat constructor;
      exists (S (iteration st)); split; auto.
  - eapply Forall_impl; [| exact IH]. intros c (i & Hlt & Hc).
    exists i. split; [lia | exact Hc].
Qed.

(** X22: no two context calls of a run share a checkpoint name: iteration
    [i] calls "sync-i" and then "wait-i", and the iteration number grows by
    one each turn, so the names the durable queue keys its checkpoints on
    are pairwise distinct. *)
Theorem resend_scheduler_names_distinct (params : SchedulerParams)
    (results : list pydict) (st : LoopState) :
  NoDup (map call_name (snd (resend_scheduler_from params st results))).
Proof.
  revert st. induction results as [| result results IH]; intros st; [constructor |].
  pose proof (resend_scheduler_names params results) as Hnames.
  cbn [resend_scheduler_from].
  destruct (resend_scheduler_iteration params st result) as [st1 calls] eqn:E1.
  assert (H1 : iteration st1 = S (iteration st) /\
               calls_named (S (iteration st)) calls).
  { unfold resend_scheduler_iteration in E1.
    destruct (truthy (dict_get result "error" PNone));
      injection E1 as <- <-;
      (split; [reflexivity | unfold calls_named; split; reflexivity]). }
  destruct H1 as [Hi Hn]. specialize (IH st1). specialize (Hnames st1).
  destruct (resend_scheduler_from params st1 results) as [st2 calls'].
  cbn [snd] in *.
  unfold calls_named in Hn. destruct calls as [| c1 [| c2 [| ? ?]]]; try contradiction.
  destruct Hn as [N1 N2]. cbn [map app]. rewrite N1, N2.
  assert (Hfar : forall k, k <= S (iteration st) ->
            ~ In ("sync-" ++ nat_str k)%string (map call_name calls') /\
            ~ In ("wait-" ++ nat_str k)%string (map call_name calls')).
  { intros k Hk. rewrite Forall_forall in Hnames.
    split; intros Hin; apply in_map_iff in Hin;
      destruct Hin as (c & Hc & Hin); apply Hnames in Hin;
      destruct Hin as (i & Hlt & [Hs | Hs]); rewrite Hs in Hc;
      simpl in Hc; try discriminate Hc;
      injection Hc as Hc; apply nat_str_inj in Hc; lia. }
  destruct (Hfar (S (iteration st)) (Nat.le_refl _)) as [F1 F2].
  constructor.
  - intros [H | H]; [discriminate H | contradiction].
  - constructor; assumption.
Qed.

(** ** Scheduler management: spawning twice, and the result list *)

Lemma scanned_assoc_set (db : QueueDB) (queue k : string) (rows : list Task) :
  scanned db queue -> scanned (assoc_set db k rows) queue.
Proof.
  intros (before & after & E & Hb). exists before, after.
  split; [exact E |]. intros q Hin. rewrite assoc_get_set.
  destruct (String.eqb k q); [discriminate | now apply Hb].
Qed.

(** X23: spawning is idempotent for a singleton scheduler that
    [get_running_schedulers] gets to see: when [spawn_scheduler] has
    spawned a singleton descriptor whose task name ends in ".scheduler" on
    one of the queues default, obsidian and email, the table of every queue
    read before that one existing, calling it again on the resulting queues
    spawns nothing and reports "already_running" for a task of that
    name. *)
Theorem spawn_scheduler_twice (db db' : QueueDB) (config : SchedulerConfig)
    (r : SpawnResult) :
  cfg_singleton config <> Some false ->
  ends_with ".scheduler" (cfg_task_name config) = true ->
  scanned db (config_queue config) ->
  spawn_scheduler db config = Ret (db', r) ->
  sr_spawned r = true ->
  exists row,
    spawn_scheduler db' config = Ret (db', already_running row) /\
    task_name row = cfg_task_name config /\ is_active row = true.
Proof.
  intros Hs He Hq Hspawn Hsp.
  assert (Hseen : seen_running db' (cfg_task_name config)).
  { unfold spawn_scheduler in Hspawn.
    destruct (if match cfg_singleton config with Some b => b | None => true end
              then assoc_get (get_running_schedulers db) (cfg_task_name config)
              else None) as [row |].
    - injection Hspawn as _ <-. discriminate Hsp.
    - unfold spawn in Hspawn.
      destruct (assoc_get db (config_queue config)) as [rows |] eqn:Hrows;
        [| discriminate Hspawn].
      cbn [bind fst snd] in Hspawn. injection Hspawn as <- _.
      eexists (config_queue config), _, _.
      split; [now apply scanned_assoc_set |].
      split; [now rewrite assoc_get_set, String.eqb_refl |].
      split; [apply in_or_app; right; now left |].
      repeat split. exact He. }
  apply get_running_schedulers_spec in Hseen. destruct Hseen as [row Hrow].
  exists row. split; [| now apply get_running_schedulers_row with (db := db')].
  unfold spawn_scheduler.
  destruct (cfg_singleton config) as [[|] |]; try congruence; now rewrite Hrow.
Qed.

Lemma spawn_scheduler_twice_witness :
  exists db' id row,
    spawn_scheduler empty_queues_db resend_descriptor
    = Ret (db', spawned "resend.scheduler" "email" id) /\
    spawn_scheduler db' resend_descriptor = Ret (db', already_running row).
Proof.
  destruct (@spawn_scheduler_twice empty_queues_db
              [ ("default", []); ("obsidian", []);
                ("email", [ {| task_id := 1; task_name := "resend.scheduler";
                               task_state := "pending"; task_attempts := 0 |} ]) ]
              resend_descriptor (spawned "resend.scheduler" "email" 1))
    as (row & H & _).
  - discriminate.
  - reflexivity.
  - exists [ "default"; "obsidian" ], []. split; [reflexivity |].
    intros q [<- | [<- | []]]; discriminate.
  - reflexivity.
  - reflexivity.
  - eexists _, 1, row. split; [reflexivity | exact H].
Defined.

(** X24: [spawn_all_schedulers] answers for every descriptor, in order:
    when it returns, the result list has one entry per discovered
    descriptor, each carrying its own config; the entry of a disabled
    descriptor is the "disabled" one; and if no entry says spawned, the
    queues are exactly as they were. *)
Theorem spawn_all_schedulers_results (schedulers : list SchedulerConfig) :
  forall (db db' : QueueDB) (results : list SpawnResult),
    spawn_all_schedulers db schedulers = Ret (db', results) ->
    map sr_config results = map Some schedulers
    /\ Forall2 (fun config r => cfg_enabled config = Some false -> r = disabled config)
               schedulers results
    /\ (Forall (fun r => sr_spawned r = false) results -> db' = db).
Proof.
  induction schedulers as [| config rest IH]; intros db db' results H.
  - simpl in H. injection H as <- <-. repeat split; constructor.
  - simpl in H.
    destruct (negb (match cfg_enabled config with Some b => b | None => true end))
      eqn:En.
    + destruct (spawn_all_schedulers db rest) as [[db1 rs] | e] eqn:Hrest;
        [| discriminate H].
      cbn [bind fst snd] in H. injection H as <- <-.
      destruct (IH _ _ _ Hrest) as (I1 & I2 & I3).
      split; [simpl; now rewrite I1 |].
      split; [constructor; [reflexivity | exact I2] |].
      intros Hall. inversion Hall; subst. auto.
    + destruct (spawn_scheduler db config) as [[db1 r1] | e] eqn:H1;
        [| discriminate H].
      cbn [bind fst snd] in H.
      destruct (spawn_all_schedulers db1 rest) as [[db2 rs] | e] eqn:Hrest;
        [| discriminate H].
      cbn [bind fst snd] in H. injection H as <- <-.
      destruct (IH _ _ _ Hrest) as (I1 & I2 & I3).
      split; [simpl; now rewrite I1 |].
      split.
      * constructor; [| exact I2]. intros Hd. rewrite Hd in En. discriminate En.
      * intros Hall. inversion Hall as [| ? ? Hr Hrs]; subst.
        rewrite (I3 Hrs). cbn [sr_spawned with_config] in Hr.
        unfold spawn_scheduler in H1.
        destruct (if match cfg_singleton config with Some b => b | None => true end
                  then assoc_get (get_running_schedulers db) (cfg_task_name config)
                  else None) as [row |].
        -- now injection H1 as <- _.
        -- destruct (spawn db (cfg_task_name config) _ (config_queue config))
             as [[db3 id] | e]; [| discriminate H1].
           cbn [bind fst snd] in H1. injection H1 as _ <-. discriminate Hr.
Qed.

Lemma spawn_all_schedulers_results_witness :
  map sr_config
    [ with_config resend_descriptor
        (already_running {| task_id := 1; task_name := "resend.scheduler";
                            task_state := "sleeping"; task_attempts := 1 |}) ]
  = map Some [ resend_descriptor ].
Proof.
  apply (@spawn_all_schedulers_results [ resend_descriptor ]
           running_scheduler_db running_scheduler_db).
  reflexivity.
Defined.

(** ** Reprocessing and batches *)




(** X26: [reprocess_event] on an id no event has returns
    [{error: "Event not found"}]; no event, rule or ActionLog row changes. *)
Theorem reprocess_event_not_found {RE : ReEngine} {EXT : Externals}
    (w : World) (event_id : uuid) :
  (forall e, In e (events w) -> ev_id e <> event_id) ->
  snd (reprocess_event w event_id) = Ret [ ("error", PStr "Event not found") ] /\
  events (fst (reprocess_event w event_id)) = events w /\
  rules (fst (reprocess_event w event_id)) = rules w /\
  actions (fst (reprocess_event w event_id)) = actions w.
Proof.
  intros Hno. unfold reprocess_event. cbn [utcnow].
  set (w1 := update_event event_id (with_reset (clock w)) _).
  assert (He : events w1 = events w).
  { subst w1. cbn [update_event set_events events].
    rewrite <- (map_id (events w)) at 2. apply map_ext_in.
    intros e Hin. destruct (Nat.eqb_spec (ev_id e) event_id) as [E | E];
      [now apply Hno in Hin | reflexivity]. }
  assert (Hf : fetch_event w1 event_id = None).
  { unfold fetch_event. rewrite He.
    destruct (find _ (events w)) as [row |] eqn:F; [| reflexivity].
    apply find_some in F. destruct F as [Hin E]. apply Nat.eqb_eq in E.
    now apply Hno in Hin. }
  unfold process_event. rewrite Hf. cbn [fst snd].
  split; [reflexivity |]. split; [exact He |]. split; reflexivity.
Qed.

Lemma reprocess_event_not_found_witness :
  snd (@reprocess_event literal_re working_ext support_world 42)
  = Ret [ ("error", PStr "Event not found") ] /\
  events (fst (@reprocess_event literal_re working_ext support_world 42))
  = events support_world /\
  rules (fst (@reprocess_event literal_re working_ext support_world 42))
  = rules support_world /\
  actions (fst (@reprocess_event literal_re working_ext support_world 42))
  = actions support_world.
Proof.
  apply (@reprocess_event_not_found literal_re working_ext support_world 42).
  intros e [<- | []]. discriminate.
Defined.

(** *** The batch: counting *)

Lemma process_pending_step_world {RE : ReEngine} {EXT : Externals}
    (w : World) (t : Tally) (event_id : uuid) :
  fst (process_pending_step (w, t) event_id) = fst (process_event w event_id).
Proof.
  unfold process_pending_step.
  destruct (process_event w event_id) as [w' [result | e]]; [| reflexivity].
  now destruct (py_eq _ _).
Qed.

Lemma process_pending_step_tally {RE : ReEngine} {EXT : Externals}
    (acc : World * Tally) (event_id : uuid) :
  exists result,
    results (snd (process_pending_step acc event_id))
    = results (snd acc) ++ [result] /\
    processed (snd (process_pending_step acc event_id))
    = processed (snd acc) + (if reports_processed result then 1 else 0) /\
    failed (snd (process_pending_step acc event_id))
    = failed (snd acc) + (if reports_processed result then 0 else 1).
Proof.
  destruct acc as [w t]. unfold process_pending_step.
  destruct (process_event w event_id) as [w' [result | e]].
  - exists (PDict result). unfold reports_processed.
    destruct (py_eq _ _); cbn [snd count_processed count_failed results
                                processed failed];
      repeat split; lia.
  - eexists. cbn [snd count_failed results processed failed].
    split; [reflexivity |]. cbn. split; lia.
Qed.

Lemma process_pending_loop_tally {RE : ReEngine} {EXT : Externals}
    (rows : list uuid) :
  forall acc : World * Tally,
  exists added,
    results (snd (fold_left process_pending_step rows acc))
    = results (snd acc) ++ added /\
    List.length added = List.length rows /\
    processed (snd (fold_left process_pending_step rows acc))
    = processed (snd acc) + List.length (filter reports_processed added) /\
    failed (snd (fold_left process_pending_step rows acc))
    = failed (snd acc)
      + List.length (filter (fun r => negb (reports_processed r)) added).
Proof.
  induction rows as [| id rows IH]; intros acc; cbn [fold_left].
  - exists []. rewrite app_nil_r. cbn. repeat split; lia.
  - destruct (process_pending_step_tally acc id) as (result & Hr & Hp & Hf).
    destruct (IH (process_pending_step acc id)) as (added & Hr' & Hl & Hp' & Hf').
    exists (result :: added).
    rewrite Hr', Hr, <- app_assoc, Hp', Hp, Hf', Hf. cbn [app List.length filter].
    split; [reflexivity |]. split; [now rewrite Hl |].
    destruct (reports_processed result); cbn [negb List.length]; split; lia.
Qed.

Lemma filter_split_length {A : Type} (p : A -> bool) (l : list A) :
  List.length (filter p l) + List.length (filter (fun a => negb (p a)) l)
  = List.length l.
Proof.
  induction l as [| a l IH]; [reflexivity |]. cbn [filter].
  destruct (p a); cbn [negb List.length]; lia.
Qed.

Lemma pending_rows_limit (w : World) (limit : nat) :
  List.length (pending_rows w limit) <= limit.
Proof. unfold pending_rows. rewrite length_map. apply firstn_le_length. Qed.

(** X27: the batch accounts for every selected row exactly once: the
    counters [processed] and [failed] add up to [total], which is the
    number of entries of [results] and never exceeds [limit]; [processed]
    counts the results that report the status "processed", and every other
    outcome (unmatched, a failed action, an error result, an exception) is
    counted as failed. *)
Theorem process_pending_events_tally {RE : ReEngine} {EXT : Externals}
    (w : World) (limit : nat) :
  exists p f rs,
    snd (process_pending_events w limit)
    = [ ("processed", PInt (Z.of_nat p));
        ("failed", PInt (Z.of_nat f));
        ("total", PInt (Z.of_nat (p + f)));
        ("results", PList rs) ] /\
    List.length rs = p + f /\
    p + f <= limit /\
    p = List.length (filter reports_processed rs) /\
    f = List.length (filter (fun r => negb (reports_processed r)) rs).
Proof.
  unfold process_pending_events, process_pending_loop.
  pose proof (pending_rows_limit w limit) as Hlim.
  set (rows := pending_rows w limit) in *.
  destruct (process_pending_loop_tally rows
              (w, {| processed := 0; failed := 0; results := [] |}))
    as (added & Hr & Hl & Hp & Hf).
  destruct (fold_left process_pending_step rows _) as [w' t].
  cbn [snd results processed failed app] in *.
  pose proof (filter_split_length reports_processed added) as Hsplit.
  exists (processed t), (failed t), (results t).
  cbn [snd]. rewrite Hr.
  assert (Htot : processed t + failed t = List.length rows) by lia.
  rewrite Htot. split; [reflexivity |]. repeat split; lia.
Qed.

(** *** The batch: which rows it leaves pending *)

Lemma rule_leb_kept (a a' b b' : Rule) :
  rule_kept a a' -> rule_kept b b' -> rule_leb a' b' = rule_leb a b.
Proof.
  unfold rule_kept, rule_leb.
  intros (_ & _ & _ & Pa & _ & _ & _ & Ca & _) (_ & _ & _ & Pb & _ & _ & _ & Cb & _).
  now rewrite Pa, Pb, Ca, Cb.
Qed.

Lemma insert_rule_kept (r r' : Rule) (l l' : list Rule) :
  rule_kept r r' -> Forall2 rule_kept l l' ->
  Forall2 rule_kept (insert_rule r l) (insert_rule r' l').
Proof.
  intros Hr H. induction H as [| x x' l l' Hx H IH]; cbn [insert_rule].
  - constructor; [exact Hr | constructor].
  - rewrite (rule_leb_kept Hr Hx).
    destruct (rule_leb r x).
    + constructor; [exact Hr |]. constructor; assumption.
    + constructor; assumption.
Qed.

Lemma order_rules_kept (l l' : list Rule) :
  Forall2 rule_kept l l' -> Forall2 rule_kept (order_rules l) (order_rules l').
Proof.
  intros H. induction H; cbn [order_rules]; [constructor |].
  now apply insert_rule_kept.
Qed.

Lemma get_enabled_rules_kept (w w' : World) :
  Forall2 rule_kept (rules w) (rules w') ->
  Forall2 rule_kept (get_enabled_rules w) (get_enabled_rules w').
Proof.
  intros H. unfold get_enabled_rules. apply order_rules_kept.
  induction H as [| x x' l l' Hx H IH]; cbn [filter]; [constructor |].
  assert (E : rule_enabled x' = rule_enabled x) by apply Hx.
  rewrite E. destruct (rule_enabled x); [constructor |]; auto.
Qed.

(** Routing reads nothing of a rule that processing changes. *)
Lemma route_event_kept {RE : ReEngine} (w w' : World) (event : pydict) :
  Forall2 rule_kept (rules w) (rules w') ->
  route_event w' event = route_event w event.
Proof.
  intros H. apply get_enabled_rules_kept in H. unfold route_event.
  induction H as [| x x' l l' Hx H IH]; [reflexivity |].
  cbn [first_match].
  destruct Hx as (Hi & Hn & _ & _ & Hc & Ha & Hg & _).
  assert (Hm : rule_matches event x' = rule_matches event x)
    by (unfold rule_matches; now rewrite Hc).
  assert (Ho : route_of x' = route_of x)
    by (unfold route_of; now rewrite Hi, Hn, Ha, Hg).
  now rewrite Hm, Ho, IH.
Qed.

Lemma process_event_rules_kept {RE : ReEngine} {EXT : Externals}
    (w : World) (event_id : uuid) :
  Forall2 rule_kept (rules w) (rules (fst (process_event w event_id))).
Proof.
  destruct (process_event_cases w event_id)
    as [H | [H | [H | [(row & Hf & Hs & Hr) | (row & rr & Hf & Hs & Hr)]]]].
  1-3: rewrite process_event_untouched by auto; apply Forall2_same, rule_kept_refl.
  - rewrite (@process_event_unmatched_eq RE EXT w event_id row Hf Hs Hr).
    apply Forall2_same, rule_kept_refl.
  - rewrite (@process_event_matched_eq RE EXT w event_id row rr Hf Hs Hr).
    cbn [fst update_event set_events rules utcnow snd].
    match goal with |- context [execute_action ?a ?b ?c ?d ?e ?f] =>
      destruct (execute_action_frame a b c d e f) as (Fr & _)
    end.
    rewrite Fr. cbn [rules update_rule set_rules utcnow snd update_event set_events].
    apply Forall2_map_self. intros r.
    destruct (rule_id r =? rr_rule_id rr); [| apply rule_kept_refl].
    unfold rule_kept. simpl. repeat split; lia.
Qed.

Lemma drained_update (id : uuid) (f : Event -> Event) (e : Event) :
  (forall x, ev_id (f x) = ev_id x) ->
  (forall x, In (ev_status (f x)) terminal_statuses) ->
  drained [id] e (if ev_id e =? id then f e else e).
Proof.
  intros Hid Hst. unfold drained.
  destruct (Nat.eqb_spec (ev_id e) id) as [E | E].
  - split; [apply Hid |]. split; [intros _; apply Hst |].
    intros Hn. elim Hn. now left.
  - split; [reflexivity |]. split; [| reflexivity].
    intros [Hin | []]. now elim E.
Qed.

(** One routed event: that row ends in a terminal status, no other moves. *)
Lemma process_event_drains_one {RE : ReEngine} {EXT : Externals}
    (w : World) (event_id : uuid) (row : Event) :
  fetch_event w event_id = Some row -> ev_status row = "pending" ->
  returns (route_event w (event_dict row)) ->
  Forall2 (drained [event_id]) (events w)
    (events (fst (process_event w event_id))).
Proof.
  intros Hf Hs [[rr |] Hr].
  - rewrite (@process_event_matched_eq RE EXT w event_id row rr Hf Hs Hr).
    cbn [fst update_event set_events events utcnow snd].
    match goal with |- context [execute_action ?a ?b ?c ?d ?e ?f] =>
      destruct (execute_action_frame a b c d e f) as (_ & _ & v & Fe)
    end.
    rewrite Fe.
    cbn [events update_rule set_rules utcnow snd update_event set_events].
    rewrite !map_map. apply Forall2_map_self. intros e.
    match goal with |- context [with_status ?s ?t] =>
      set (status := s);
      assert (Hst : In status terminal_statuses)
        by (subst status; unfold terminal_statuses; simpl;
            destruct (truthy _); auto);
      clearbody status; generalize t
    end.
    intros t. unfold drained.
    destruct (ev_id e =? event_id) eqn:E.
    + cbn [ev_id with_routing]. rewrite E.
      cbn [ev_id with_routing with_route_result]. rewrite E.
      cbn [ev_id with_routing with_route_result with_status ev_status].
      split; [reflexivity |]. split; [intros _; exact Hst |].
      intros Hn. elim Hn. left. symmetry. now apply Nat.eqb_eq.
    + rewrite !E. split; [reflexivity |]. split; [| reflexivity].
      intros [Hin | []]. apply Nat.eqb_neq in E. now elim E.
  - rewrite (@process_event_unmatched_eq RE EXT w event_id row Hf Hs Hr).
    cbn [fst update_event set_events events utcnow snd].
    apply Forall2_map_self. intros e. apply drained_update; [reflexivity |].
    intros x. unfold terminal_statuses. simpl. auto.
Qed.

Lemma insert_event_perm (e : Event) (l : list Event) :
  Permutation (insert_event e l) (e :: l).
Proof.
  induction l as [| x l IH]; cbn [insert_event]; [reflexivity |].
  destruct (ev_created_at e <=? ev_created_at x); [reflexivity |].
  rewrite IH. apply perm_swap.
Qed.

Lemma order_events_perm (l : list Event) : Permutation (order_events l) l.
Proof.
  induction l as [| x l IH]; cbn [order_events]; [reflexivity |].
  rewrite insert_event_perm. now constructor.
Qed.

Lemma In_firstn {A : Type} (n : nat) (l : list A) (a : A) :
  In a (firstn n l) -> In a l.
Proof.
  intros H. rewrite <- (firstn_skipn n l). apply in_or_app. now left.
Qed.

Lemma pending_rows_in (w : World) (limit : nat) (id : uuid) :
  In id (pending_rows w limit) ->
  exists e, In e (events w) /\ ev_id e = id /\ ev_status e = "pending".
Proof.
  unfold pending_rows. intros Hin. apply in_map_iff in Hin.
  destruct Hin as (e & He & Hin). exists e.
  apply In_firstn in Hin.
  apply (Permutation_in _ (order_events_perm _)) in Hin.
  apply filter_In in Hin. destruct Hin as [Hin Hp].
  split; [exact Hin |]. split; [exact He |]. now apply String.eqb_eq.
Qed.

Lemma filter_keeps_ids_unique (keep : Event -> bool) (es : list Event) :
  NoDup (map ev_id es) -> NoDup (map ev_id (filter keep es)).
Proof.
  intros Hd. induction es as [| e es IH]; cbn [map filter] in *; [constructor |].
  inversion Hd as [| x xs Hn Hd']; subst.
  destruct (keep e); [| now apply IH]. cbn [map]. constructor; [| now apply IH].
  intros Hin. apply Hn. apply in_map_iff in Hin.
  destruct Hin as (b & Hb & Hin). apply filter_In in Hin.
  apply in_map_iff. exists b. tauto.
Qed.

Lemma pending_rows_nodup (w : World) (limit : nat) :
  ids_unique w -> NoDup (pending_rows w limit).
Proof.
  unfold ids_unique, pending_rows. intros H.
  apply (filter_keeps_ids_unique is_pending) in H.
  apply (Permutation_NoDup
           (Permutation_map ev_id
              (Permutation_sym (order_events_perm (filter is_pending (events w))))))
    in H.
  rewrite <- (firstn_skipn limit (order_events _)), map_app in H.
  now apply NoDup_app_remove_r in H.
Qed.

Lemma pending_rows_all (w : World) (limit : nat) (e : Event) :
  List.length (filter is_pending (events w)) <= limit ->
  In e (events w) -> ev_status e = "pending" ->
  In (ev_id e) (pending_rows w limit).
Proof.
  intros Hl Hin Hs. unfold pending_rows. apply in_map.
  rewrite firstn_all2.
  - apply (Permutation_in _ (Permutation_sym (order_events_perm _))).
    apply filter_In. split; [exact Hin |]. unfold is_pending. now rewrite Hs.
  - now rewrite (Permutation_length (order_events_perm _)).
Qed.

Lemma fetch_unique (w : World) (e : Event) :
  ids_unique w -> In e (events w) -> fetch_event w (ev_id e) = Some e.
Proof.
  unfold ids_unique, fetch_event. induction (events w) as [| x l IH];
    cbn [map In find]; intros Hd Hin; [contradiction |].
  inversion Hd as [| y ys Hn Hd']; subst.
  destruct Hin as [-> | Hin]; [now rewrite Nat.eqb_refl |].
  destruct (Nat.eqb_spec (ev_id x) (ev_id e)) as [E | E]; [| now apply IH].
  elim Hn. rewrite E. now apply in_map.
Qed.

Lemma pending_rows_fetch (w : World) (limit : nat) (id : uuid) :
  ids_unique w -> In id (pending_rows w limit) ->
  exists row, In row (events w) /\ fetch_event w id = Some row /\
              ev_status row = "pending".
Proof.
  intros Hu Hin. destruct (@pending_rows_in w limit id Hin) as (e & He & <- & Hs).
  exists e. split; [exact He |]. split; [now apply fetch_unique | exact Hs].
Qed.

Lemma find_drained_other (ids : list uuid) (id : uuid) (l l' : list Event) :
  Forall2 (drained ids) l l' -> ~ In id ids ->
  find (fun e => ev_id e =? id) l' = find (fun e => ev_id e =? id) l.
Proof.
  intros H Hn. induction H as [| b a l l' (Hid & _ & Hsame) H IH];
    cbn [find]; [reflexivity |].
  rewrite Hid. destruct (Nat.eqb_spec (ev_id b) id) as [E | E]; [| exact IH].
  rewrite Hsame; [reflexivity |]. now rewrite E.
Qed.

Lemma Forall2_compose {A : Type} (R S T : A -> A -> Prop) (l1 l2 l3 : list A) :
  (forall a b c, R a b -> S b c -> T a c) ->
  Forall2 R l1 l2 -> Forall2 S l2 l3 -> Forall2 T l1 l3.
Proof.
  intros H H12. revert l3. induction H12; intros l3 H23; inversion H23; subst;
    constructor; eauto.
Qed.

Lemma Forall2_In_r {A : Type} (R : A -> A -> Prop) (l l' : list A) (a : A) :
  Forall2 R l l' -> In a l' -> exists b, In b l /\ R b a.
Proof.
  intros H. induction H as [| x y l l' Hxy H IH]; cbn [In]; [contradiction |].
  intros [<- | Hin]; [exists x; auto |].
  destruct (IH Hin) as (b & Hb & Hr). exists b. auto.
Qed.

Lemma drained_cons (id : uuid) (ids : list uuid) (a b c : Event) :
  ~ In id ids -> drained [id] a b -> drained ids b c -> drained (id :: ids) a c.
Proof.
  unfold drained. intros Hn (Hab & Tb & Sb) (Hbc & Tc & Sc).
  split; [congruence |]. split.
  - intros Hin. destruct (in_dec Nat.eq_dec (ev_id a) ids) as [Hr | Hr].
    + apply Tc. now rewrite Hab.
    + destruct Hin as [E | Hin]; [| contradiction].
      rewrite Sc by (now rewrite Hab). apply Tb. now left.
  - intros Hno. rewrite Sc, Sb; [reflexivity | |].
    + intros [E | []]. apply Hno. now left.
    + rewrite Hab. intros Hin. apply Hno. now right.
Qed.

Lemma process_pending_loop_drains {RE : ReEngine} {EXT : Externals}
    (ids : list uuid) :
  forall (w : World) (t : Tally),
  NoDup ids ->
  (forall id, In id ids ->
     exists row, fetch_event w id = Some row /\ ev_status row = "pending" /\
                 returns (route_event w (event_dict row))) ->
  Forall2 (drained ids) (events w)
    (events (fst (fold_left process_pending_step ids (w, t)))).
Proof.
  induction ids as [| id ids IH]; intros w t Hd Hpre; cbn [fold_left fst].
  - apply Forall2_same. intros a. unfold drained. cbn [In]. tauto.
  - inversion Hd as [| x xs Hn Hd']; subst.
    destruct (Hpre id (or_introl eq_refl)) as (row & Hf & Hs & Hr).
    pose proof (process_event_drains_one w id Hf Hs Hr) as Hone.
    pose proof (process_event_rules_kept w id) as Hrules.
    pose proof (process_pending_step_world w t id) as Hw.
    destruct (process_pending_step (w, t) id) as [w1 t1]. cbn [fst] in Hw.
    subst w1.
    eapply Forall2_compose; [| exact Hone | apply (IH _ t1 Hd')].
    + intros a b c. now apply drained_cons.
    + intros id' Hin. destruct (Hpre id' (or_intror Hin)) as (row' & Hf' & Hs' & Hr').
      exists row'. split; [| split; [exact Hs' |]].
      * unfold fetch_event. rewrite (@find_drained_other [id] id' _ _ Hone); [exact Hf' |].
        intros [E | []]. subst id'. contradiction.
      * now rewrite (@route_event_kept RE w _ (event_dict row') Hrules).
Qed.

(** X28: a batch drains the pending rows.  With unique event ids and every
    pending event routable without an exception, each selected event is
    left in one of the statuses unmatched, processed or failed, and every
    other event is left exactly as it was; so when [limit] covers the pending
    rows, no event is pending afterwards. *)
Theorem process_pending_events_drains {RE : ReEngine} {EXT : Externals}
    (w : World) (limit : nat) :
  ids_unique w ->
  (forall e, In e (events w) -> ev_status e = "pending" ->
             returns (route_event w (event_dict e))) ->
  let w' := fst (process_pending_events w limit) in
  Forall2 (drained (pending_rows w limit)) (events w) (events w') /\
  (List.length (filter is_pending (events w)) <= limit ->
   forall e, In e (events w') -> ev_status e <> "pending").
Proof.
  intros Hu Hret w'.
  assert (Hw : w' = fst (process_pending_loop w (pending_rows w limit))).
  { subst w'. unfold process_pending_events.
    now destruct (process_pending_loop w (pending_rows w limit)). }
  assert (Hdr : Forall2 (drained (pending_rows w limit)) (events w) (events w')).
  { rewrite Hw. unfold process_pending_loop.
    apply process_pending_loop_drains; [now apply pending_rows_nodup |].
    intros id Hin.
    destruct (@pending_rows_fetch w limit id Hu Hin) as (row & Hrow & Hf & Hs).
    exists row. auto. }
  split; [exact Hdr |].
  intros Hl e Hin.
  destruct (@Forall2_In_r _ _ _ _ e Hdr Hin) as (b & Hb & _ & Ht & Hsame).
  destruct (in_dec Nat.eq_dec (ev_id b) (pending_rows w limit)) as [Hr | Hr].
  - specialize (Ht Hr). unfold terminal_statuses in Ht. cbn [In] in Ht.
    destruct Ht as [<- | [<- | [<- | []]]]; discriminate.
  - rewrite (Hsame Hr). intros Hp. apply Hr. now apply pending_rows_all.
Qed.

Lemma process_pending_events_drains_witness :
  let w' := fst (@process_pending_events literal_re working_ext batch_world 10) in
  Forall2 (drained (pending_rows batch_world 10)) (events batch_world) (events w') /\
  (List.length (filter is_pending (events batch_world)) <= 10 ->
   forall e, In e (events w') -> ev_status e <> "pending").
Proof.
  apply (@process_pending_events_drains literal_re working_ext batch_world 10).
  - unfold ids_unique. simpl. repeat constructor; simpl; intuition discriminate.
  - intros e [<- | [<- | []]] _; eexists; reflexivity.
Defined.

(** *** The batch: events no rule matches *)

Lemma fetch_update_event_other (w : World) (id id' : uuid) (f : Event -> Event) :
  id' <> id -> (forall e, ev_id (f e) = ev_id e) ->
  fetch_event (update_event id f w) id' = fetch_event w id'.
Proof.
  intros Hne Hid. unfold fetch_event, update_event. cbn [events set_events].
  induction (events w) as [| e l IH]; cbn [map find]; [reflexivity |].
  destruct (Nat.eqb_spec (ev_id e) id) as [E | E].
  - rewrite Hid. rewrite IH.
    destruct (Nat.eqb_spec (ev_id e) id') as [E' | E']; [| reflexivity].
    elim Hne. congruence.
  - now rewrite IH.
Qed.

Lemma process_pending_loop_unmatched {RE : ReEngine} {EXT : Externals}
    (ids : list uuid) :
  forall (w : World) (t : Tally),
  NoDup ids ->
  (forall id, In id ids ->
     exists row, fetch_event w id = Some row /\ ev_status row = "pending" /\
                 route_event w (event_dict row) = Ret None) ->
  snd (fold_left process_pending_step ids (w, t))
  = {| processed := processed t;
       failed := failed t + List.length ids;
       results := results t ++ map unmatched_result ids |}.
Proof.
  induction ids as [| id ids IH]; intros w t Hd Hpre; cbn [fold_left].
  - cbn [snd map List.length]. rewrite app_nil_r, Nat.add_0_r. now destruct t.
  - inversion Hd as [| x xs Hn Hd']; subst.
    destruct (Hpre id (or_introl eq_refl)) as (row & Hf & Hs & Hr).
    assert (Hstep : process_pending_step (w, t) id
                    = (update_event id (with_unmatched (clock w) (S (clock w)))
                         (snd (utcnow (snd (utcnow w)))),
                       count_failed t (unmatched_result id))).
    { unfold process_pending_step.
      rewrite (@process_event_unmatched_eq RE EXT w id row Hf Hs Hr).
      reflexivity. }
    rewrite Hstep, IH; [| exact Hd' |].
    + cbn [count_failed processed failed results map List.length].
      rewrite <- app_assoc. cbn [app]. f_equal. lia.
    + intros id' Hin.
      destruct (Hpre id' (or_intror Hin)) as (row' & Hf' & Hs' & Hr').
      exists row'. split; [| split; [exact Hs' | exact Hr']].
      rewrite fetch_update_event_other; [| | reflexivity].
      * now rewrite !fetch_event_utcnow.
      * intros ->. contradiction.
Qed.

(** X29: an event no rule matches counts as failed.  With unique event ids,
    when routing finds no rule for any pending event, the batch reports
    [processed] 0 and [failed] equal to [total], and its results are the
    "unmatched" results of the selected rows, oldest first. *)
Theorem process_pending_events_unmatched {RE : ReEngine} {EXT : Externals}
    (w : World) (limit : nat) :
  ids_unique w ->
  (forall e, In e (events w) -> ev_status e = "pending" ->
             route_event w (event_dict e) = Ret None) ->
  let rows := pending_rows w limit in
  snd (process_pending_events w limit)
  = [ ("processed", PInt 0%Z);
      ("failed", PInt (Z.of_nat (List.length rows)));
      ("total", PInt (Z.of_nat (List.length rows)));
      ("results", PList (map unmatched_result rows)) ].
Proof.
  intros Hu Hnone rows. unfold process_pending_events, process_pending_loop.
  fold rows.
  assert (H : snd (fold_left process_pending_step rows
                     (w, {| processed := 0; failed := 0; results := [] |}))
              = {| processed := 0; failed := 0 + List.length rows;
                   results := [] ++ map unmatched_result rows |}).
  { apply process_pending_loop_unmatched; [now apply pending_rows_nodup |].
    intros id Hin.
    destruct (@pending_rows_fetch w limit id Hu Hin) as (row & Hrow & Hf & Hs).
    exists row. auto. }
  destruct (fold_left process_pending_step rows _) as [w' t].
  cbn [snd] in *. subst t. reflexivity.
Qed.

Lemma process_pending_events_unmatched_witness :
  let rows := pending_rows billing_world 10 in
  snd (@process_pending_events literal_re working_ext billing_world 10)
  = [ ("processed", PInt 0%Z);
      ("failed", PInt (Z.of_nat (List.length rows)));
      ("total", PInt (Z.of_nat (List.length rows)));
      ("results", PList (map unmatched_result rows)) ].
Proof.
  apply (@process_pending_events_unmatched literal_re working_ext billing_world 10).
  - unfold ids_unique. simpl. repeat constructor. simpl. tauto.
  - intros e [<- | []] _. reflexivity.
Defined.

(** ** The vault sync loop *)



